(** * bt-helper: the tree builder of [app.js]

    [processExcelToTreeJSON] reads a spreadsheet, turns every row into a chain
    of nodes (one per populated hierarchy level) and writes the deduplicated
    nodes as a flat JSON list with parent and child references.

    The embedding below follows the body of [processExcelToTreeJSON]
    (app.js, lines 44-113).  Reading the workbook and writing the JSON file
    are the surrounding I/O: the model starts from [rawData], the rows that
    [XLSX.utils.sheet_to_json] returned, and ends with [outputNodes].

    Modelling choices, all visible in the definitions:
    - a JavaScript string is a [string], one [ascii] per code unit (code
      units below 256);
    - a cell of a row is a [value]: undefined, a string, a number (integers
      only), a boolean or a date;
    - a row is a [gmap string value]; a key that is missing reads as
      undefined;
    - [idMap] and [nodeMap] are the two [Map]s of the source; the node
      objects live in [outputNodes], and [nodeMap] holds references to them,
      a reference being the object's position in [outputNodes] (every node
      object is pushed there once, when it is allocated);
    - [crypto.randomBytes(12)] is the entropy source [randomBytes]: its k-th
      call returns the 12 bytes that, read as a big-endian number, are
      [randomBytes k];
    - a [TypeError] (calling [trim] on a cell that is not a string) aborts
      the whole run: the model returns [None]. *)

From Stdlib Require Import ZArith NArith Ascii String Sorted.
From stdpp Require Import gmap strings list fin_maps.

(** ** JavaScript values *)

Inductive value : Type :=
  | VUndef
  | VStr (s : string)
  | VNum (z : Z)
  | VBool (b : bool)
  | VDate (ms : Z).

Global Instance value_eq_dec : EqDecision value.
Proof. solve_decision. Defined.

(** [!v] is [negb (truthy v)]. *)
Definition truthy (v : value) : bool :=
  match v with
  | VUndef => false
  | VStr s => negb (bool_decide (s = ""))
  | VNum z => negb (Z.eqb z 0)
  | VBool b => b
  | VDate _ => true
  end.

(** [v || d] *)
Definition js_or (v d : value) : value := if truthy v then v else d.

(** ** String.prototype.trim *)

(** White space and line terminators of ECMAScript among the code units
    below 256: TAB, LF, VT, FF, CR, SP and NBSP. *)
Definition is_ws (a : ascii) : bool :=
  match a with
  | "009" | "010" | "011" | "012" | "013" | " " | "160" => true
  | _ => false
  end%char.

Fixpoint trimStart (s : string) : string :=
  match s with
  | "" => ""
  | String a s' => if is_ws a then trimStart s' else s
  end.

Fixpoint trimEnd (s : string) : string :=
  match s with
  | "" => ""
  | String a s' =>
      match trimEnd s' with
      | "" => if is_ws a then "" else String a ""
      | t => String a t
      end
  end.

Definition trim (s : string) : string := trimEnd (trimStart s).

(** ** Buffer.toString('hex') on 12 bytes *)

Definition hex_digit (d : N) : ascii :=
  match d with
  | 0 => "0" | 1 => "1" | 2 => "2" | 3 => "3" | 4 => "4" | 5 => "5"
  | 6 => "6" | 7 => "7" | 8 => "8" | 9 => "9" | 10 => "a" | 11 => "b"
  | 12 => "c" | 13 => "d" | 14 => "e" | _ => "f"
  end%N%char.

(** The last [width] hexadecimal digits of [n], most significant first,
    in front of [acc]. *)
Fixpoint to_hex (width : nat) (n : N) (acc : string) : string :=
  match width with
  | O => acc
  | S w => to_hex w (n / 16)%N (String (hex_digit (n mod 16)%N) acc)
  end.

(** ** Rows and nodes *)

Abbreviation Row := (gmap string value).

(** [row[key]] *)
Definition row_get (row : Row) (key : string) : value :=
  default VUndef (row !! key).

(** const hierarchyLevels (app.js, lines 6-12) *)
Definition hierarchyLevels : list string :=
  [ "L1 - Line of Business";
    "L2 - Process Group";
    "L3 - Scope Item";
    "L4 - Process Variant";
    "L5 - Process Step" ].

(** The object literal of lines 77-92.  [levelFields] holds the properties
    spread from [Object.fromEntries(hierarchyLevels.map(...))], in order. *)
Record node : Type := mkNode {
  _id : string;
  title : string;
  _parent : string;
  _child : list string;
  levelFields : list (string * string);
  ID : value;
  Business_Role : value;
  Fiori_app_UX_recommendations : value;
  Insights_Indicative : value;
  Business_stakeholders : value;
  Materiality : value;
  Description : value
}.

Global Instance node_eq_dec : EqDecision node.
Proof. solve_decision. Defined.

(** [parentNode._child.push(nodeId)] *)
Definition push_child (n : node) (nodeId : string) : node :=
  mkNode (_id n) (title n) (_parent n) (_child n ++ [nodeId]) (levelFields n)
    (ID n) (Business_Role n) (Fiori_app_UX_recommendations n)
    (Insights_Indicative n) (Business_stakeholders n) (Materiality n)
    (Description n).

(** The state the two nested [forEach] loops work on. [drawn] counts the
    calls to [generateObjectId] made so far. *)
Record build_state : Type := mkState {
  outputNodes : list node;
  idMap : gmap string string;
  nodeMap : gmap string nat;
  drawn : nat
}.

Definition initial_state : build_state := mkState [] ∅ ∅ 0.

(** A value of [previousLevelId]: [None] is [null] (or [undefined]). *)
Definition id_truthy (p : option string) : bool :=
  match p with
  | Some s => negb (bool_decide (s = ""))
  | None => false
  end.

(** [previousLevelId || ''] *)
Definition id_or_empty (p : option string) : string :=
  if id_truthy p then default "" p else "".

(** [Array.prototype.forEach] with a callback that may throw. *)
Fixpoint forEach {A S : Type} (f : S → A → option S) (l : list A) (s : S)
  : option S :=
  match l with
  | [] => Some s
  | x :: l' =>
      match f s x with
      | Some s' => forEach f l' s'
      | None => None
      end
  end.

Section Builder.

(** The entropy source behind [crypto.randomBytes(12)]. *)
Variable randomBytes : nat → N.

(** function generateObjectId (lines 15-17): the k-th call. *)
Definition generateObjectId (k : nat) : string :=
  to_hex 24 (randomBytes k) "".

(** Lines 67-69. *)
Definition compositeKey (level value : string) (previousLevelId : option string)
  : string :=
  if id_truthy previousLevelId
  then level +:+ ":" +:+ value +:+ ":" +:+ default "" previousLevelId
  else level +:+ ":" +:+ value.

(** Lines 77-92. *)
Definition new_node (row : Row) (level value : string)
    (previousLevelId : option string) (nodeId : string) : node :=
  {| _id := nodeId;
     title := value;
     _parent := id_or_empty previousLevelId;
     _child := [];
     levelFields :=
       (λ l, (l, if bool_decide (l = level) then value else ""))
         <$> hierarchyLevels;
     ID := js_or (row_get row "ID") (VStr "");
     Business_Role := js_or (row_get row "Business Role") (VStr "");
     Fiori_app_UX_recommendations :=
       js_or (row_get row "Fiori app UX recommendations") (VStr "");
     Insights_Indicative := js_or (row_get row "Insights (Indicative)") (VStr "");
     Business_stakeholders := js_or (row_get row "Business stakeholders") (VStr "");
     Materiality := js_or (row_get row "Materiality") (VNum 0);
     Description := js_or (row_get row "Description") (VStr "") |}.

(** Lines 102-107, run on the node store after the new node was pushed
    and registered. *)
Definition link_to_parent (previousLevelId : option string) (nodeId : string)
    (nodes : list node) (nmap : gmap string nat) : list node :=
  if id_truthy previousLevelId then
    match nmap !! default "" previousLevelId with
    | Some r =>
        match nodes !! r with
        | Some parentNode =>
            if bool_decide (nodeId ∈ _child parentNode) then nodes
            else <[r := push_child parentNode nodeId]> nodes
        | None => nodes
        end
    | None => nodes
    end
  else nodes.

(** Lines 72-108, the branch taken when [idMap] lacks the key. *)
Definition create (row : Row) (level value : string)
    (previousLevelId : option string) (key : string) (st : build_state)
  : build_state :=
  let nodeId := generateObjectId (drawn st) in
  let node := new_node row level value previousLevelId nodeId in
  let nodes := outputNodes st ++ [node] in
  let imap := <[key := nodeId]> (idMap st) in
  let nmap := <[nodeId := length (outputNodes st)]> (nodeMap st) in
  {| outputNodes := link_to_parent previousLevelId nodeId nodes nmap;
     idMap := imap;
     nodeMap := nmap;
     drawn := S (drawn st) |}.

(** Lines 63-111: a populated cell whose text is [raw]. *)
Definition visit (row : Row) (level raw : string)
    (c : build_state * option string) : build_state * option string :=
  let '(st, previousLevelId) := c in
  let value := trim raw in
  let key := compositeKey level value previousLevelId in
  let st' :=
    match idMap st !! key with
    | Some _ => st
    | None => create row level value previousLevelId key st
    end in
  (st', idMap st' !! key).

(** The callback of the inner [forEach] (lines 58-112).  The cursor is
    the state together with [previousLevelId]. *)
Definition level_step (row : Row) (c : build_state * option string)
    (level : string) : option (build_state * option string) :=
  match row_get row level with
  | VStr raw =>
      if bool_decide (raw = "") || bool_decide (trim raw = "")
      then Some c
      else Some (visit row level raw c)
  | v => if truthy v then None else Some c
  end.

(** The callback of the outer [forEach] (lines 54-113). *)
Definition process_row (st : build_state) (row : Row) : option build_state :=
  fst <$> forEach (level_step row) hierarchyLevels (st, None).

(** The rows-to-nodes part of [processExcelToTreeJSON]. *)
Definition processExcelToTreeJSON (rawData : list Row) : option (list node) :=
  outputNodes <$> forEach process_row rawData initial_state.

End Builder.

Global Arguments generateObjectId : simpl never.
Global Arguments compositeKey : simpl never.

(** ** Sample data *)

Definition L1 : string := "L1 - Line of Business".
Definition L2 : string := "L2 - Process Group".
Definition L3 : string := "L3 - Scope Item".
Definition L4 : string := "L4 - Process Variant".
Definition L5 : string := "L5 - Process Step".

(** An entropy source that counts: 0, 1, 2, ... *)
Definition counter : nat → N := N.of_nat.

Definition row_of (cells : list (string * string)) : Row :=
  list_to_map (map (λ p, (p.1, VStr p.2)) cells).

Example generateObjectId_counter_3 :
  generateObjectId counter 3 = "000000000000000000000003".
Proof. reflexivity. Qed.

Example trim_sample : trim (String "009" "  A b  ") = "A b".
Proof. reflexivity. Qed.

(** ** Observations on rows and nodes *)

(** The text a row contributes at a level: [Some] of the trimmed cell when
    the cell is a string that is not empty after trimming, [None] when the
    level is skipped (or the cell is no string). *)
Definition cell_title (row : Row) (level : string) : option string :=
  match row_get row level with
  | VStr raw =>
      if bool_decide (raw = "") || bool_decide (trim raw = "")
      then None else Some (trim raw)
  | _ => None
  end.

(** A cell the inner loop skips: a falsy value, or text that trims to
    nothing. *)
Definition cell_blank (row : Row) (level : string) : Prop :=
  match row_get row level with
  | VStr raw => raw = "" ∨ trim raw = ""
  | v => truthy v = false
  end.

(** A cell that is absent or carries text. *)
Definition cell_text (row : Row) (level : string) : Prop :=
  match row_get row level with
  | VUndef | VStr _ => True
  | _ => False
  end.

(** A node without its child list: everything that is fixed at creation. *)
Definition core (n : node) : node :=
  mkNode (_id n) (title n) (_parent n) [] (levelFields n)
    (ID n) (Business_Role n) (Fiori_app_UX_recommendations n)
    (Insights_Indicative n) (Business_stakeholders n) (Materiality n)
    (Description n).

(** The level a node stands at: the one level field that is not empty
    (found the way the report of app.js, lines 185-186, finds it). *)
Definition node_level (n : node) : option string :=
  (λ p, p.2.1) <$> list_find (λ p, p.2 ≠ "") (levelFields n).

(** Ranks count from 1; 0 stands for "no such level". *)
Definition level_rank (level : string) : nat :=
  match list_find (λ l, l = level) hierarchyLevels with
  | Some (i, _) => S i
  | None => 0
  end.

Definition node_rank (n : node) : nat :=
  match node_level n with
  | Some l => level_rank l
  | None => 0
  end.

(** [_parent] read as "parent id or none". *)
Definition parent_of (n : node) : option string :=
  if bool_decide (_parent n = "") then None else Some (_parent n).

(** The deduplication key of the specification. *)
Definition dedup_key : Type := option string * string * option string.

Definition node_key (n : node) : dedup_key :=
  (node_level n, title n, parent_of n).

(** The seven metadata fields as the row gives them (lines 85-91). *)
Definition metadata (n : node) : list value :=
  [ ID n; Business_Role n; Fiori_app_UX_recommendations n;
    Insights_Indicative n; Business_stakeholders n; Materiality n;
    Description n ].

Definition row_metadata (row : Row) : list value :=
  [ js_or (row_get row "ID") (VStr "");
    js_or (row_get row "Business Role") (VStr "");
    js_or (row_get row "Fiori app UX recommendations") (VStr "");
    js_or (row_get row "Insights (Indicative)") (VStr "");
    js_or (row_get row "Business stakeholders") (VStr "");
    js_or (row_get row "Materiality") (VNum 0);
    js_or (row_get row "Description") (VStr "") ].

(** The levels of [pre] that [row] populates, and the last of them. *)
Definition last_populated (row : Row) (pre : list string) : option string :=
  last (filter (λ l, is_Some (cell_title row l)) pre).

(** ** Strings *)

Lemma string_app_nil (t : string) : "" +:+ t = t.
Proof. reflexivity. Qed.

Lemma string_app_cons (a : ascii) (s t : string) :
  String a s +:+ t = String a (s +:+ t).
Proof. reflexivity. Qed.

Lemma string_app_length (s t : string) :
  String.length (s +:+ t) = String.length s + String.length t.
Proof.
  induction s as [|a s IH]; [done|].
  rewrite string_app_cons. simpl. by rewrite IH.
Qed.

(** Two splits of one string with right parts of the same length agree. *)
Lemma string_app_inj_suffix (s1 s2 t1 t2 : string) :
  String.length t1 = String.length t2 →
  s1 +:+ t1 = s2 +:+ t2 → s1 = s2 ∧ t1 = t2.
Proof.
  revert s2. induction s1 as [|a s1 IH]; intros [|b s2] Hlen Heq;
    rewrite ?string_app_nil, ?string_app_cons in Heq.
  - done.
  - subst t1. simpl in Hlen. rewrite string_app_length in Hlen. lia.
  - subst t2. simpl in Hlen. rewrite string_app_length in Hlen. lia.
  - injection Heq as -> Heq. destruct (IH s2 Hlen Heq) as [-> ->]. done.
Qed.

Lemma to_hex_length (w : nat) (n : N) (acc : string) :
  String.length (to_hex w n acc) = w + String.length acc.
Proof.
  revert n acc. induction w as [|w IH]; intros n acc; simpl; [done|].
  rewrite IH. simpl. lia.
Qed.

Lemma generateObjectId_length (rnd : nat → N) (k : nat) :
  String.length (generateObjectId rnd k) = 24.
Proof. unfold generateObjectId. by rewrite to_hex_length. Qed.

Lemma generateObjectId_nonempty (rnd : nat → N) (k : nat) :
  generateObjectId rnd k ≠ "".
Proof.
  intros H. pose proof (generateObjectId_length rnd k) as Hl.
  rewrite H in Hl. discriminate.
Qed.

Lemma elem_of_hierarchyLevels (l : string) :
  l ∈ hierarchyLevels →
  l = "L1 - Line of Business" ∨ l = "L2 - Process Group" ∨
  l = "L3 - Scope Item" ∨ l = "L4 - Process Variant" ∨
  l = "L5 - Process Step".
Proof.
  unfold hierarchyLevels. rewrite !elem_of_cons, elem_of_nil. tauto.
Qed.

(** The level names are told apart by their second character and hold no
    colon, so the level can be read back from a composite key. *)
Lemma level_prefix_inj (l1 l2 r1 r2 : string) :
  l1 ∈ hierarchyLevels → l2 ∈ hierarchyLevels →
  l1 +:+ ":" +:+ r1 = l2 +:+ ":" +:+ r2 → l1 = l2 ∧ r1 = r2.
Proof.
  intros H1%elem_of_hierarchyLevels H2%elem_of_hierarchyLevels Heq.
  destruct H1 as [->|[->|[->|[->| ->]]]];
    destruct H2 as [->|[->|[->|[->| ->]]]];
    cbv [String.append] in Heq; simplify_eq; done.
Qed.

Lemma NoDup_hierarchyLevels : NoDup hierarchyLevels.
Proof. apply (bool_decide_unpack _). by vm_compute. Qed.

(** ** The loops *)

Lemma forEach_app {A S : Type} (f : S → A → option S) (l1 l2 : list A) (s : S) :
  forEach f (l1 ++ l2) s = forEach f l1 s ≫= forEach f l2.
Proof.
  revert s. induction l1 as [|x l1 IH]; intros s; simpl; [done|].
  destruct (f s x); simpl; auto.
Qed.

(** The proof rule for a loop: [P done s] relates the elements already
    visited to the state they left. *)
Lemma forEach_invariant {A S : Type} (f : S → A → option S)
    (P : list A → S → Prop) (l0 : list A) :
  (∀ done x rest s s',
      l0 = done ++ x :: rest → P done s → f s x = Some s' →
      P (done ++ [x]) s') →
  ∀ s s', P [] s → forEach f l0 s = Some s' → P l0 s'.
Proof.
  intros Hstep.
  cut (∀ l done s s',
          l0 = done ++ l → P done s → forEach f l s = Some s' → P l0 s').
  { intros H s s'. by apply (H l0 []). }
  induction l as [|x l IH]; intros done s s' Hl HP Hrun; simpl in Hrun.
  - simplify_eq. by rewrite app_nil_r.
  - destruct (f s x) as [s1|] eqn:Hf; [|done].
    apply (IH (done ++ [x]) s1 s');
      [by rewrite <-app_assoc | by eapply Hstep | done].
Qed.

(** Two runs over the same list, in lockstep. *)
Lemma forEach_invariant2 {A S T : Type} (f : S → A → option S)
    (g : T → A → option T) (R : list A → S → T → Prop) (l0 : list A) :
  (∀ done x rest s s' t t',
      l0 = done ++ x :: rest → R done s t →
      f s x = Some s' → g t x = Some t' → R (done ++ [x]) s' t') →
  ∀ s s' t t', R [] s t →
    forEach f l0 s = Some s' → forEach g l0 t = Some t' → R l0 s' t'.
Proof.
  intros Hstep.
  cut (∀ l done s s' t t',
          l0 = done ++ l → R done s t →
          forEach f l s = Some s' → forEach g l t = Some t' → R l0 s' t').
  { intros H s s' t t'. by apply (H l0 []). }
  induction l as [|x l IH]; intros done s s' t t' Hl HR Hf Hg; simpl in *.
  - simplify_eq. by rewrite app_nil_r.
  - destruct (f s x) as [s1|] eqn:Hfs; [|done].
    destruct (g t x) as [t1|] eqn:Hgt; [|done].
    apply (IH (done ++ [x]) s1 s' t1 t');
      [by rewrite <-app_assoc | by eapply Hstep | done | done].
Qed.

Section Steps.

Variable rnd : nat → N.
Local Abbreviation gen := (generateObjectId rnd).

(** What one call of the inner callback does. *)
Lemma level_step_cases (row : Row) (c c' : build_state * option string)
    (l : string) :
  level_step rnd row c l = Some c' →
  (cell_title row l = None ∧ cell_blank row l ∧ c' = c) ∨
  (∃ raw, row_get row l = VStr raw ∧ cell_title row l = Some (trim raw) ∧
          trim raw ≠ "" ∧ c' = visit rnd row l raw c).
Proof.
  unfold level_step, cell_title, cell_blank.
  destruct (row_get row l) as [|raw|z|b|ms] eqn:Hget; simpl.
  - intros [= <-]. by left.
  - destruct (bool_decide (raw = "")) eqn:E1; simpl.
    { apply bool_decide_eq_true in E1. intros [= <-]. left. auto. }
    destruct (bool_decide (trim raw = "")) eqn:E2; simpl.
    { apply bool_decide_eq_true in E2. intros [= <-]. left. auto. }
    apply bool_decide_eq_false in E2. intros [= <-]. right. by exists raw.
  - destruct (negb (z =? 0)%Z); [done|]. intros [= <-]. by left.
  - destruct b; [done|]. intros [= <-]. by left.
  - done.
Qed.

Lemma level_step_blank (row : Row) (c : build_state * option string)
    (l : string) :
  cell_blank row l → level_step rnd row c l = Some c.
Proof.
  unfold level_step, cell_blank.
  destruct (row_get row l) as [|raw|z|b|ms]; simpl; try done.
  - intros [->| ->]; [done|].
    by rewrite (bool_decide_eq_true_2 ("" = "")), orb_true_r.
  - by intros ->.
  - by intros ->.
Qed.

Lemma level_step_text (row : Row) (c : build_state * option string)
    (l : string) :
  cell_text row l → is_Some (level_step rnd row c l).
Proof.
  unfold level_step, cell_text.
  destruct (row_get row l) as [|raw|z|b|ms]; simpl; try done.
  intros _. by destruct (_ || _).
Qed.

Lemma visit_cases (row : Row) (l raw : string) (st st' : build_state)
    (prev prev' : option string) :
  visit rnd row l raw (st, prev) = (st', prev') →
  let key := compositeKey l (trim raw) prev in
  (∃ x, idMap st !! key = Some x ∧ st' = st ∧ prev' = Some x) ∨
  (idMap st !! key = None ∧
   st' = create rnd row l (trim raw) prev key st ∧
   prev' = Some (gen (drawn st))).
Proof.
  unfold visit. simpl.
  destruct (idMap st !! compositeKey l (trim raw) prev) as [x|] eqn:Hk.
  - rewrite Hk. intros [= <- <-]. left. eauto.
  - intros [= <- <-]. right. split; [done|]. split; [done|].
    simpl. by rewrite lookup_insert_eq.
Qed.

(** Linking a child changes child lists only. *)
Lemma link_to_parent_cores (prev : option string) (nodeId : string)
    (nodes : list node) (nmap : gmap string nat) :
  core <$> link_to_parent prev nodeId nodes nmap = core <$> nodes.
Proof.
  unfold link_to_parent.
  destruct (id_truthy prev); [|done].
  destruct (nmap !! default "" prev) as [r|]; [|done].
  destruct (nodes !! r) as [p|] eqn:Hr; [|done].
  destruct (bool_decide _); [done|].
  rewrite list_fmap_insert.
  apply list_insert_id. rewrite list_lookup_fmap, Hr. done.
Qed.

Lemma create_cores (row : Row) (l v : string) (prev : option string)
    (key : string) (st : build_state) :
  core <$> outputNodes (create rnd row l v prev key st) =
  (core <$> outputNodes st) ++ [new_node row l v prev (gen (drawn st))].
Proof.
  unfold create. simpl. rewrite link_to_parent_cores, fmap_app. done.
Qed.

Lemma create_outputNodes (row : Row) (l v : string) (prev : option string)
    (key : string) (st : build_state) :
  outputNodes (create rnd row l v prev key st) =
  link_to_parent prev (gen (drawn st))
    (outputNodes st ++ [new_node row l v prev (gen (drawn st))])
    (<[gen (drawn st) := length (outputNodes st)]> (nodeMap st)).
Proof. reflexivity. Qed.

Lemma create_length (row : Row) (l v : string) (prev : option string)
    (key : string) (st : build_state) :
  length (outputNodes (create rnd row l v prev key st)) =
  S (length (outputNodes st)).
Proof.
  rewrite <-(length_fmap core), create_cores, length_app, length_fmap.
  simpl. lia.
Qed.

End Steps.

(** ** Fresh nodes *)

Lemma node_level_new_node (rnd : nat → N) (row : Row) (l v : string)
    (prev : option string) (nodeId : string) :
  l ∈ hierarchyLevels → v ≠ "" →
  node_level (new_node row l v prev nodeId) = Some l.
Proof.
  intros [i Hi]%list_elem_of_lookup Hv. unfold node_level.
  cut (list_find (λ p : string * string, p.2 ≠ "")
         (levelFields (new_node row l v prev nodeId)) = Some (i, (l, v))).
  { by intros ->. }
  cbn [levelFields new_node]. apply list_find_Some. split; [|split].
  - rewrite list_lookup_fmap, Hi. simpl. by rewrite bool_decide_eq_true_2.
  - done.
  - intros j [l' w]. rewrite list_lookup_fmap.
    destruct (hierarchyLevels !! j) as [l''|] eqn:E; [|done].
    intros [= <- <-] Hlt. simpl. rewrite bool_decide_eq_false_2; [auto|].
    intros ->.
    pose proof (NoDup_lookup _ _ _ _ NoDup_hierarchyLevels Hi E). lia.
Qed.

Lemma parent_of_new_node (row : Row) (l v : string) (prev : option string)
    (nodeId : string) :
  parent_of (new_node row l v prev nodeId) =
  if id_truthy prev then prev else None.
Proof.
  unfold parent_of, new_node, id_or_empty. simpl.
  destruct prev as [x|]; simpl; [|done].
  destruct (decide (x = "")) as [->|Hx].
  - by rewrite !bool_decide_eq_true_2.
  - rewrite (bool_decide_eq_false_2 (x = "")) by done. simpl.
    by rewrite bool_decide_eq_false_2.
Qed.

Lemma compositeKey_normal (l v : string) (prev : option string) :
  compositeKey l v (if id_truthy prev then prev else None) =
  compositeKey l v prev.
Proof. unfold compositeKey. by destruct (id_truthy prev) eqn:E; rewrite ?E. Qed.

Lemma compositeKey_split (l v : string) (prev : option string) :
  ∃ r, compositeKey l v prev = l +:+ ":" +:+ r.
Proof. unfold compositeKey. destruct (id_truthy prev); eauto. Qed.

Lemma compositeKey_level (l1 l2 v1 v2 : string) (p1 p2 : option string) :
  l1 ∈ hierarchyLevels → l2 ∈ hierarchyLevels →
  compositeKey l1 v1 p1 = compositeKey l2 v2 p2 → l1 = l2.
Proof.
  intros H1 H2 Heq.
  destruct (compositeKey_split l1 v1 p1) as [r1 E1].
  destruct (compositeKey_split l2 v2 p2) as [r2 E2].
  rewrite E1, E2 in Heq. by destruct (level_prefix_inj _ _ _ _ H1 H2 Heq).
Qed.

(** ** The basic invariant of the build state *)

Section Basic.

Variable rnd : nat → N.
Local Abbreviation gen := (generateObjectId rnd).

Definition cores (st : build_state) : list node := core <$> outputNodes st.

(** Ids are handed out in order, both maps describe exactly the nodes of
    the output, and a parent is an older node. *)
Record basic_inv (st : build_state) : Prop := {
  bi_drawn : drawn st = length (outputNodes st);
  bi_id : ∀ i n, cores st !! i = Some n → _id n = gen i;
  bi_level : ∀ i n, cores st !! i = Some n →
    title n ≠ "" ∧ ∃ l, l ∈ hierarchyLevels ∧ node_level n = Some l;
  bi_parent : ∀ j n, cores st !! j = Some n →
    _parent n = "" ∨ ∃ i, i < j ∧ _parent n = gen i;
  bi_idMap_sound : ∀ k x, idMap st !! k = Some x →
    ∃ i n l, cores st !! i = Some n ∧ x = gen i ∧
             node_level n = Some l ∧
             k = compositeKey l (title n) (parent_of n);
  bi_idMap_complete : ∀ i n l, cores st !! i = Some n →
    node_level n = Some l →
    idMap st !! compositeKey l (title n) (parent_of n) = Some (gen i);
  bi_nodeMap_sound : ∀ x i, nodeMap st !! x = Some i →
    i < length (outputNodes st) ∧ x = gen i;
  bi_nodeMap_complete : ∀ i, i < length (outputNodes st) →
    is_Some (nodeMap st !! gen i)
}.

(** [previousLevelId] is [null] or the id of a node of the output. *)
Definition cursor_ok (c : build_state * option string) : Prop :=
  c.2 = None ∨ ∃ i, i < length (outputNodes c.1) ∧ c.2 = Some (gen i).

Lemma cores_length (st : build_state) :
  length (cores st) = length (outputNodes st).
Proof. unfold cores. by rewrite length_fmap. Qed.

Lemma cores_lookup (st : build_state) (i : nat) (n : node) :
  outputNodes st !! i = Some n → cores st !! i = Some (core n).
Proof. intros H. unfold cores. by rewrite list_lookup_fmap, H. Qed.

Lemma basic_inv_initial : basic_inv initial_state.
Proof. split; simpl; intros *; try done; lia. Qed.

Lemma id_truthy_gen (i : nat) : id_truthy (Some (gen i)) = true.
Proof.
  unfold id_truthy. rewrite bool_decide_eq_false_2; [done|].
  apply generateObjectId_nonempty.
Qed.

Lemma cursor_ok_parent (row : Row) (l v : string) (st : build_state)
    (prev : option string) (nodeId : string) :
  cursor_ok (st, prev) →
  _parent (new_node row l v prev nodeId) = "" ∨
  ∃ i, i < length (outputNodes st) ∧
       _parent (new_node row l v prev nodeId) = gen i.
Proof.
  intros [Hp|(i & Hi & Hp)]; simpl in *; subst prev.
  - by left.
  - right. exists i. split; [done|].
    unfold id_or_empty. by rewrite id_truthy_gen.
Qed.

Lemma basic_inv_create (row : Row) (l v : string) (prev : option string)
    (st : build_state) :
  let key := compositeKey l v prev in
  basic_inv st → cursor_ok (st, prev) →
  l ∈ hierarchyLevels → v ≠ "" → idMap st !! key = None →
  basic_inv (create rnd row l v prev key st).
Proof.
  intros key Hinv Hcur Hl Hv Hnone.
  pose proof (create_cores rnd row l v prev key st) as Hcs.
  fold (cores st) in Hcs. fold (cores (create rnd row l v prev key st)) in Hcs.
  pose proof (bi_drawn _ Hinv) as Hd.
  assert (Hlen : length (cores st) = length (outputNodes st))
    by apply cores_length.
  set (new := new_node row l v prev (gen (drawn st))) in *.
  assert (Hnl : node_level new = Some l)
    by (by apply (node_level_new_node rnd)).
  assert (Hkey : compositeKey l (title new) (parent_of new) = key).
  { unfold new. rewrite parent_of_new_node. simpl. apply compositeKey_normal. }
  split.
  - rewrite create_length. simpl. by rewrite Hd.
  - intros i n. rewrite Hcs. intros [[_ H]|[-> <-]]%lookup_snoc_Some.
    + by eapply bi_id.
    + simpl. by rewrite Hd, Hlen.
  - intros i n. rewrite Hcs. intros [[_ H]|[-> <-]]%lookup_snoc_Some.
    + by eapply bi_level.
    + split; [done|]. eauto.
  - intros j n. rewrite Hcs. intros [[_ H]|[-> <-]]%lookup_snoc_Some.
    + by eapply bi_parent.
    + rewrite Hlen. by apply cursor_ok_parent.
  - intros k x. unfold create at 1. simpl. rewrite lookup_insert.
    case_decide as Hk.
    + intros [= <-]. exists (length (cores st)), new, l. rewrite Hcs.
      split; [by apply lookup_snoc_Some; right|].
      by rewrite Hlen, Hd, Hkey.
    + intros H. destruct (bi_idMap_sound _ Hinv _ _ H) as (i & n & l0 & ? & ? & ? & ?).
      exists i, n, l0. rewrite Hcs. split; [|done].
      apply lookup_snoc_Some. left. split; [|done]. by eapply lookup_lt_Some.
  - intros i n l0. rewrite Hcs. unfold create at 1. simpl.
    intros [[_ H]|[-> <-]]%lookup_snoc_Some Hl0.
    + pose proof (bi_idMap_complete _ Hinv _ _ _ H Hl0) as Hold.
      rewrite lookup_insert_ne; [done|]. intros E. fold key in Hnone.
      rewrite E in Hnone. congruence.
    + rewrite Hnl in Hl0. injection Hl0 as <-. rewrite Hkey.
      by rewrite lookup_insert_eq, Hlen, Hd.
  - intros x i. rewrite create_length. unfold create. simpl.
    rewrite lookup_insert. case_decide as Hx.
    + intros [= <-]. split; [lia|]. by rewrite <-Hx, Hd.
    + intros H. destruct (bi_nodeMap_sound _ Hinv _ _ H). split; [lia|done].
  - intros i. rewrite create_length. unfold create. simpl. intros Hi.
    rewrite lookup_insert. case_decide; [by eexists|].
    apply (bi_nodeMap_complete _ Hinv).
    destruct (decide (i = length (outputNodes st))) as [->|]; [|lia].
    by rewrite Hd in *.
Qed.

End Basic.

(** ** Where a node comes from *)

(** The link between a node created at a level and the levels [pre] below
    it in the creating row: no parent when the row populates none of them,
    otherwise the node resolved at the last populated one. *)
Definition parent_link (row : Row) (pre : list string) (cs : list node)
    (j : nat) (n : node) : Prop :=
  match last_populated row pre with
  | None => _parent n = ""
  | Some l' =>
      _parent n ≠ "" ∧
      ∃ i p, i < j ∧ cs !! i = Some p ∧ _id p = _parent n ∧
             node_level p = Some l'
  end.

(** Node [n], the [j]-th of [cs], was created while [row] was processed. *)
Definition created_by (row : Row) (cs : list node) (j : nat) (n : node)
  : Prop :=
  ∃ pre l post,
    hierarchyLevels = pre ++ l :: post ∧
    node_level n = Some l ∧
    cell_title row l = Some (title n) ∧
    metadata n = row_metadata row ∧
    parent_link row pre cs j n.

Lemma last_populated_snoc (row : Row) (pre : list string) (l : string) :
  last_populated row (pre ++ [l]) =
  match cell_title row l with
  | Some _ => Some l
  | None => last_populated row pre
  end.
Proof.
  unfold last_populated. rewrite filter_app, last_app.
  destruct (cell_title row l) as [v|] eqn:E.
  - rewrite filter_cons_True by (by rewrite E). done.
  - rewrite filter_cons_False by (rewrite E; by intros [? ?]). done.
Qed.

Lemma created_by_mono (row : Row) (cs cs' : list node) (j : nat) (n : node) :
  created_by row cs j n → created_by row (cs ++ cs') j n.
Proof.
  intros (pre & l & post & H1 & H2 & H3 & H4 & H5).
  exists pre, l, post. repeat split; try done.
  unfold parent_link in *. destruct (last_populated row pre); [|done].
  destruct H5 as (Hne & i & p & Hi & Hp & Hid & Hlv). split; [done|].
  exists i, p. repeat split; try done. by apply lookup_app_l_Some.
Qed.

Section Provenance.

Variable rnd : nat → N.
Local Abbreviation gen := (generateObjectId rnd).

(** Every node of the output was created by one of the rows. *)
Definition provenance (rows : list Row) (st : build_state) : Prop :=
  ∀ j n, cores st !! j = Some n →
    ∃ row, row ∈ rows ∧ created_by row (cores st) j n.

(** [previousLevelId] after the levels [pre] of [row]: the node resolved
    at the last populated one. *)
Definition cursor_level (row : Row) (pre : list string)
    (c : build_state * option string) : Prop :=
  match last_populated row pre with
  | None => c.2 = None
  | Some l' =>
      ∃ i p, c.2 = Some (gen i) ∧ cores c.1 !! i = Some p ∧
             node_level p = Some l'
  end.

Lemma cursor_level_ok (row : Row) (pre : list string)
    (c : build_state * option string) :
  cursor_level row pre c → cursor_ok rnd c.
Proof.
  unfold cursor_level, cursor_ok.
  destruct (last_populated row pre); [|by left].
  intros (i & p & Hc & Hp & _). right. exists i. split; [|done].
  rewrite <-cores_length. by eapply lookup_lt_Some.
Qed.

(** The invariant of the inner loop, [pre] being the levels done. *)
Definition level_inv (rows : list Row) (row : Row) (pre : list string)
    (c : build_state * option string) : Prop :=
  basic_inv rnd c.1 ∧ provenance (rows ++ [row]) c.1 ∧ cursor_level row pre c.

Lemma level_inv_step (rows : list Row) (row : Row) (pre : list string)
    (l : string) (post : list string) (c c' : build_state * option string) :
  hierarchyLevels = pre ++ l :: post →
  level_inv rows row pre c →
  level_step rnd row c l = Some c' →
  level_inv rows row (pre ++ [l]) c'.
Proof.
  intros Hlv (Hb & Hprov & Hcur) Hstep.
  assert (Hl : l ∈ hierarchyLevels).
  { rewrite Hlv. apply elem_of_app. right. constructor. }
  unfold level_inv, cursor_level. rewrite last_populated_snoc.
  destruct (level_step_cases rnd _ _ _ _ Hstep)
    as [(Hnone & _ & ->)|(raw & Hget & Htitle & Hne & ->)].
  { rewrite Hnone. done. }
  rewrite Htitle. destruct c as [st prev].
  destruct (visit rnd row l raw (st, prev)) as [st' prev'] eqn:Hv.
  simpl in *.
  destruct (visit_cases rnd _ _ _ _ _ _ _ Hv)
    as [(x & Hk & -> & ->)|(Hk & -> & ->)].
  - (* the key is known *)
    split; [done|]. split; [done|].
    destruct (bi_idMap_sound _ _ Hb _ _ Hk) as (i & n & l0 & Hn & -> & Hl0 & Hkey).
    exists i, n. split; [done|]. split; [done|].
    destruct (bi_level _ _ Hb _ _ Hn) as (_ & l1 & Hl1 & Hl1').
    assert (l1 = l0) as -> by congruence.
    by rewrite (compositeKey_level _ _ _ _ _ _ Hl Hl1 Hkey).
  - (* a node is created *)
    pose proof (cursor_level_ok _ _ _ Hcur) as Hok.
    pose proof (basic_inv_create rnd row l (trim raw) prev st Hb Hok Hl Hne Hk)
      as Hb'.
    pose proof (create_cores rnd row l (trim raw) prev
                  (compositeKey l (trim raw) prev) st) as Hcs.
    fold (cores st) in Hcs.
    set (st' := create rnd row l (trim raw) prev _ st) in *.
    fold (cores st') in Hcs.
    set (new := new_node row l (trim raw) prev (gen (drawn st))) in *.
    assert (Hnl : node_level new = Some l)
      by (by apply (node_level_new_node rnd)).
    assert (Hnew : cores st' !! length (cores st) = Some new).
    { rewrite Hcs. apply lookup_snoc_Some. by right. }
    split; [done|]. split.
    + intros j n. rewrite Hcs.
      intros [[_ H]|[-> <-]]%lookup_snoc_Some.
      * destruct (Hprov _ _ H) as (r & Hr & Hby). exists r. split; [done|].
        by apply created_by_mono.
      * exists row. split; [apply elem_of_app; right; constructor|].
        exists pre, l, post. repeat split; try done.
        unfold parent_link, cursor_level in *. simpl in *.
        destruct (last_populated row pre) as [l'|].
        -- destruct Hcur as (i & p & -> & Hp & Hpl).
           unfold id_or_empty. rewrite id_truthy_gen. simpl.
           split; [apply generateObjectId_nonempty|].
           exists i, p.
           split; [by eapply lookup_lt_Some|].
           split; [by apply lookup_app_l_Some|].
           split; [apply (bi_id _ _ Hb _ _ Hp)|done].
        -- by subst prev.
    + exists (length (cores st)), new. split; [|done].
      by rewrite cores_length, (bi_drawn _ _ Hb).
Qed.

(** The invariant of the outer loop, [rows] being the rows done. *)
Definition row_inv (rows : list Row) (st : build_state) : Prop :=
  basic_inv rnd st ∧ provenance rows st.

Lemma provenance_mono (rows rows' : list Row) (st : build_state) :
  provenance rows st → provenance (rows ++ rows') st.
Proof.
  intros H j n Hn. destruct (H j n Hn) as (r & ? & ?).
  exists r. split; [apply elem_of_app; by left|done].
Qed.

Lemma row_inv_step (rows : list Row) (row : Row) (st st' : build_state) :
  row_inv rows st → process_row rnd st row = Some st' →
  row_inv (rows ++ [row]) st'.
Proof.
  intros [Hb Hp]. unfold process_row.
  destruct (forEach (level_step rnd row) hierarchyLevels (st, None))
    as [c'|] eqn:Hrun; [|done].
  intros [= <-].
  cut (level_inv rows row hierarchyLevels c').
  { intros (? & ? & _). by split. }
  revert Hrun.
  apply (forEach_invariant (level_step rnd row) (level_inv rows row)).
  - intros done l post c c1 Hlv. by apply (level_inv_step _ _ _ _ post).
  - split; [done|]. split; [by apply provenance_mono|done].
Qed.

Lemma row_inv_run (rows : list Row) (st : build_state) :
  forEach (process_row rnd) rows initial_state = Some st → row_inv rows st.
Proof.
  apply (forEach_invariant (process_row rnd) row_inv).
  - intros done row _ s s' _. apply row_inv_step.
  - split; [apply basic_inv_initial|]. by intros j n.
Qed.

End Provenance.

(** ** Child lists *)

Lemma filter_none {A : Type} (P : A → Prop) `{∀ x, Decision (P x)}
    (l : list A) :
  (∀ x, x ∈ l → ¬ P x) → filter P l = [].
Proof.
  induction l as [|x l IH]; intros Hl; [done|].
  rewrite filter_cons_False by (apply Hl; constructor).
  apply IH. intros y Hy. apply Hl. by constructor.
Qed.

Section Children.

Variable rnd : nat → N.
Local Abbreviation gen := (generateObjectId rnd).

(** The first [k] ids drawn are pairwise distinct. *)
Definition fresh_upto (k : nat) : Prop :=
  ∀ i j, i < k → j < k → gen i = gen j → i = j.

Lemma fresh_upto_mono (k k' : nat) : k ≤ k' → fresh_upto k' → fresh_upto k.
Proof. intros Hle H i j Hi Hj. apply H; lia. Qed.

(** The ids of the nodes whose parent is [x], in output order. *)
Definition children_of (x : string) (cs : list node) : list string :=
  _id <$> filter (λ m, _parent m = x) cs.

Definition children_ok (st : build_state) : Prop :=
  ∀ i n, outputNodes st !! i = Some n →
    _child n = children_of (gen i) (cores st).

Lemma children_of_snoc (x : string) (cs : list node) (m : node) :
  children_of x (cs ++ [m]) =
  children_of x cs ++ (if decide (_parent m = x) then [_id m] else []).
Proof.
  unfold children_of. rewrite filter_app, fmap_app. f_equal.
  destruct (decide (_parent m = x)).
  - by rewrite filter_cons_True.
  - by rewrite filter_cons_False.
Qed.

(** No node names an id that was not drawn yet as its parent. *)
Lemma children_of_undrawn (st : build_state) (k : nat) :
  basic_inv rnd st → fresh_upto (S k) → length (outputNodes st) ≤ k →
  children_of (gen k) (cores st) = [].
Proof.
  intros Hb Hfresh Hk. unfold children_of. rewrite filter_none; [done|].
  intros m [j Hj]%list_elem_of_lookup Hpar.
  pose proof (lookup_lt_Some _ _ _ Hj) as Hlt. rewrite cores_length in Hlt.
  destruct (bi_parent _ _ Hb _ _ Hj) as [E|(i & Hi & E)].
  - rewrite E in Hpar. symmetry in Hpar.
    by apply generateObjectId_nonempty in Hpar.
  - rewrite E in Hpar. apply Hfresh in Hpar; lia.
Qed.

Lemma children_of_ids (st : build_state) (x y : string) :
  basic_inv rnd st → y ∈ children_of x (cores st) →
  ∃ i, i < length (outputNodes st) ∧ y = gen i.
Proof.
  intros Hb (m & -> & Hm)%list_elem_of_fmap_1.
  apply list_elem_of_filter in Hm as [_ [i Hi]%list_elem_of_lookup].
  exists i. split.
  - rewrite <-cores_length. by eapply lookup_lt_Some.
  - by eapply bi_id.
Qed.

Lemma children_create (row : Row) (l v : string) (prev : option string)
    (st : build_state) :
  let key := compositeKey l v prev in
  basic_inv rnd st → cursor_ok rnd (st, prev) →
  fresh_upto (S (drawn st)) → children_ok st →
  children_ok (create rnd row l v prev key st).
Proof.
  intros key Hb Hcur Hfresh Hch.
  pose proof (create_cores rnd row l v prev key st) as Hcs.
  fold (cores st) in Hcs. fold (cores (create rnd row l v prev key st)) in Hcs.
  pose proof (bi_drawn _ _ Hb) as Hd.
  set (new := new_node row l v prev (gen (drawn st))) in *.
  assert (Hundrawn : children_of (gen (length (outputNodes st))) (cores st) = []).
  { apply children_of_undrawn; [done|by rewrite <-Hd|done]. }
  intros i n Hn. rewrite Hcs, children_of_snoc.
  destruct Hcur as [Hp|(a & Ha & Hp)]; [simpl in Hp|simpl in Ha, Hp];
    subst prev.
  - (* no parent: the store only grows *)
    rewrite create_outputNodes in Hn. unfold link_to_parent in Hn.
    change (id_truthy None) with false in Hn. cbv iota in Hn.
    change (_parent new) with "".
    rewrite decide_False
      by (intros E; symmetry in E; by apply generateObjectId_nonempty in E).
    rewrite app_nil_r.
    apply lookup_snoc_Some in Hn as [[_ Hn]|[-> <-]].
    + by apply Hch.
    + by rewrite Hundrawn.
  - (* the parent is node [a] *)
    assert (Hpar : _parent new = gen a).
    { change (_parent new) with (id_or_empty (Some (gen a))).
      unfold id_or_empty. by rewrite id_truthy_gen. }
    rewrite Hpar.
    destruct (lookup_lt_is_Some_2 (outputNodes st) a Ha) as [p Hpa].
    assert (Hne : gen (drawn st) ≠ gen a).
    { intros E. apply Hfresh in E; lia. }
    assert (Hnm : <[gen (drawn st) := length (outputNodes st)]> (nodeMap st) !! gen a = Some a).
    { rewrite lookup_insert_ne by done.
      destruct (bi_nodeMap_complete _ _ Hb a Ha) as [a' Ha'].
      destruct (bi_nodeMap_sound _ _ Hb _ _ Ha') as [Hlt E].
      apply Hfresh in E; [by subst a'|lia|lia]. }
    assert (Hnotin : gen (drawn st) ∉ _child p).
    { rewrite (Hch _ _ Hpa). intros Hin.
      destruct (children_of_ids _ _ _ Hb Hin) as (i' & Hi' & E).
      apply Hfresh in E; lia. }
    rewrite create_outputNodes in Hn. unfold link_to_parent in Hn.
    rewrite id_truthy_gen in Hn.
    change (default "" (Some (gen a))) with (gen a) in Hn.
    rewrite Hnm in Hn.
    rewrite (lookup_app_l_Some _ _ _ _ Hpa) in Hn.
    rewrite bool_decide_eq_false_2 in Hn by done.
    destruct (decide (i = a)) as [->|Hia].
    + rewrite list_lookup_insert_eq in Hn
        by (rewrite length_app; simpl; lia).
      injection Hn as <-.
      change (_child (push_child p (gen (drawn st))))
        with (_child p ++ [gen (drawn st)]).
      destruct (decide (gen a = gen a)) as [_|Hneq]; [|by destruct Hneq].
      rewrite (Hch _ _ Hpa). reflexivity.
    + rewrite list_lookup_insert_ne in Hn by done.
      apply lookup_snoc_Some in Hn as [[Hlt Hn]|[-> <-]].
      * rewrite decide_False; [rewrite app_nil_r; by apply Hch|].
        intros E. apply Hfresh in E; [done|lia|].
        lia.
      * rewrite Hundrawn. rewrite decide_False; [done|].
        intros E. apply Hfresh in E; lia.
Qed.

Lemma level_step_drawn (row : Row) (l : string)
    (c c' : build_state * option string) :
  level_step rnd row c l = Some c' → drawn c.1 ≤ drawn c'.1.
Proof.
  intros Hstep.
  destruct (level_step_cases rnd _ _ _ _ Hstep)
    as [(_ & _ & ->)|(raw & _ & _ & _ & ->)]; [done|].
  destruct c as [st prev]. unfold visit. simpl.
  destruct (idMap st !! _); simpl; lia.
Qed.

Lemma forEach_level_step_drawn (row : Row) (ls : list string)
    (c c' : build_state * option string) :
  forEach (level_step rnd row) ls c = Some c' → drawn c.1 ≤ drawn c'.1.
Proof.
  revert c. induction ls as [|l ls IH]; intros c; simpl.
  - by intros [= ->].
  - destruct (level_step rnd row c l) as [c1|] eqn:E; [|done].
    intros H. apply level_step_drawn in E. apply IH in H. lia.
Qed.

Lemma process_row_drawn (row : Row) (st st' : build_state) :
  process_row rnd st row = Some st' → drawn st ≤ drawn st'.
Proof.
  unfold process_row.
  destruct (forEach _ _ _) as [c'|] eqn:E; [|done].
  intros [= <-]. by apply forEach_level_step_drawn in E.
Qed.

(** Child lists are right as long as the ids drawn are distinct. *)
Definition children_inv (st : build_state) : Prop :=
  fresh_upto (drawn st) → children_ok st.

Lemma children_inv_level_step (rows : list Row) (row : Row)
    (pre : list string) (l : string) (c c' : build_state * option string) :
  level_inv rnd rows row pre c → children_inv c.1 →
  level_step rnd row c l = Some c' → children_inv c'.1.
Proof.
  intros (Hb & _ & Hcur) Hch Hstep Hfresh.
  pose proof (level_step_drawn _ _ _ _ Hstep) as Hmono.
  destruct (level_step_cases rnd _ _ _ _ Hstep)
    as [(_ & _ & ->)|(raw & _ & _ & _ & ->)]; [by apply Hch|].
  destruct c as [st prev].
  destruct (visit rnd row l raw (st, prev)) as [st' prev'] eqn:Hv.
  simpl in *.
  destruct (visit_cases rnd _ _ _ _ _ _ _ Hv)
    as [(x & Hk & -> & ->)|(Hk & -> & ->)]; [by apply Hch|].
  apply children_create; try done.
  - by eapply cursor_level_ok.
  - apply Hch. eapply fresh_upto_mono; [|done]. simpl. lia.
Qed.

End Children.

(** ** The keys seen during the scan *)

(** The distinct elements of a list in the order in which each is first
    met, scanning from the left. *)
Definition first_occurrences {A : Type} `{EqDecision A} (l : list A) : list A :=
  fold_left (λ acc x, if decide (x ∈ acc) then acc else acc ++ [x]) l [].

Lemma first_occurrences_snoc {A : Type} `{EqDecision A} (l : list A) (x : A) :
  first_occurrences (l ++ [x]) =
  if decide (x ∈ first_occurrences l) then first_occurrences l
  else first_occurrences l ++ [x].
Proof. unfold first_occurrences. by rewrite fold_left_app. Qed.

Lemma elem_of_first_occurrences {A : Type} `{EqDecision A} (l : list A) (x : A) :
  x ∈ first_occurrences l ↔ x ∈ l.
Proof.
  induction l as [|y l IH] using rev_ind; [done|].
  rewrite first_occurrences_snoc, elem_of_app, list_elem_of_singleton.
  destruct (decide (y ∈ first_occurrences l)) as [Hy|Hy].
  - rewrite IH. split; [by left|]. intros [?| ->]; [done|]. by apply IH.
  - by rewrite elem_of_app, list_elem_of_singleton, IH.
Qed.

Lemma NoDup_first_occurrences {A : Type} `{EqDecision A} (l : list A) :
  NoDup (first_occurrences l).
Proof.
  induction l as [|y l IH] using rev_ind; [constructor|].
  rewrite first_occurrences_snoc.
  destruct (decide (y ∈ first_occurrences l)) as [Hy|Hy]; [done|].
  apply NoDup_app. split; [done|]. split; [|apply NoDup_singleton].
  intros z Hz ->%list_elem_of_singleton. done.
Qed.

(** A key met during the scan, with the id it resolved to. *)
Definition occurrence : Type := dedup_key * string.

(** [previousLevelId] read as "parent id or none". *)
Definition normal_parent (prev : option string) : option string :=
  if id_truthy prev then prev else None.

Section Occurrences.

Variable rnd : nat → N.
Local Abbreviation gen := (generateObjectId rnd).

(** What the callback of the inner loop sees at one level: nothing at a
    skipped level, otherwise the key formed from the level, the trimmed
    cell and [previousLevelId], and the id the callback leaves in
    [previousLevelId]. *)
Definition level_occurrence (row : Row) (c : build_state * option string)
    (l : string) : list occurrence :=
  match cell_title row l, level_step rnd row c l with
  | Some v, Some c' => [((Some l, v, normal_parent c.2), default "" c'.2)]
  | _, _ => []
  end.

Fixpoint levels_occurrences (row : Row) (ls : list string)
    (c : build_state * option string) : list occurrence :=
  match ls with
  | [] => []
  | l :: ls' =>
      level_occurrence row c l ++
      match level_step rnd row c l with
      | Some c' => levels_occurrences row ls' c'
      | None => []
      end
  end.

Definition row_occurrences (st : build_state) (row : Row) : list occurrence :=
  levels_occurrences row hierarchyLevels (st, None).

Fixpoint occurrences_from (rows : list Row) (st : build_state)
  : list occurrence :=
  match rows with
  | [] => []
  | r :: rs =>
      row_occurrences st r ++
      match process_row rnd st r with
      | Some st' => occurrences_from rs st'
      | None => []
      end
  end.

(** All keys met while [rows] are processed, rows top to bottom and
    levels from the lowest rank up. *)
Definition occurrences (rows : list Row) : list occurrence :=
  occurrences_from rows initial_state.

Lemma levels_occurrences_app (row : Row) (l1 l2 : list string)
    (c c1 : build_state * option string) :
  forEach (level_step rnd row) l1 c = Some c1 →
  levels_occurrences row (l1 ++ l2) c =
  levels_occurrences row l1 c ++ levels_occurrences row l2 c1.
Proof.
  revert c. induction l1 as [|l l1 IH]; intros c; simpl.
  - by intros [= ->].
  - destruct (level_step rnd row c l) as [c'|]; [|done].
    intros H. by rewrite (IH _ H), app_assoc.
Qed.

Lemma occurrences_from_app (r1 r2 : list Row) (st st1 : build_state) :
  forEach (process_row rnd) r1 st = Some st1 →
  occurrences_from (r1 ++ r2) st =
  occurrences_from r1 st ++ occurrences_from r2 st1.
Proof.
  revert st. induction r1 as [|r r1 IH]; intros st; simpl.
  - by intros [= ->].
  - destruct (process_row rnd st r) as [st'|]; [|done].
    intros H. by rewrite (IH _ H), app_assoc.
Qed.

(** No title of [rows] ends with a colon followed by one of the first
    [k] ids drawn. *)
Definition unmentioned (rows : list Row) (k : nat) : Prop :=
  ∀ r l t i v, r ∈ rows → l ∈ hierarchyLevels → cell_title r l = Some t →
    i < k → t ≠ v +:+ ":" +:+ gen i.

Lemma unmentioned_mono (rows rows' : list Row) (k k' : nat) :
  k ≤ k' → unmentioned (rows ++ rows') k' → unmentioned rows k.
Proof.
  intros Hle H r l t i v Hr Hl Ht Hi.
  apply (H r l); [apply elem_of_app; by left|done|done|lia].
Qed.

(** Composite keys can be decoded when the titles do not imitate the
    parent part of a key. *)
Lemma compositeKey_inj (l1 l2 v1 v2 : string) (p1 p2 : option string) :
  l1 ∈ hierarchyLevels → l2 ∈ hierarchyLevels →
  (p1 = None ∨ ∃ a, p1 = Some (gen a) ∧ ∀ v, v2 ≠ v +:+ ":" +:+ gen a) →
  (p2 = None ∨ ∃ b, p2 = Some (gen b) ∧ ∀ v, v1 ≠ v +:+ ":" +:+ gen b) →
  compositeKey l1 v1 p1 = compositeKey l2 v2 p2 →
  l1 = l2 ∧ v1 = v2 ∧ p1 = p2.
Proof.
  intros Hl1 Hl2 H1 H2. unfold compositeKey.
  destruct H1 as [->|(a & -> & Ha)]; destruct H2 as [->|(b & -> & Hb)];
    rewrite ?id_truthy_gen; cbn [id_truthy default from_option id];
    intros Heq;
    destruct (level_prefix_inj _ _ _ _ Hl1 Hl2 Heq) as [-> Hr].
  - done.
  - by apply Hb in Hr.
  - symmetry in Hr. by apply Ha in Hr.
  - apply string_app_inj_suffix in Hr as [-> Hid].
    + apply (String.app_inj ":") in Hid. by rewrite Hid.
    + by rewrite !string_app_length, !generateObjectId_length.
Qed.

Lemma parent_of_cases (st : build_state) (j : nat) (n : node) :
  basic_inv rnd st → cores st !! j = Some n →
  parent_of n = None ∨ ∃ b, b < j ∧ parent_of n = Some (gen b).
Proof.
  intros Hb Hn. unfold parent_of.
  destruct (bi_parent _ _ Hb _ _ Hn) as [E|(i & Hi & E)]; rewrite E.
  - by left.
  - right. exists i. split; [done|].
    rewrite bool_decide_eq_false_2; [done|apply generateObjectId_nonempty].
Qed.

Lemma normal_parent_cursor (c : build_state * option string) :
  cursor_ok rnd c → normal_parent c.2 = c.2.
Proof.
  unfold normal_parent.
  intros [->|(i & _ & ->)]; [done|]. by rewrite id_truthy_gen.
Qed.

(** The nodes, read as keys, are the keys met so far in first-met order,
    and every key met resolved to the node that bears it. *)
Definition keys_ok (occ : list occurrence) (st : build_state) : Prop :=
  node_key <$> cores st = first_occurrences occ.*1 ∧
  ∀ κ x, (κ, x) ∈ occ →
    ∃ i n, cores st !! i = Some n ∧ node_key n = κ ∧ x = gen i.

End Occurrences.

Section Keys.

Variable rnd : nat → N.
Local Abbreviation gen := (generateObjectId rnd).

Lemma node_key_new_node (row : Row) (l v : string) (prev : option string)
    (nodeId : string) :
  l ∈ hierarchyLevels → v ≠ "" →
  node_key (new_node row l v prev nodeId) = (Some l, v, normal_parent prev).
Proof.
  intros Hl Hv. unfold node_key.
  by rewrite (node_level_new_node rnd), parent_of_new_node.
Qed.

(** A key found in [idMap] is the key of the node it resolves to. *)
Lemma found_node_key (rows : list Row) (row : Row) (pre : list string)
    (l : string) (st : build_state) (prev : option string) (v x : string) :
  level_inv rnd rows row pre (st, prev) →
  l ∈ hierarchyLevels → cell_title row l = Some v →
  unmentioned rnd (rows ++ [row]) (drawn st) →
  idMap st !! compositeKey l v prev = Some x →
  ∃ i n, cores st !! i = Some n ∧ x = gen i ∧
         node_key n = (Some l, v, normal_parent prev).
Proof.
  intros (Hb & Hprov & Hcur) Hl Hv Hun Hk.
  pose proof (cursor_level_ok _ _ _ _ Hcur) as Hok.
  destruct (bi_idMap_sound _ _ Hb _ _ Hk)
    as (i & n & l0 & Hn & -> & Hl0 & Hkey).
  exists i, n. split; [done|]. split; [done|].
  destruct (bi_level _ _ Hb _ _ Hn) as (_ & l1 & Hl1 & Hl1').
  assert (l1 = l0) as -> by congruence.
  destruct (Hprov _ _ Hn) as (r & Hr & pre' & l2 & post' & _ & Hl2 & Ht & _).
  assert (l2 = l0) as -> by congruence.
  pose proof (bi_drawn _ _ Hb) as Hd.
  pose proof (lookup_lt_Some _ _ _ Hn) as Hi. rewrite cores_length in Hi.
  pose proof (normal_parent_cursor rnd (st, prev) Hok) as Hnp.
  cbn [snd] in Hnp. rewrite Hnp. cbn [fst snd] in *.
  apply (compositeKey_inj rnd) in Hkey as (-> & -> & ->); try done.
  - unfold node_key. by rewrite Hl0.
  - destruct Hok as [Hp|(a & Ha & Hp)]; [by left|]. cbn [fst snd] in Hp, Ha.
    right. exists a. split; [done|]. intros w.
    apply (Hun r l0 (title n) a w); [done|done|done|lia].
  - destruct (parent_of_cases rnd _ _ _ Hb Hn) as [E|(b & Hlt & E)];
      [by left|].
    right. exists b. split; [done|]. intros w.
    apply (Hun row l v b w);
      [apply elem_of_app; right; constructor|done|done|lia].
Qed.

Lemma keys_level_step (rows : list Row) (row : Row) (pre : list string)
    (l : string) (post : list string) (c c' : build_state * option string)
    (occ : list occurrence) :
  hierarchyLevels = pre ++ l :: post →
  level_inv rnd rows row pre c →
  level_step rnd row c l = Some c' →
  unmentioned rnd (rows ++ [row]) (drawn c.1) →
  keys_ok rnd occ c.1 →
  keys_ok rnd (occ ++ level_occurrence rnd row c l) c'.1.
Proof.
  intros Hlv Hinv Hstep Hun [Hkeys Hres].
  assert (Hl : l ∈ hierarchyLevels).
  { rewrite Hlv. apply elem_of_app. right. constructor. }
  unfold level_occurrence. rewrite Hstep.
  destruct (level_step_cases rnd _ _ _ _ Hstep)
    as [(Hnone & _ & ->)|(raw & Hget & Htitle & Hne & ->)].
  { rewrite Hnone, app_nil_r. by split. }
  rewrite Htitle. destruct c as [st prev].
  destruct (visit rnd row l raw (st, prev)) as [st' prev'] eqn:Hv.
  cbn [fst snd] in *.
  set (κ := (Some l, trim raw, normal_parent prev)).
  destruct (visit_cases rnd _ _ _ _ _ _ _ Hv)
    as [(x & Hk & -> & ->)|(Hk & -> & ->)].
  - (* the key is known: nothing new *)
    destruct (found_node_key _ _ _ _ _ _ _ _ Hinv Hl Htitle Hun Hk)
      as (i & n & Hn & -> & Hnk).
    split.
    + rewrite fmap_app, list_fmap_singleton, first_occurrences_snoc.
      cbn [fst]. rewrite decide_True; [done|].
      rewrite <-Hkeys. apply list_elem_of_fmap. exists n. split; [done|].
      apply list_elem_of_lookup. eauto.
    + intros κ' x' [Hin|Hin%list_elem_of_singleton]%elem_of_app.
      * by apply Hres.
      * injection Hin as -> ->. exists i, n. done.
  - (* a node is created: its key is new *)
    destruct Hinv as (Hb & Hprov & Hcur). cbn [fst snd] in Hb, Hprov.
    pose proof (create_cores rnd row l (trim raw) prev
                  (compositeKey l (trim raw) prev) st) as Hcs.
    fold (cores st) in Hcs.
    set (st' := create rnd row l (trim raw) prev _ st) in *.
    fold (cores st') in Hcs.
    assert (Hnk : node_key (new_node row l (trim raw) prev (gen (drawn st))) = κ)
      by (by apply node_key_new_node).
    split.
    + rewrite Hcs, !fmap_app, !list_fmap_singleton, first_occurrences_snoc.
      cbn [fst]. rewrite decide_False; [by rewrite Hkeys, Hnk|].
      rewrite <-Hkeys.
      intros (n & Hκ & [i Hn]%list_elem_of_lookup)%list_elem_of_fmap.
      destruct (bi_level _ _ Hb _ _ Hn) as (_ & l1 & _ & Hl1).
      unfold κ, node_key in Hκ. injection Hκ as Hκ1 Hκ2 Hκ3.
      rewrite <-Hκ1 in Hl1. injection Hl1 as <-.
      pose proof (bi_idMap_complete _ _ Hb _ _ _ Hn (eq_sym Hκ1)) as Hc.
      rewrite <-Hκ2, <-Hκ3 in Hc. unfold normal_parent in Hc.
      rewrite compositeKey_normal in Hc. congruence.
    + intros κ' x' [Hin|Hin%list_elem_of_singleton]%elem_of_app.
      * destruct (Hres _ _ Hin) as (i & n & Hn & ? & ?).
        exists i, n. split; [|done]. rewrite Hcs. by apply lookup_app_l_Some.
      * injection Hin as -> ->.
        exists (length (cores st)), (new_node row l (trim raw) prev (gen (drawn st))).
        split; [rewrite Hcs; apply lookup_snoc_Some; by right|].
        split; [done|]. cbn [default from_option id].
        by rewrite cores_length, (bi_drawn _ _ Hb).
Qed.

End Keys.

(** ** The invariant of the whole run *)

Section Run.

Variable rnd : nat → N.
Local Abbreviation gen := (generateObjectId rnd).

Lemma unmentioned_le (rows : list Row) (k k' : nat) :
  k ≤ k' → unmentioned rnd rows k' → unmentioned rnd rows k.
Proof. intros Hle H r l t i v Hr Hl Ht Hi. apply (H r l); try done. lia. Qed.

(** Inside row [row], started in state [st0] after the rows [rows], with
    the levels [pre] done. *)
Definition full_level_inv (rows : list Row) (st0 : build_state) (row : Row)
    (pre : list string) (c : build_state * option string) : Prop :=
  forEach (level_step rnd row) pre (st0, None) = Some c ∧
  level_inv rnd rows row pre c ∧
  children_inv rnd c.1 ∧
  (unmentioned rnd (rows ++ [row]) (drawn c.1) →
   keys_ok rnd
     (occurrences rnd rows ++ levels_occurrences rnd row pre (st0, None)) c.1).

(** Between rows, the rows [rows] done. *)
Definition full_row_inv (rows : list Row) (st : build_state) : Prop :=
  forEach (process_row rnd) rows initial_state = Some st ∧
  row_inv rnd rows st ∧
  children_inv rnd st ∧
  (unmentioned rnd rows (drawn st) → keys_ok rnd (occurrences rnd rows) st).

Lemma full_level_inv_step (rows : list Row) (st0 : build_state) (row : Row)
    (pre : list string) (l : string) (post : list string)
    (c c' : build_state * option string) :
  hierarchyLevels = pre ++ l :: post →
  full_level_inv rows st0 row pre c →
  level_step rnd row c l = Some c' →
  full_level_inv rows st0 row (pre ++ [l]) c'.
Proof.
  intros Hlv (Hreach & Hinv & Hch & Hkeys) Hstep.
  split; [|split; [|split]].
  - rewrite forEach_app, Hreach. simpl. by rewrite Hstep.
  - by apply (level_inv_step _ _ _ _ _ post c).
  - by apply (children_inv_level_step _ rows row pre l c).
  - intros Hun.
    rewrite (levels_occurrences_app _ _ _ _ _ _ Hreach). simpl.
    rewrite Hstep, app_nil_r, app_assoc.
    pose proof (level_step_drawn _ _ _ _ _ Hstep) as Hmono.
    apply (keys_level_step rnd rows row pre l post c c'); try done.
    + eapply unmentioned_le; [exact Hmono|done].
    + apply Hkeys. eapply unmentioned_le; [exact Hmono|done].
Qed.

Lemma full_row_inv_step (rows : list Row) (row : Row) (st st' : build_state) :
  full_row_inv rows st → process_row rnd st row = Some st' →
  full_row_inv (rows ++ [row]) st'.
Proof.
  intros (Hreach & [Hb Hprov] & Hch & Hkeys) Hrow.
  pose proof Hrow as Hrow'. unfold process_row in Hrow'.
  destruct (forEach (level_step rnd row) hierarchyLevels (st, None))
    as [c'|] eqn:Hrun; [|done].
  injection Hrow' as <-.
  assert (Hfull : full_level_inv rows st row hierarchyLevels c').
  { revert Hrun.
    apply (forEach_invariant (level_step rnd row)
             (full_level_inv rows st row)).
    - intros done l post c c1 Hlv. by apply (full_level_inv_step _ _ _ _ _ post).
    - split; [done|]. split; [|split; [done|]].
      + split; [done|]. split; [by apply provenance_mono|done].
      + intros Hun. simpl. rewrite app_nil_r. apply Hkeys.
        by apply (unmentioned_mono rnd rows [row] _ (drawn st)). }
  destruct Hfull as (_ & (Hb' & Hprov' & _) & Hch' & Hkeys').
  split; [|split; [by split|split; [done|]]].
  - rewrite forEach_app, Hreach. simpl. by rewrite Hrow.
  - intros Hun. unfold occurrences.
    rewrite (occurrences_from_app _ _ _ _ _ Hreach). simpl.
    rewrite Hrow, app_nil_r. by apply Hkeys'.
Qed.

Lemma full_row_inv_run (rows : list Row) (st : build_state) :
  forEach (process_row rnd) rows initial_state = Some st →
  full_row_inv rows st.
Proof.
  apply (forEach_invariant (process_row rnd) full_row_inv).
  - intros done row _ s s' _. apply full_row_inv_step.
  - split; [done|]. split; [|split].
    + split; [apply basic_inv_initial|]. by intros j n.
    + by intros _ i n.
    + intros _. split; [done|]. by intros κ x Hin%elem_of_nil.
Qed.

(** The output is the node store of the final state. *)
Lemma run_final (rows : list Row) (out : list node) :
  processExcelToTreeJSON rnd rows = Some out →
  ∃ st, outputNodes st = out ∧ full_row_inv rows st.
Proof.
  unfold processExcelToTreeJSON.
  destruct (forEach (process_row rnd) rows initial_state) as [st|] eqn:E;
    [|done].
  intros [= <-]. exists st. split; [done|]. by apply full_row_inv_run.
Qed.

End Run.

(** ** The keys as the code forms them *)

(** The string under which a node is registered in [idMap], and the string
    the callback forms when it meets a key. *)
Definition registered_key (n : node) : string :=
  compositeKey (default "" (node_level n)) (title n) (parent_of n).

Definition occurrence_key (o : occurrence) : string :=
  compositeKey (default "" o.1.1.1) o.1.1.2 o.1.2.

Definition occurrence_title (o : occurrence) : string := o.1.1.2.

Section Registered.

Variable rnd : nat → N.
Local Abbreviation gen := (generateObjectId rnd).

(** With one title, the level and the parent can be read back from the
    composite key. *)
Lemma compositeKey_same_title (l1 l2 v : string) (p1 p2 : option string) :
  l1 ∈ hierarchyLevels → l2 ∈ hierarchyLevels →
  (p1 = None ∨ ∃ a, p1 = Some (gen a)) →
  (p2 = None ∨ ∃ b, p2 = Some (gen b)) →
  compositeKey l1 v p1 = compositeKey l2 v p2 → l1 = l2 ∧ p1 = p2.
Proof.
  intros Hl1 Hl2 H1 H2. unfold compositeKey.
  destruct H1 as [->|(a & ->)]; destruct H2 as [->|(b & ->)];
    rewrite ?id_truthy_gen; cbn [id_truthy default from_option id];
    intros Heq;
    destruct (level_prefix_inj _ _ _ _ Hl1 Hl2 Heq) as [-> Hr].
  - done.
  - apply (f_equal String.length) in Hr.
    rewrite !string_app_length, generateObjectId_length in Hr.
    simpl in Hr. lia.
  - apply (f_equal String.length) in Hr.
    rewrite !string_app_length, generateObjectId_length in Hr.
    simpl in Hr. lia.
  - apply (String.app_inj v), (String.app_inj ":") in Hr. by rewrite Hr.
Qed.

(** The nodes, read as registered keys, are the key strings met so far in
    first-met order; every key met is registered in [idMap] with the id it
    resolved to, names a level, and has no parent or a drawn id as
    parent. *)
Definition registered (occ : list occurrence) (st : build_state) : Prop :=
  registered_key <$> cores st = first_occurrences (occurrence_key <$> occ) ∧
  ∀ o, o ∈ occ →
    idMap st !! occurrence_key o = Some o.2 ∧
    (∃ l, o.1.1.1 = Some l ∧ l ∈ hierarchyLevels) ∧
    (o.1.2 = None ∨ ∃ a, a < drawn st ∧ o.1.2 = Some (gen a)).

Lemma registered_key_node (n : node) (l : string) :
  node_level n = Some l →
  registered_key n = compositeKey l (title n) (parent_of n).
Proof. unfold registered_key. by intros ->. Qed.

Lemma registered_level_step (rows : list Row) (row : Row) (pre : list string)
    (l : string) (post : list string) (c c' : build_state * option string)
    (occ : list occurrence) :
  hierarchyLevels = pre ++ l :: post →
  level_inv rnd rows row pre c →
  level_step rnd row c l = Some c' →
  registered occ c.1 →
  registered (occ ++ level_occurrence rnd row c l) c'.1.
Proof.
  intros Hlv (Hb & _ & Hcur) Hstep [Hkeys Hreg].
  pose proof (cursor_level_ok _ _ _ _ Hcur) as Hok.
  assert (Hl : l ∈ hierarchyLevels).
  { rewrite Hlv. apply elem_of_app. right. constructor. }
  unfold level_occurrence. rewrite Hstep.
  destruct (level_step_cases rnd _ _ _ _ Hstep)
    as [(Hnone & _ & ->)|(raw & Hget & Htitle & Hne & ->)].
  { rewrite Hnone, app_nil_r. by split. }
  rewrite Htitle. destruct c as [st prev].
  destruct (visit rnd row l raw (st, prev)) as [st' prev'] eqn:Hv.
  cbn [fst snd] in *.
  pose proof (bi_drawn _ _ Hb) as Hd.
  assert (Hokey : ∀ x, occurrence_key
                         ((Some l, trim raw, normal_parent prev), x) =
                       compositeKey l (trim raw) prev).
  { intros x. unfold occurrence_key, normal_parent. cbn [fst snd].
    apply compositeKey_normal. }
  assert (Hpar : normal_parent prev = None ∨
                 ∃ a, a < drawn st ∧ normal_parent prev = Some (gen a)).
  { pose proof (normal_parent_cursor rnd (st, prev) Hok) as Hnp.
    cbn [snd] in Hnp. rewrite Hnp.
    destruct Hok as [Hp|(a & Ha & Hp)]; cbn [fst snd] in *; [by left|].
    right. exists a. split; [lia|done]. }
  destruct (visit_cases rnd _ _ _ _ _ _ _ Hv)
    as [(x & Hk & -> & ->)|(Hk & -> & ->)].
  - (* the key is known *)
    destruct (bi_idMap_sound _ _ Hb _ _ Hk)
      as (i & n & l0 & Hn & -> & Hl0 & Hkey).
    split.
    + rewrite fmap_app, list_fmap_singleton, first_occurrences_snoc, Hokey.
      rewrite decide_True; [done|].
      rewrite <-Hkeys. apply list_elem_of_fmap. exists n. split.
      * by rewrite (registered_key_node n l0).
      * by eapply list_elem_of_lookup_2.
    + intros o [Hin|Hin%list_elem_of_singleton]%elem_of_app.
      * by apply Hreg.
      * subst o. rewrite Hokey. cbn [fst snd default from_option id].
        split; [done|]. split; [by exists l|done].
  - (* a node is created *)
    pose proof (create_cores rnd row l (trim raw) prev
                  (compositeKey l (trim raw) prev) st) as Hcs.
    fold (cores st) in Hcs.
    set (st' := create rnd row l (trim raw) prev _ st) in *.
    fold (cores st') in Hcs.
    set (new := new_node row l (trim raw) prev (gen (drawn st))) in *.
    assert (Hnew : registered_key new = compositeKey l (trim raw) prev).
    { rewrite (registered_key_node new l)
        by (by apply (node_level_new_node rnd)).
      unfold new. rewrite parent_of_new_node. apply compositeKey_normal. }
    split.
    + rewrite Hcs, !fmap_app, !list_fmap_singleton, first_occurrences_snoc.
      rewrite Hokey, decide_False; [by rewrite Hkeys, Hnew|].
      rewrite <-Hkeys.
      intros (n & Hκ & [i Hn]%list_elem_of_lookup)%list_elem_of_fmap.
      destruct (bi_level _ _ Hb _ _ Hn) as (_ & l1 & _ & Hl1).
      pose proof (bi_idMap_complete _ _ Hb _ _ _ Hn Hl1) as Hc.
      rewrite <-(registered_key_node n l1 Hl1), <-Hκ in Hc. congruence.
    + intros o [Hin|Hin%list_elem_of_singleton]%elem_of_app.
      * destruct (Hreg _ Hin) as (Hid & Hlo & Hpo).
        split; [|split; [done|]].
        -- unfold st', create. cbn [idMap].
           rewrite lookup_insert_ne; [done|]. intros E. congruence.
        -- destruct Hpo as [?|(a & Ha & ?)]; [by left|].
           right. exists a. split; [|done]. unfold st', create.
           cbn [drawn]. lia.
      * subst o. rewrite Hokey. cbn [fst snd default from_option id].
        split; [|split; [by exists l|]].
        -- unfold st', create. cbn [idMap]. by rewrite lookup_insert_eq.
        -- destruct Hpar as [?|(a & Ha & ?)]; [by left|].
           right. exists a. split; [|done]. unfold st', create.
           cbn [drawn]. lia.
Qed.

Definition registered_level_inv (rows : list Row) (st0 : build_state)
    (row : Row) (pre : list string) (c : build_state * option string) : Prop :=
  full_level_inv rnd rows st0 row pre c ∧
  registered
    (occurrences rnd rows ++ levels_occurrences rnd row pre (st0, None)) c.1.

Definition registered_row_inv (rows : list Row) (st : build_state) : Prop :=
  full_row_inv rnd rows st ∧ registered (occurrences rnd rows) st.

Lemma registered_row_step (rows : list Row) (row : Row) (st st' : build_state) :
  registered_row_inv rows st → process_row rnd st row = Some st' →
  registered_row_inv (rows ++ [row]) st'.
Proof.
  intros [Hfull Hreg] Hrow.
  split; [by apply (full_row_inv_step rnd rows row st)|].
  pose proof Hfull as (Hreach & [Hb Hprov] & Hch & Hkeys).
  pose proof Hrow as Hrow'. unfold process_row in Hrow'.
  destruct (forEach (level_step rnd row) hierarchyLevels (st, None))
    as [c'|] eqn:Hrun; [|done].
  injection Hrow' as <-.
  assert (Hlevels : registered_level_inv rows st row hierarchyLevels c').
  { revert Hrun.
    apply (forEach_invariant (level_step rnd row)
             (registered_level_inv rows st row)).
    - intros done l post c c1 Hlv [Hf Hr] Hstep.
      split; [by apply (full_level_inv_step _ _ _ _ _ _ post c)|].
      destruct Hf as (Hre & Hinv & _).
      rewrite (levels_occurrences_app _ _ _ _ _ _ Hre). simpl.
      rewrite Hstep, app_nil_r, app_assoc.
      by apply (registered_level_step rows row done l post c c1).
    - split.
      + split; [done|]. split; [|split; [done|]].
        * split; [done|]. split; [by apply provenance_mono|done].
        * intros Hun. simpl. rewrite app_nil_r. apply Hkeys.
          by apply (unmentioned_mono rnd rows [row] _ (drawn st)).
      + simpl. by rewrite app_nil_r. }
  destruct Hlevels as [_ Hr]. unfold occurrences.
  rewrite (occurrences_from_app _ _ _ _ _ Hreach). simpl.
  by rewrite Hrow, app_nil_r.
Qed.

Lemma registered_run (rows : list Row) (st : build_state) :
  forEach (process_row rnd) rows initial_state = Some st →
  registered (occurrences rnd rows) st.
Proof.
  intros Hrun. cut (registered_row_inv rows st); [by intros [_ ?]|].
  revert Hrun.
  apply (forEach_invariant (process_row rnd) registered_row_inv).
  - intros done row _ s s' _. apply registered_row_step.
  - split; [by apply full_row_inv_run|].
    split; [done|]. by intros o Hin%elem_of_nil.
Qed.

End Registered.

(** ** Two runs on the same rows *)

Lemma node_level_levelFields (n1 n2 : node) :
  levelFields n1 = levelFields n2 → node_level n1 = node_level n2.
Proof. unfold node_level. by intros ->. Qed.

Section Simulation.

Variables rnd1 rnd2 : nat → N.
Local Abbreviation gen1 := (generateObjectId rnd1).
Local Abbreviation gen2 := (generateObjectId rnd2).

(** Two nodes that differ in their ids only: the [k]-th id of one run
    stands where the [k]-th id of the other stands. *)
Definition sim_core (j : nat) (n1 n2 : node) : Prop :=
  title n1 = title n2 ∧
  levelFields n1 = levelFields n2 ∧
  metadata n1 = metadata n2 ∧
  ((_parent n1 = "" ∧ _parent n2 = "") ∨
   ∃ b, b < j ∧ _parent n1 = gen1 b ∧ _parent n2 = gen2 b).

Definition sim_cores (cs1 cs2 : list node) : Prop :=
  length cs1 = length cs2 ∧
  ∀ j n1 n2, cs1 !! j = Some n1 → cs2 !! j = Some n2 → sim_core j n1 n2.

Definition sim_cursor (k : nat) (p1 p2 : option string) : Prop :=
  (p1 = None ∧ p2 = None) ∨
  ∃ a, a < k ∧ p1 = Some (gen1 a) ∧ p2 = Some (gen2 a).

(** A key the first run knows is known to the second run, and resolves
    to the node at the same position. *)
Lemma sim_found (rows : list Row) (row : Row) (pre : list string)
    (l v x : string) (st1 st2 : build_state) (prev1 prev2 : option string) :
  level_inv rnd1 rows row pre (st1, prev1) →
  level_inv rnd2 rows row pre (st2, prev2) →
  fresh_upto rnd1 (drawn st1) →
  unmentioned rnd1 (rows ++ [row]) (drawn st1) →
  sim_cores (cores st1) (cores st2) →
  sim_cursor (length (cores st1)) prev1 prev2 →
  l ∈ hierarchyLevels → cell_title row l = Some v →
  idMap st1 !! compositeKey l v prev1 = Some x →
  ∃ i, i < length (cores st1) ∧ x = gen1 i ∧
       idMap st2 !! compositeKey l v prev2 = Some (gen2 i).
Proof.
  intros Hinv1 Hinv2 Hfresh Hun [Hlen Hsim] Hcur Hl Hv Hk.
  destruct (found_node_key _ _ _ _ _ _ _ _ _ Hinv1 Hl Hv Hun Hk)
    as (i & n1 & Hn1 & -> & Hnk).
  pose proof (lookup_lt_Some _ _ _ Hn1) as Hi.
  destruct (lookup_lt_is_Some_2 (cores st2) i) as [n2 Hn2]; [lia|].
  destruct (Hsim _ _ _ Hn1 Hn2) as (Ht & Hlf & _ & Hpar).
  destruct Hinv1 as (Hb1 & _ & _). destruct Hinv2 as (Hb2 & _ & _).
  cbn [fst] in Hb1, Hb2.
  pose proof (bi_drawn _ _ Hb1) as Hd1. rewrite <-cores_length in Hd1.
  unfold node_key in Hnk. injection Hnk as Hlv Htitle Hparent.
  exists i. split; [done|]. split; [done|].
  assert (Hp2 : parent_of n2 = normal_parent prev2).
  { unfold parent_of in *.
    destruct Hcur as [[-> ->]|(a & Ha & -> & ->)]; unfold normal_parent in *.
    - cbn [id_truthy] in *.
      destruct Hpar as [[E1 E2]|(b & Hb & E1 & E2)].
      + by rewrite E2, bool_decide_eq_true_2.
      + rewrite E1, bool_decide_eq_false_2 in Hparent
          by apply generateObjectId_nonempty. done.
    - rewrite id_truthy_gen in *.
      destruct Hpar as [[E1 E2]|(b & Hb & E1 & E2)].
      + by rewrite E1, bool_decide_eq_true_2 in Hparent.
      + rewrite E1, bool_decide_eq_false_2 in Hparent
          by apply generateObjectId_nonempty.
        assert (Hab : gen1 a = gen1 b) by congruence.
        apply Hfresh in Hab; [|lia|lia]. subst b. rewrite E2, bool_decide_eq_false_2
          by apply generateObjectId_nonempty. done. }
  rewrite (node_level_levelFields _ _ Hlf) in Hlv.
  pose proof (bi_idMap_complete _ _ Hb2 _ _ _ Hn2 Hlv) as Hc.
  rewrite <-Ht, Htitle, Hp2 in Hc. unfold normal_parent in Hc.
  by rewrite compositeKey_normal in Hc.
Qed.

Lemma sim_core_new_node (row : Row) (l v : string)
    (prev1 prev2 : option string) (k : nat) :
  sim_cursor k prev1 prev2 →
  sim_core k (new_node row l v prev1 (gen1 k)) (new_node row l v prev2 (gen2 k)).
Proof.
  intros Hcur. split; [done|]. split; [done|]. split; [done|].
  cbn [_parent new_node]. unfold id_or_empty.
  destruct Hcur as [[-> ->]|(a & Ha & -> & ->)].
  - by left.
  - right. exists a. by rewrite !id_truthy_gen.
Qed.

Lemma sim_cores_snoc (cs1 cs2 : list node) (n1 n2 : node) :
  sim_cores cs1 cs2 → sim_core (length cs1) n1 n2 →
  sim_cores (cs1 ++ [n1]) (cs2 ++ [n2]).
Proof.
  intros [Hlen Hsim] Hnew. split.
  - rewrite !length_app. simpl. lia.
  - intros j m1 m2 [[_ H1]|[-> <-]]%lookup_snoc_Some
      [[Hlt H2]|[Hj <-]]%lookup_snoc_Some.
    + by eapply Hsim.
    + apply lookup_lt_Some in H1. lia.
    + lia.
    + done.
Qed.

End Simulation.

Lemma sim_core_sym (rnd1 rnd2 : nat → N) (j : nat) (n1 n2 : node) :
  sim_core rnd1 rnd2 j n1 n2 → sim_core rnd2 rnd1 j n2 n1.
Proof.
  intros (? & ? & ? & [[? ?]|(b & ? & ? & ?)]); repeat split; try done.
  - by left.
  - right. by exists b.
Qed.

Lemma sim_cores_sym (rnd1 rnd2 : nat → N) (cs1 cs2 : list node) :
  sim_cores rnd1 rnd2 cs1 cs2 → sim_cores rnd2 rnd1 cs2 cs1.
Proof.
  intros [Hlen Hsim]. split; [done|].
  intros j n2 n1 H2 H1. apply sim_core_sym. by apply Hsim.
Qed.

Lemma sim_cursor_sym (rnd1 rnd2 : nat → N) (k : nat) (p1 p2 : option string) :
  sim_cursor rnd1 rnd2 k p1 p2 → sim_cursor rnd2 rnd1 k p2 p1.
Proof.
  intros [[? ?]|(a & ? & ? & ?)]; [by left|]. right. by exists a.
Qed.

Section SimulationRun.

Variables rnd1 rnd2 : nat → N.
Local Abbreviation gen1 := (generateObjectId rnd1).
Local Abbreviation gen2 := (generateObjectId rnd2).

(** What both runs need of their ids: the first [k1] (resp. [k2]) are
    distinct and no title of [rows] ends with one of them. *)
Definition sim_hyps (rows : list Row) (k1 k2 : nat) : Prop :=
  fresh_upto rnd1 k1 ∧ fresh_upto rnd2 k2 ∧
  unmentioned rnd1 rows k1 ∧ unmentioned rnd2 rows k2.

Lemma sim_hyps_mono (rows rows' : list Row) (k1 k1' k2 k2' : nat) :
  k1 ≤ k1' → k2 ≤ k2' →
  sim_hyps (rows ++ rows') k1' k2' → sim_hyps rows k1 k2.
Proof.
  intros H1 H2 (F1 & F2 & U1 & U2). split; [|split; [|split]].
  - by eapply fresh_upto_mono.
  - by eapply fresh_upto_mono.
  - by eapply unmentioned_mono.
  - by eapply unmentioned_mono.
Qed.

Lemma sim_hyps_le (rows : list Row) (k1 k1' k2 k2' : nat) :
  k1 ≤ k1' → k2 ≤ k2' → sim_hyps rows k1' k2' → sim_hyps rows k1 k2.
Proof.
  intros H1 H2 H. apply (sim_hyps_mono rows [] k1 k1' k2 k2' H1 H2).
  by rewrite app_nil_r.
Qed.

Definition sim_level_inv (rows : list Row) (row : Row) (pre : list string)
    (c1 c2 : build_state * option string) : Prop :=
  level_inv rnd1 rows row pre c1 ∧
  level_inv rnd2 rows row pre c2 ∧
  (sim_hyps (rows ++ [row]) (drawn c1.1) (drawn c2.1) →
   sim_cores rnd1 rnd2 (cores c1.1) (cores c2.1) ∧
   sim_cursor rnd1 rnd2 (length (cores c1.1)) c1.2 c2.2).

Lemma sim_level_step (rows : list Row) (row : Row) (pre : list string)
    (l : string) (post : list string)
    (c1 c1' c2 c2' : build_state * option string) :
  hierarchyLevels = pre ++ l :: post →
  sim_level_inv rows row pre c1 c2 →
  level_step rnd1 row c1 l = Some c1' →
  level_step rnd2 row c2 l = Some c2' →
  sim_level_inv rows row (pre ++ [l]) c1' c2'.
Proof.
  intros Hlv (Hinv1 & Hinv2 & Hsim) Hs1 Hs2.
  assert (Hl : l ∈ hierarchyLevels).
  { rewrite Hlv. apply elem_of_app. right. constructor. }
  split; [by apply (level_inv_step _ _ _ _ _ post c1)|].
  split; [by apply (level_inv_step _ _ _ _ _ post c2)|].
  intros Hhyps'.
  pose proof (level_step_drawn _ _ _ _ _ Hs1) as Hm1.
  pose proof (level_step_drawn _ _ _ _ _ Hs2) as Hm2.
  pose proof (sim_hyps_le _ _ _ _ _ Hm1 Hm2 Hhyps') as Hhyps.
  destruct (Hsim Hhyps) as [Hcs Hcur]. clear Hsim.
  destruct Hhyps as (F1 & F2 & U1 & U2).
  destruct (level_step_cases rnd1 _ _ _ _ Hs1)
    as [(Hn1 & _ & ->)|(raw & Hg1 & Ht1 & Hne1 & ->)];
    destruct (level_step_cases rnd2 _ _ _ _ Hs2)
      as [(Hn2 & _ & ->)|(raw2 & Hg2 & Ht2 & Hne2 & ->)];
    [done|congruence|congruence|].
  assert (raw2 = raw) as -> by congruence.
  destruct c1 as [st1 prev1]. destruct c2 as [st2 prev2].
  destruct (visit rnd1 row l raw (st1, prev1)) as [st1' prev1'] eqn:Hv1.
  destruct (visit rnd2 row l raw (st2, prev2)) as [st2' prev2'] eqn:Hv2.
  cbn [fst snd] in *.
  pose proof Hinv1 as (Hb1 & _ & _). pose proof Hinv2 as (Hb2 & _ & _).
  cbn [fst] in Hb1, Hb2.
  pose proof (bi_drawn _ _ Hb1) as Hd1. rewrite <-cores_length in Hd1.
  pose proof (bi_drawn _ _ Hb2) as Hd2. rewrite <-cores_length in Hd2.
  pose proof Hcs as [Hlen _].
  destruct (visit_cases rnd1 _ _ _ _ _ _ _ Hv1)
    as [(x1 & Hk1 & -> & ->)|(Hk1 & -> & ->)];
    destruct (visit_cases rnd2 _ _ _ _ _ _ _ Hv2)
      as [(x2 & Hk2 & -> & ->)|(Hk2 & -> & ->)].
  - (* known to both *)
    destruct (sim_found rnd1 rnd2 _ _ _ _ _ _ _ _ _ _
                Hinv1 Hinv2 F1 U1 Hcs Hcur Hl Ht1 Hk1)
      as (i & Hi & -> & Hk2').
    split; [done|]. right. exists i. split; [done|]. split; [done|].
    congruence.
  - (* known to the first run only: impossible *)
    destruct (sim_found rnd1 rnd2 _ _ _ _ _ _ _ _ _ _
                Hinv1 Hinv2 F1 U1 Hcs Hcur Hl Ht1 Hk1)
      as (i & _ & _ & Hk2'). congruence.
  - (* known to the second run only: impossible *)
    apply sim_cores_sym in Hcs. apply sim_cursor_sym in Hcur.
    rewrite Hlen in Hcur.
    destruct (sim_found rnd2 rnd1 _ _ _ _ _ _ _ _ _ _
                Hinv2 Hinv1 F2 U2 Hcs Hcur Hl Ht1 Hk2)
      as (i & _ & _ & Hk1'). congruence.
  - (* new to both *)
    unfold cores. rewrite !create_cores. fold (cores st1) (cores st2).
    rewrite Hd1, Hd2, <-Hlen. split.
    + apply sim_cores_snoc; [done|]. by apply sim_core_new_node.
    + right. exists (length (cores st1)).
      split; [rewrite length_app; simpl; lia|done].
Qed.

Definition sim_row_inv (rows : list Row) (st1 st2 : build_state) : Prop :=
  row_inv rnd1 rows st1 ∧ row_inv rnd2 rows st2 ∧
  (sim_hyps rows (drawn st1) (drawn st2) →
   sim_cores rnd1 rnd2 (cores st1) (cores st2)).

Lemma sim_row_step (rows : list Row) (row : Row)
    (st1 st1' st2 st2' : build_state) :
  sim_row_inv rows st1 st2 →
  process_row rnd1 st1 row = Some st1' →
  process_row rnd2 st2 row = Some st2' →
  sim_row_inv (rows ++ [row]) st1' st2'.
Proof.
  intros ([Hb1 Hp1] & [Hb2 Hp2] & Hsim) Hr1 Hr2.
  split; [by apply (row_inv_step rnd1 rows row st1)|].
  split; [by apply (row_inv_step rnd2 rows row st2)|].
  unfold process_row in Hr1, Hr2.
  destruct (forEach (level_step rnd1 row) hierarchyLevels (st1, None))
    as [c1'|] eqn:Hrun1; [|done].
  destruct (forEach (level_step rnd2 row) hierarchyLevels (st2, None))
    as [c2'|] eqn:Hrun2; [|done].
  injection Hr1 as <-. injection Hr2 as <-.
  cut (sim_level_inv rows row hierarchyLevels c1' c2').
  { intros (_ & _ & H) Hhyps. by destruct (H Hhyps). }
  revert Hrun1 Hrun2.
  apply (forEach_invariant2 (level_step rnd1 row) (level_step rnd2 row)
           (sim_level_inv rows row)).
  - intros done l post d1 d1' d2 d2' Hlv.
    by apply (sim_level_step _ _ _ _ post).
  - split; [|split].
    + split; [done|]. split; [by apply provenance_mono|done].
    + split; [done|]. split; [by apply provenance_mono|done].
    + cbn [fst snd]. intros Hhyps. split; [|by left].
      apply Hsim. by apply (sim_hyps_mono rows [row] _ (drawn st1) _ (drawn st2)).
Qed.

Lemma sim_run (rows : list Row) (st1 st2 : build_state) :
  forEach (process_row rnd1) rows initial_state = Some st1 →
  forEach (process_row rnd2) rows initial_state = Some st2 →
  sim_row_inv rows st1 st2.
Proof.
  apply (forEach_invariant2 (process_row rnd1) (process_row rnd2) sim_row_inv).
  - intros done row _ s1 s1' s2 s2' _. apply sim_row_step.
  - split; [|split].
    + split; [apply basic_inv_initial|]. by intros j n.
    + split; [apply basic_inv_initial|]. by intros j n.
    + intros _. split; [done|]. by intros j n1 n2.
Qed.

End SimulationRun.

(** ** From the invariant to the output *)

Lemma level_rank_split (pre : list string) (l : string) (post : list string) :
  hierarchyLevels = pre ++ l :: post → level_rank l = S (length pre).
Proof.
  intros Hlv. unfold level_rank.
  assert (Hl : hierarchyLevels !! length pre = Some l).
  { rewrite Hlv. by apply list_lookup_middle. }
  rewrite (proj2 (list_find_Some (λ l0, l0 = l) hierarchyLevels (length pre) l));
    [done|].
  split; [done|]. split; [done|].
  intros j y Hj Hlt ->.
  pose proof (NoDup_lookup _ _ _ _ NoDup_hierarchyLevels Hj Hl). lia.
Qed.

Lemma level_rank_below (pre : list string) (l : string) (post : list string)
    (l' : string) :
  hierarchyLevels = pre ++ l :: post → l' ∈ pre →
  1 ≤ level_rank l' ≤ length pre.
Proof.
  intros Hlv (p1 & p2 & ->)%list_elem_of_split.
  rewrite <-app_assoc in Hlv. simpl in Hlv.
  rewrite (level_rank_split _ _ _ Hlv), length_app. simpl. lia.
Qed.

Lemma last_populated_Some (row : Row) (pre : list string) (l' : string) :
  last_populated row pre = Some l' → l' ∈ pre ∧ is_Some (cell_title row l').
Proof.
  unfold last_populated. intros (f & Hf)%last_Some.
  assert (Hin : l' ∈ filter (λ l, is_Some (cell_title row l)) pre).
  { rewrite Hf. apply elem_of_app. right. constructor. }
  apply list_elem_of_filter in Hin as [? ?]. done.
Qed.

Lemma last_populated_last (row : Row) (pre : list string) (l : string) :
  last pre = Some l → is_Some (cell_title row l) →
  last_populated row pre = Some l.
Proof.
  intros (pre' & ->)%last_Some [v Hv]. by rewrite last_populated_snoc, Hv.
Qed.

Lemma cores_lookup_inv (st : build_state) (i : nat) (p : node) :
  cores st !! i = Some p → ∃ p', outputNodes st !! i = Some p' ∧ p = core p'.
Proof.
  unfold cores. rewrite list_lookup_fmap.
  destruct (outputNodes st !! i) as [p'|]; [|done].
  intros [= <-]. eauto.
Qed.

(** Every node of the output was created by a row of the input, at a level
    the row populates with the node's title, from the row's metadata, under
    the node resolved at the nearest populated level below. *)
Lemma provenance_out (rnd : nat → N) (rows : list Row) (out : list node)
    (j : nat) (n : node) :
  processExcelToTreeJSON rnd rows = Some out → out !! j = Some n →
  ∃ row pre l post,
    row ∈ rows ∧ hierarchyLevels = pre ++ l :: post ∧
    node_level n = Some l ∧ cell_title row l = Some (title n) ∧
    metadata n = row_metadata row ∧
    match last_populated row pre with
    | None => _parent n = ""
    | Some l' =>
        _parent n ≠ "" ∧
        ∃ i p, i < j ∧ out !! i = Some p ∧ _id p = _parent n ∧
               node_level p = Some l'
    end.
Proof.
  intros (st & <- & _ & [Hb Hprov] & _)%run_final Hn.
  destruct (Hprov _ _ (cores_lookup _ _ _ Hn))
    as (row & Hrow & pre & l & post & Hlv & Hl & Ht & Hm & Hlink).
  exists row, pre, l, post. repeat (split; [done|]).
  unfold parent_link in Hlink.
  destruct (last_populated row pre) as [l'|]; [|done].
  destruct Hlink as (Hne & i & p & Hi & Hp & Hid & Hpl). split; [done|].
  destruct (cores_lookup_inv _ _ _ Hp) as (p' & Hp' & ->).
  by exists i, p'.
Qed.

Lemma forEach_skip {A S : Type} (f : S → A → option S) (l : list A) (s : S) :
  (∀ x, x ∈ l → f s x = Some s) → forEach f l s = Some s.
Proof.
  induction l as [|x l IH]; intros H; simpl; [done|].
  rewrite (H x) by constructor. apply IH. intros y Hy. apply H. by constructor.
Qed.

Lemma forEach_total {A S : Type} (f : S → A → option S) (l : list A) (s : S) :
  (∀ s' x, x ∈ l → is_Some (f s' x)) → is_Some (forEach f l s).
Proof.
  revert s. induction l as [|x l IH]; intros s H; simpl; [by eexists|].
  destruct (H s x) as [s' ->]; [constructor|].
  apply IH. intros s'' y Hy. apply H. by constructor.
Qed.

(** A row of blanks, and a row whose level cells are absent or text. *)
Definition blank_row (row : Row) : Prop :=
  ∀ l, l ∈ hierarchyLevels → cell_blank row l.

Definition textual_row (row : Row) : Prop :=
  ∀ l, l ∈ hierarchyLevels → cell_text row l.

Lemma process_row_blank (rnd : nat → N) (row : Row) (st : build_state) :
  blank_row row → process_row rnd st row = Some st.
Proof.
  intros Hblank. unfold process_row.
  rewrite forEach_skip; [done|].
  intros l Hl. apply level_step_blank. by apply Hblank.
Qed.

Lemma process_row_textual (rnd : nat → N) (row : Row) (st : build_state) :
  textual_row row → is_Some (process_row rnd st row).
Proof.
  intros Htext. unfold process_row.
  destruct (forEach_total (level_step rnd row) hierarchyLevels (st, None))
    as [c' ->]; [|by eexists].
  intros c l Hl. apply level_step_text. by apply Htext.
Qed.

(** The nodes a row appends carry the row's metadata; the nodes already
    there keep everything but their child lists. *)
Lemma process_row_appends (rnd : nat → N) (row : Row) (st st' : build_state) :
  process_row rnd st row = Some st' →
  ∃ new, cores st' = cores st ++ new ∧
         Forall (λ n, metadata n = row_metadata row) new.
Proof.
  unfold process_row.
  destruct (forEach (level_step rnd row) hierarchyLevels (st, None))
    as [c'|] eqn:Hrun; [|done].
  intros [= <-]. revert Hrun.
  apply (forEach_invariant (level_step rnd row)
           (λ _ c, ∃ new, cores c.1 = cores st ++ new ∧
                          Forall (λ n, metadata n = row_metadata row) new)).
  - intros done l post c c1 _ (new & Hcs & Hnew) Hstep.
    destruct (level_step_cases rnd _ _ _ _ Hstep)
      as [(_ & _ & ->)|(raw & _ & _ & _ & ->)]; [by exists new|].
    destruct c as [s prev].
    destruct (visit rnd row l raw (s, prev)) as [s' prev'] eqn:Hv.
    destruct (visit_cases rnd _ _ _ _ _ _ _ Hv)
      as [(x & _ & -> & _)|(_ & -> & _)]; [by exists new|].
    cbn [fst] in *. unfold cores at 1. rewrite create_cores.
    fold (cores s). rewrite Hcs, <-app_assoc. eexists. split; [done|].
    apply Forall_app. split; [done|]. by constructor.
  - exists []. by rewrite app_nil_r.
Qed.

(** ** Fresh ids *)

(** [t] ends with [s]. *)
Fixpoint ends_with (s t : string) : bool :=
  bool_decide (t = s) ||
  match t with
  | "" => false
  | String _ t' => ends_with s t'
  end.

(** The titles the rows contribute: every populated level cell, trimmed. *)
Definition titles (rows : list Row) : list string :=
  rows ≫= λ r, hierarchyLevels ≫= λ l, option_list (cell_title r l).

(** The two faces of "the ids drawn in this run are fresh": they differ
    from one another, and the input does not spell them out (no title ends
    with a colon and the id of a node). *)
Definition distinct_ids (out : list node) : Prop := NoDup (_id <$> out).

Definition ids_unmentioned (rows : list Row) (out : list node) : Prop :=
  Forall (λ t, Forall (λ n, ends_with (":" +:+ _id n) t = false) out)
         (titles rows).

Lemma ends_with_app (s v : string) : ends_with s (v +:+ s) = true.
Proof.
  induction v as [|a v IH].
  - rewrite string_app_nil.
    destruct s; cbn [ends_with]; by rewrite bool_decide_eq_true_2.
  - rewrite string_app_cons. cbn [ends_with]. rewrite IH. apply orb_true_r.
Qed.

Lemma elem_of_titles (rows : list Row) (r : Row) (l t : string) :
  r ∈ rows → l ∈ hierarchyLevels → cell_title r l = Some t → t ∈ titles rows.
Proof.
  intros Hr Hl Ht. unfold titles.
  apply list_elem_of_bind. exists r. split; [|done].
  apply list_elem_of_bind. exists l. split; [|done].
  rewrite Ht. constructor.
Qed.

Section Freshness.

Variable rnd : nat → N.
Local Abbreviation gen := (generateObjectId rnd).

Lemma output_id (st : build_state) (i : nat) (n : node) :
  basic_inv rnd st → outputNodes st !! i = Some n → _id n = gen i.
Proof.
  intros Hb Hn. apply (bi_id _ _ Hb i (core n)). by apply cores_lookup.
Qed.

Lemma distinct_ids_fresh (st : build_state) :
  basic_inv rnd st → distinct_ids (outputNodes st) →
  fresh_upto rnd (drawn st).
Proof.
  intros Hb Hnd i j Hi Hj Heq. rewrite (bi_drawn _ _ Hb) in Hi, Hj.
  destruct (lookup_lt_is_Some_2 _ _ Hi) as [n Hn].
  destruct (lookup_lt_is_Some_2 _ _ Hj) as [m Hm].
  apply (NoDup_lookup _ i j (gen i) Hnd).
  - by rewrite list_lookup_fmap, Hn, <-(output_id _ _ _ Hb Hn).
  - by rewrite list_lookup_fmap, Hm, Heq, <-(output_id _ _ _ Hb Hm).
Qed.

Lemma ids_unmentioned_sound (rows : list Row) (st : build_state) :
  basic_inv rnd st → ids_unmentioned rows (outputNodes st) →
  unmentioned rnd rows (drawn st).
Proof.
  intros Hb Hun r l t i v Hr Hl Ht Hi ->. rewrite (bi_drawn _ _ Hb) in Hi.
  destruct (lookup_lt_is_Some_2 _ _ Hi) as [n Hn].
  unfold ids_unmentioned in Hun. rewrite Forall_forall in Hun.
  pose proof (Hun _ (elem_of_titles _ _ _ _ Hr Hl Ht)) as Hall.
  rewrite Forall_forall in Hall.
  pose proof (Hall n (list_elem_of_lookup_2 _ _ _ Hn)) as Hend.
  rewrite (output_id _ _ _ Hb Hn), ends_with_app in Hend. done.
Qed.

End Freshness.

Lemma children_of_core (x : string) (l : list node) :
  children_of x (core <$> l) = children_of x l.
Proof.
  unfold children_of. induction l as [|n l IH]; [done|].
  rewrite fmap_cons. destruct (decide (_parent n = x)) as [E|E].
  - rewrite !filter_cons_True by done. rewrite !fmap_cons, IH. done.
  - rewrite !filter_cons_False by done. done.
Qed.

Lemma NoDup_children_of (x : string) (out : list node) :
  distinct_ids out → NoDup (children_of x out).
Proof.
  intros Hnd. unfold children_of. eapply sublist_NoDup; [exact Hnd|].
  apply fmap_sublist, sublist_filter.
Qed.

Lemma elem_of_children_of (x y : string) (out : list node) :
  y ∈ children_of x out ↔ ∃ m, m ∈ out ∧ _id m = y ∧ _parent m = x.
Proof.
  unfold children_of. rewrite list_elem_of_fmap. split.
  - intros (m & -> & [Hp Hm]%list_elem_of_filter). by exists m.
  - intros (m & Hm & <- & Hp). exists m. split; [done|].
    by apply list_elem_of_filter.
Qed.

(** An element of a list without duplicates occurs in it exactly once. *)
Lemma NoDup_elem_of_once {A : Type} (l : list A) (x : A) :
  NoDup l → x ∈ l → ∃ l1 l2, l = l1 ++ x :: l2 ∧ (x ∉ l1) ∧ (x ∉ l2).
Proof.
  intros Hnd (l1 & l2 & ->)%list_elem_of_split. exists l1, l2.
  apply NoDup_app in Hnd as (_ & Hdisj & Hnd2).
  apply NoDup_cons in Hnd2 as [Hx _].
  split; [done|]. split; [|done].
  intros Hin. apply (Hdisj _ Hin). constructor.
Qed.

(** ** Renaming ids *)

(** A node with every id replaced through [ρ]; the empty [_parent] of a
    parentless node is no id and stays. *)
Definition rename_ids (ρ : string → string) (n : node) : node :=
  mkNode (ρ (_id n)) (title n)
    (if bool_decide (_parent n = "") then "" else ρ (_parent n))
    (ρ <$> _child n) (levelFields n)
    (ID n) (Business_Role n) (Fiori_app_UX_recommendations n)
    (Insights_Indicative n) (Business_stakeholders n) (Materiality n)
    (Description n).

(** The renaming that sends the id of the [i]-th node of [out1] to the id
    of the [i]-th node of [out2]. *)
Definition renaming (out1 out2 : list node) (x : string) : string :=
  match list_find (λ n, _id n = x) out1 with
  | Some (i, _) => default x (_id <$> out2 !! i)
  | None => x
  end.

Lemma node_eq (n m : node) :
  _id n = _id m → title n = title m → _parent n = _parent m →
  _child n = _child m → levelFields n = levelFields m →
  metadata n = metadata m → n = m.
Proof.
  destruct n, m. unfold metadata. cbn.
  intros -> -> -> -> -> [= -> -> -> -> -> -> ->]. done.
Qed.

Section Renaming.

Variables rnd1 rnd2 : nat → N.
Local Abbreviation gen1 := (generateObjectId rnd1).
Local Abbreviation gen2 := (generateObjectId rnd2).

(** Under a renaming that follows the order of drawing, the child lists
    of corresponding nodes correspond. *)
Lemma sim_children (ρ : string → string) (k i : nat) (cs1 cs2 : list node) :
  sim_cores rnd1 rnd2 cs1 cs2 →
  (∀ j n, cs1 !! j = Some n → _id n = gen1 j) →
  (∀ j n, cs2 !! j = Some n → _id n = gen2 j) →
  fresh_upto rnd1 k → fresh_upto rnd2 k →
  length cs1 ≤ k → i < k →
  (∀ j, j < k → ρ (gen1 j) = gen2 j) →
  children_of (gen2 i) cs2 = ρ <$> children_of (gen1 i) cs1.
Proof.
  intros Hsim Hid1 Hid2 F1 F2 Hk Hi Hρ. revert cs2 Hsim Hid1 Hid2 Hk.
  induction cs1 as [|n1 cs1 IH] using rev_ind;
    intros cs2 [Hlen Hsim] Hid1 Hid2 Hk.
  { destruct cs2; [done|]. simpl in Hlen. lia. }
  destruct cs2 as [|n2 cs2 _] using rev_ind.
  { rewrite length_app in Hlen. simpl in Hlen. lia. }
  rewrite !length_app in Hlen. rewrite length_app in Hk.
  simpl in Hlen, Hk.
  assert (Hlen' : length cs1 = length cs2) by lia.
  rewrite !children_of_snoc, fmap_app.
  rewrite (IH cs2); first last.
  { lia. }
  { intros j n Hn. apply Hid2. by apply lookup_app_l_Some. }
  { intros j n Hn. apply Hid1. by apply lookup_app_l_Some. }
  { split; [done|]. intros j m1 m2 H1 H2.
    apply (Hsim j); by apply lookup_app_l_Some. }
  f_equal.
  assert (H1 : (cs1 ++ [n1]) !! length cs1 = Some n1)
    by (apply lookup_snoc_Some; by right).
  assert (H2 : (cs2 ++ [n2]) !! length cs1 = Some n2)
    by (apply lookup_snoc_Some; right; by rewrite Hlen').
  destruct (Hsim _ _ _ H1 H2) as (_ & _ & _ & Hpar).
  pose proof (Hid1 _ _ H1) as E1. pose proof (Hid2 _ _ H2) as E2.
  destruct Hpar as [[P1 P2]|(b & Hb & P1 & P2)]; rewrite P1, P2.
  - rewrite !decide_False; [done| |];
      intros E; symmetry in E; by apply generateObjectId_nonempty in E.
  - destruct (decide (b = i)) as [->|Hbi].
    + rewrite !decide_True by done. rewrite E1, E2. simpl.
      rewrite Hρ by lia. done.
    + rewrite !decide_False; [done| |].
      * intros E. apply F1 in E; [done|lia|lia].
      * intros E. apply F2 in E; [done|lia|lia].
Qed.

Lemma renaming_drawn (st1 st2 : build_state) (j : nat) :
  basic_inv rnd1 st1 → basic_inv rnd2 st2 →
  fresh_upto rnd1 (drawn st1) →
  length (outputNodes st1) = length (outputNodes st2) →
  j < length (outputNodes st1) →
  renaming (outputNodes st1) (outputNodes st2) (gen1 j) = gen2 j.
Proof.
  intros Hb1 Hb2 F1 Hlen Hj. unfold renaming.
  destruct (lookup_lt_is_Some_2 _ _ Hj) as [n1 Hn1].
  destruct (list_find (λ n, _id n = gen1 j) (outputNodes st1))
    as [[i n]|] eqn:Hfind.
  - apply list_find_Some in Hfind as (Hn & Hid & _).
    rewrite (output_id _ _ _ _ Hb1 Hn) in Hid.
    pose proof (lookup_lt_Some _ _ _ Hn) as Hi.
    apply F1 in Hid; [|by rewrite (bi_drawn _ _ Hb1)..]. subst i.
    rewrite Hlen in Hj. destruct (lookup_lt_is_Some_2 _ _ Hj) as [n2 Hn2].
    rewrite Hn2. simpl. by apply (output_id _ _ _ _ Hb2).
  - apply list_find_None in Hfind. rewrite Forall_forall in Hfind.
    destruct (Hfind n1 (list_elem_of_lookup_2 _ _ _ Hn1)).
    by apply (output_id _ _ _ _ Hb1).
Qed.

End Renaming.

(** ** Sample runs *)

(** One row with a gap: L1 and L3 populated, L2 absent. *)
Definition gap_rows : list Row := [row_of [(L1, "A"); (L3, "Z")]].

(** One row that starts at L2. *)
Definition orphan_rows : list Row := [row_of [(L2, "X")]].

(** The same L1 title twice, with different descriptions. *)
Definition twice_rows : list Row :=
  [ row_of [(L1, "A"); ("Description", "first")];
    row_of [(L1, "A"); ("Description", "second")] ].

(** The same L2 title under two L1 parents, the first path repeated. *)
Definition shared_rows : list Row :=
  [ row_of [(L1, "A"); (L2, "X")];
    row_of [(L1, "B"); (L2, "X")];
    row_of [(L1, "A"); (L2, "X"); (L3, "Y")] ].

Definition gap_output : list node :=
  Eval vm_compute in default [] (processExcelToTreeJSON counter gap_rows).

Definition orphan_output : list node :=
  Eval vm_compute in default [] (processExcelToTreeJSON counter orphan_rows).

Definition twice_output : list node :=
  Eval vm_compute in default [] (processExcelToTreeJSON counter twice_rows).

Definition shared_output : list node :=
  Eval vm_compute in default [] (processExcelToTreeJSON counter shared_rows).

Example gap_run : processExcelToTreeJSON counter gap_rows = Some gap_output.
Proof. vm_compute. reflexivity. Qed.

Example orphan_run :
  processExcelToTreeJSON counter orphan_rows = Some orphan_output.
Proof. vm_compute. reflexivity. Qed.

Example twice_run : processExcelToTreeJSON counter twice_rows = Some twice_output.
Proof. vm_compute. reflexivity. Qed.

Example shared_run :
  processExcelToTreeJSON counter shared_rows = Some shared_output.
Proof. vm_compute. reflexivity. Qed.

(** Path-qualified deduplication: one node for the two rows. *)
Example twice_one_node :
  ∃ a, twice_output = [a] ∧ title a = "A" ∧ node_level a = Some L1 ∧
       _parent a = "" ∧ Description a = VStr "first".
Proof. eexists. split; [reflexivity|]. vm_compute. auto. Qed.

(** Same title under different parents: two nodes titled "X". *)
Example shared_titles :
  title <$> shared_output = ["A"; "X"; "B"; "X"; "Y"] ∧
  _parent <$> shared_output =
    [""; "000000000000000000000000"; ""; "000000000000000000000002";
     "000000000000000000000001"] ∧
  _child <$> shared_output =
    [ ["000000000000000000000001"]; ["000000000000000000000004"];
      ["000000000000000000000003"]; []; [] ].
Proof. vm_compute. auto. Qed.

Lemma distinct_ids_shared : distinct_ids shared_output.
Proof. apply (bool_decide_unpack _). vm_compute. exact I. Defined.

Lemma ids_unmentioned_shared : ids_unmentioned shared_rows shared_output.
Proof. apply (bool_decide_unpack _). vm_compute. exact I. Defined.

(** A title that spells out the id of the node it would sit beside: the
    second row has no L1, and its L2 title ends with a colon and the id
    that "A" gets from [counter]. *)
Definition spelt_rows : list Row :=
  [ row_of [(L1, "A"); (L2, "X")];
    row_of [(L2, "X:000000000000000000000000")] ].

Definition spelt_output : list node :=
  Eval vm_compute in default [] (processExcelToTreeJSON counter spelt_rows).

(** Here the key string of the second row equals the one of "X" under
    "A": three triples are met, two nodes are built.  This is the case
    that [ids_unmentioned] excludes. *)
Example spelt_out_id_shares_key :
  processExcelToTreeJSON counter spelt_rows = Some spelt_output ∧
  length spelt_output = 2 ∧
  length (first_occurrences (occurrences counter spelt_rows).*1) = 3 ∧
  ¬ ids_unmentioned spelt_rows spelt_output.
Proof.
  split; [vm_compute; reflexivity|]. split; [reflexivity|].
  split; [vm_compute; reflexivity|].
  intros H. apply (bool_decide_pack _) in H. vm_compute in H. exact H.
Qed.

(** ** Properties of the build *)

Lemma node_key_cores (st : build_state) :
  node_key <$> cores st = node_key <$> outputNodes st.
Proof. unfold cores. rewrite <-list_fmap_compose. by apply list_fmap_ext. Qed.

Lemma registered_key_cores (st : build_state) :
  registered_key <$> cores st = registered_key <$> outputNodes st.
Proof. unfold cores. rewrite <-list_fmap_compose. by apply list_fmap_ext. Qed.

(** C1 — node identity is the deduplication key.  For a run with pairwise
    distinct ids:
    - no two nodes are registered under the same key, and the keys of the
      nodes are exactly the keys met while the rows were scanned (a key
      being what the code forms from level, trimmed title and parent id);
    - every key met resolves to the node registered under it;
    - two occurrences with the same level, title and parent resolve to the
      same node;
    - two occurrences with the same title but another level or another
      parent resolve to different nodes;
    - and when the input does not spell out an id (no title ends with a
      colon and the id of a node), the key is the triple itself: no two
      nodes share (level, title, parent), the triples of the nodes are the
      triples met, and two occurrences resolve to the same node exactly
      when their triples are equal. *)
Theorem node_identity_is_dedup_key (rnd : nat → N) (rows : list Row)
    (out : list node) :
  processExcelToTreeJSON rnd rows = Some out → distinct_ids out →
  NoDup (registered_key <$> out) ∧
  (∀ k, k ∈ registered_key <$> out ↔
        k ∈ occurrence_key <$> occurrences rnd rows) ∧
  (∀ o, o ∈ occurrences rnd rows →
     ∃ n, n ∈ out ∧ registered_key n = occurrence_key o ∧ _id n = o.2) ∧
  (∀ o1 o2, o1 ∈ occurrences rnd rows → o2 ∈ occurrences rnd rows →
     o1.1 = o2.1 → o1.2 = o2.2) ∧
  (∀ o1 o2, o1 ∈ occurrences rnd rows → o2 ∈ occurrences rnd rows →
     occurrence_title o1 = occurrence_title o2 → o1.1 ≠ o2.1 →
     o1.2 ≠ o2.2) ∧
  (ids_unmentioned rows out →
     NoDup (node_key <$> out) ∧
     (∀ κ, κ ∈ node_key <$> out ↔ κ ∈ (occurrences rnd rows).*1) ∧
     (∀ o, o ∈ occurrences rnd rows →
        ∃ n, n ∈ out ∧ node_key n = o.1 ∧ _id n = o.2) ∧
     (∀ o1 o2, o1 ∈ occurrences rnd rows → o2 ∈ occurrences rnd rows →
        (o1.1 = o2.1 ↔ o1.2 = o2.2))).
Proof.
  intros (st & <- & Hreach & [Hb _] & _ & Hkeys)%run_final Hdist.
  pose proof (distinct_ids_fresh _ _ Hb Hdist) as Hfresh.
  destruct (registered_run _ _ _ Hreach) as [Hk Hocc].
  rewrite registered_key_cores in Hk.
  assert (Hnode : ∀ k x, idMap st !! k = Some x →
            ∃ i n, outputNodes st !! i = Some n ∧ i < drawn st ∧
                   registered_key n = k ∧ x = generateObjectId rnd i).
  { intros k x Hkx.
    destruct (bi_idMap_sound _ _ Hb _ _ Hkx) as (i & n & l & Hn & -> & Hl & ->).
    destruct (cores_lookup_inv _ _ _ Hn) as (n' & Hn' & ->).
    exists i, n'. split; [done|]. split.
    - rewrite (bi_drawn _ _ Hb). by eapply lookup_lt_Some.
    - split; [|done]. exact (registered_key_node (core n') l Hl). }
  split; [rewrite Hk; apply NoDup_first_occurrences|].
  split; [intros k; by rewrite Hk, elem_of_first_occurrences|].
  split; [|split; [|split]].
  - intros o Ho. destruct (Hocc _ Ho) as (Hid & _).
    destruct (Hnode _ _ Hid) as (i & n & Hn & _ & Hrk & Hx).
    exists n. split; [by eapply list_elem_of_lookup_2|]. split; [done|].
    by rewrite Hx, (output_id _ _ _ _ Hb Hn).
  - intros o1 o2 Ho1 Ho2 Heq.
    destruct (Hocc _ Ho1) as (Hid1 & _). destruct (Hocc _ Ho2) as (Hid2 & _).
    unfold occurrence_key in Hid1, Hid2. rewrite Heq in Hid1. congruence.
  - intros o1 o2 Ho1 Ho2 Htitle Hne Hsame.
    destruct (Hocc _ Ho1) as (Hid1 & (l1 & Hl1 & Hin1) & Hp1).
    destruct (Hocc _ Ho2) as (Hid2 & (l2 & Hl2 & Hin2) & Hp2).
    destruct (Hnode _ _ Hid1) as (i1 & n1 & Hn1 & Hi1 & Hrk1 & Hx1).
    destruct (Hnode _ _ Hid2) as (i2 & n2 & Hn2 & Hi2 & Hrk2 & Hx2).
    assert (i1 = i2) as -> by (apply Hfresh; [done|done|congruence]).
    assert (Hkeq : occurrence_key o1 = occurrence_key o2) by congruence.
    destruct o1 as [[[lo1 v1] p1] x1], o2 as [[[lo2 v2] p2] x2].
    unfold occurrence_key, occurrence_title in *. cbn [fst snd] in *.
    subst lo1 lo2 v2. cbn [default from_option id] in Hkeq.
    apply (compositeKey_same_title rnd) in Hkeq as [-> ->]; try done.
    + destruct Hp1 as [?|(a & _ & ?)]; [by left|right; by exists a].
    + destruct Hp2 as [?|(a & _ & ?)]; [by left|right; by exists a].
  - intros Hun.
    destruct (Hkeys (ids_unmentioned_sound _ _ _ Hb Hun)) as [Hκ Hres].
    rewrite node_key_cores in Hκ.
    assert (Hnd : NoDup (node_key <$> outputNodes st)).
    { rewrite Hκ. apply NoDup_first_occurrences. }
    split; [done|].
    split; [intros κ; by rewrite Hκ, elem_of_first_occurrences|].
    split.
    + intros [κ x] Hin. destruct (Hres _ _ Hin) as (i & n & Hn & <- & ->).
      destruct (cores_lookup_inv _ _ _ Hn) as (n' & Hn' & ->).
      exists n'. split; [by eapply list_elem_of_lookup_2|]. split; [done|].
      by apply (output_id rnd st i).
    + intros [κ1 x1] [κ2 x2] H1 H2. cbn [fst snd].
      destruct (Hres _ _ H1) as (i1 & n1 & Hn1 & <- & ->).
      destruct (Hres _ _ H2) as (i2 & n2 & Hn2 & <- & ->).
      pose proof (lookup_lt_Some _ _ _ Hn1) as Hi1.
      pose proof (lookup_lt_Some _ _ _ Hn2) as Hi2.
      rewrite cores_length, <-(bi_drawn _ _ Hb) in Hi1, Hi2.
      rewrite <-node_key_cores in Hnd. split.
      * intros Heq. f_equal.
        apply (NoDup_lookup _ i1 i2 (node_key n1) Hnd).
        -- by rewrite list_lookup_fmap, Hn1.
        -- by rewrite list_lookup_fmap, Hn2, Heq.
      * intros Heq. apply Hfresh in Heq; [|done..]. subst i2. congruence.
Qed.

Lemma node_identity_is_dedup_key_witness :
  NoDup (registered_key <$> shared_output) ∧
  (∀ o1 o2, o1 ∈ occurrences counter shared_rows →
     o2 ∈ occurrences counter shared_rows →
     occurrence_title o1 = occurrence_title o2 → o1.1 ≠ o2.1 →
     o1.2 ≠ o2.2) ∧
  NoDup (node_key <$> shared_output) ∧
  (∀ o1 o2, o1 ∈ occurrences counter shared_rows →
     o2 ∈ occurrences counter shared_rows →
     (o1.1 = o2.1 ↔ o1.2 = o2.2)).
Proof.
  destruct (node_identity_is_dedup_key counter shared_rows shared_output
              shared_run distinct_ids_shared)
    as (Hnd & _ & _ & _ & Hother & Htriple).
  destruct (Htriple ids_unmentioned_shared) as (Hnd' & _ & _ & Hiff).
  exact (conj Hnd (conj Hother (conj Hnd' Hiff))).
Defined.

(** C5 — output order is creation order: the keys under which the output
    nodes are registered, in output order, are the keys met during the
    scan (rows top to bottom, levels from the lowest rank up) in the order
    in which each is first met.  When the input does not spell out an id,
    the same holds of the triples (level, title, parent). *)
Theorem output_order_is_first_seen_order (rnd : nat → N) (rows : list Row)
    (out : list node) :
  processExcelToTreeJSON rnd rows = Some out →
  registered_key <$> out =
    first_occurrences (occurrence_key <$> occurrences rnd rows) ∧
  (ids_unmentioned rows out →
   node_key <$> out = first_occurrences (occurrences rnd rows).*1).
Proof.
  intros (st & <- & Hreach & [Hb _] & _ & Hkeys)%run_final.
  destruct (registered_run _ _ _ Hreach) as [Hk _].
  split; [by rewrite <-registered_key_cores|].
  intros Hun.
  destruct (Hkeys (ids_unmentioned_sound _ _ _ Hb Hun)) as [Hκ _].
  by rewrite <-node_key_cores.
Qed.

Lemma output_order_is_first_seen_order_witness :
  registered_key <$> shared_output =
    first_occurrences (occurrence_key <$> occurrences counter shared_rows) ∧
  node_key <$> shared_output =
    first_occurrences (occurrences counter shared_rows).*1.
Proof.
  destruct (output_order_is_first_seen_order counter shared_rows shared_output
              shared_run) as [Hkeys Htriples].
  exact (conj Hkeys (Htriples ids_unmentioned_shared)).
Defined.

(** The scan of [shared_rows] meets seven keys, five of them distinct. *)
Example shared_occurrences :
  (λ o : occurrence, (o.1.1.2, o.2)) <$> occurrences counter shared_rows =
  [ ("A", "000000000000000000000000"); ("X", "000000000000000000000001");
    ("B", "000000000000000000000002"); ("X", "000000000000000000000003");
    ("A", "000000000000000000000000"); ("X", "000000000000000000000001");
    ("Y", "000000000000000000000004") ].
Proof. vm_compute. reflexivity. Qed.

(** C4 — child list integrity.  When the ids of the output are pairwise
    distinct: the child list of a node holds exactly the ids of the nodes
    whose [_parent] is that node, in output order, without duplicates; a
    node with a parent stands exactly once in the child list of the node
    that has the parent's id; and every id in a child list is the id of a
    node of the output whose [_parent] is the owner of the list. *)
Theorem child_lists_mirror_parents (rnd : nat → N) (rows : list Row)
    (out : list node) :
  processExcelToTreeJSON rnd rows = Some out → distinct_ids out →
  (∀ n, n ∈ out → _child n = children_of (_id n) out ∧ NoDup (_child n)) ∧
  (∀ m, m ∈ out → _parent m ≠ "" →
     ∃ p l1 l2, p ∈ out ∧ _id p = _parent m ∧
                _child p = l1 ++ _id m :: l2 ∧ (_id m ∉ l1) ∧ (_id m ∉ l2)) ∧
  (∀ p x, p ∈ out → x ∈ _child p →
     ∃ m, m ∈ out ∧ _id m = x ∧ _parent m = _id p).
Proof.
  intros (st & <- & _ & [Hb _] & Hch & _)%run_final Hdist.
  pose proof (Hch (distinct_ids_fresh _ _ Hb Hdist)) as Hok.
  assert (Hchild : ∀ n, n ∈ outputNodes st →
                        _child n = children_of (_id n) (outputNodes st)).
  { intros n [i Hn]%list_elem_of_lookup.
    rewrite (Hok _ _ Hn), (output_id _ _ _ _ Hb Hn).
    apply children_of_core. }
  split; [|split].
  - intros n Hn. split; [by apply Hchild|].
    rewrite (Hchild _ Hn). by apply NoDup_children_of.
  - intros m Hm Hpar. pose proof Hm as [j Hj]%list_elem_of_lookup.
    destruct (bi_parent _ _ Hb _ _ (cores_lookup _ _ _ Hj))
      as [E|(i & Hi & E)]; [done|]. cbn in E.
    pose proof (lookup_lt_Some _ _ _ Hj) as Hlt.
    destruct (lookup_lt_is_Some_2 (outputNodes st) i) as [p Hp]; [lia|].
    assert (Hpid : _id p = _parent m)
      by (by rewrite E, (output_id _ _ _ _ Hb Hp)).
    assert (Hpin : p ∈ outputNodes st) by (by eapply list_elem_of_lookup_2).
    destruct (NoDup_elem_of_once (_child p) (_id m)) as (l1 & l2 & ? & ? & ?).
    + rewrite (Hchild _ Hpin). by apply NoDup_children_of.
    + rewrite (Hchild _ Hpin). apply elem_of_children_of. by exists m.
    + by exists p, l1, l2.
  - intros p x Hp Hx. rewrite (Hchild _ Hp) in Hx.
    by apply elem_of_children_of in Hx.
Qed.

Lemma child_lists_mirror_parents_witness :
  (∀ n, n ∈ shared_output →
     _child n = children_of (_id n) shared_output ∧ NoDup (_child n)) ∧
  (∀ m, m ∈ shared_output → _parent m ≠ "" →
     ∃ p l1 l2, p ∈ shared_output ∧ _id p = _parent m ∧
                _child p = l1 ++ _id m :: l2 ∧ (_id m ∉ l1) ∧ (_id m ∉ l2)) ∧
  (∀ p x, p ∈ shared_output → x ∈ _child p →
     ∃ m, m ∈ shared_output ∧ _id m = x ∧ _parent m = _id p).
Proof.
  exact (child_lists_mirror_parents counter shared_rows shared_output
           shared_run distinct_ids_shared).
Defined.

(** C10 — parents precede their children: a node with a non-empty
    [_parent] comes strictly after a node of the output that bears this
    id. *)
Theorem parents_precede_children (rnd : nat → N) (rows : list Row)
    (out : list node) (j : nat) (n : node) :
  processExcelToTreeJSON rnd rows = Some out →
  out !! j = Some n → _parent n ≠ "" →
  ∃ i p, i < j ∧ out !! i = Some p ∧ _id p = _parent n.
Proof.
  intros Hrun Hn Hpar.
  destruct (provenance_out _ _ _ _ _ Hrun Hn)
    as (row & pre & l & post & _ & _ & _ & _ & _ & Hlink).
  destruct (last_populated row pre); [|done].
  destruct Hlink as (_ & i & p & Hi & Hp & Hid & _). by exists i, p.
Qed.

Lemma parents_precede_children_witness :
  ∃ z, shared_output !! 4 = Some z ∧ _parent z ≠ "" ∧
       ∃ i p, i < 4 ∧ shared_output !! i = Some p ∧ _id p = _parent z.
Proof.
  eexists. split; [reflexivity|]. split; [discriminate|].
  apply (parents_precede_children counter shared_rows shared_output 4);
    [exact shared_run|reflexivity|discriminate].
Defined.

(** The reading of C6 that the code does not satisfy: every parent stands
    exactly one rank above its child. *)
Definition parents_one_rank_up (out : list node) : Prop :=
  ∀ n p, n ∈ out → p ∈ out → _parent n ≠ "" → _id p = _parent n →
         node_rank n = S (node_rank p).

(** In the row with a gap, "Z" at rank 3 has "A" at rank 1 as parent. *)
Lemma gap_parent_two_ranks_up :
  processExcelToTreeJSON counter gap_rows = Some gap_output ∧
  ¬ parents_one_rank_up gap_output.
Proof.
  split; [exact gap_run|]. intros H.
  assert (Hout : ∃ a z, gap_output = [a; z] ∧ _parent z ≠ "" ∧
                        _id a = _parent z ∧ node_rank z = 3 ∧ node_rank a = 1).
  { eexists _, _. split; [reflexivity|]. vm_compute.
    split; [discriminate|auto]. }
  destruct Hout as (a & z & Hout & Hne & Hid & Hz & Ha).
  specialize (H z a). rewrite Hout, Hz, Ha in H.
  assert (3 = 2); [|lia].
  apply H; [apply elem_of_cons; right; constructor|constructor|done|done].
Qed.

(** The reading of C7 that the code does not satisfy: [_parent] is empty
    exactly for the nodes of rank 1. *)
Definition parentless_iff_rank_one (out : list node) : Prop :=
  ∀ n, n ∈ out → (_parent n = "" ↔ node_rank n = 1).

(** A row that starts at L2 gives a node of rank 2 without a parent. *)
Lemma orphan_above_rank_one :
  processExcelToTreeJSON counter orphan_rows = Some orphan_output ∧
  ¬ parentless_iff_rank_one orphan_output.
Proof.
  split; [exact orphan_run|]. intros H.
  assert (Hout : ∃ x, orphan_output = [x] ∧ _parent x = "" ∧ node_rank x = 2).
  { eexists. split; [reflexivity|]. vm_compute. auto. }
  destruct Hout as (x & Hout & Hpar & Hrank).
  destruct (H x) as [H1 _]; [rewrite Hout; constructor|].
  rewrite Hrank in H1. specialize (H1 Hpar). lia.
Qed.

Lemma metadata_core (n : node) : metadata (core n) = metadata n.
Proof. reflexivity. Qed.

(** C3 — metadata is captured once, from the row that creates the node.
    Processing one more row leaves every field but the child list of
    every existing node as it was (so no metadata is overwritten, whatever
    keys the row resolves to), and each node the row appends carries the
    metadata of that row: a field missing from the row takes its
    default, a text field that holds text and the numeric field that
    holds a number are copied as they are. *)
Theorem metadata_first_row_wins (rnd : nat → N) (rows : list Row) (row : Row)
    (out out' : list node) :
  processExcelToTreeJSON rnd rows = Some out →
  processExcelToTreeJSON rnd (rows ++ [row]) = Some out' →
  (∀ j n, out !! j = Some n →
     ∃ n', out' !! j = Some n' ∧ metadata n' = metadata n ∧ core n' = core n) ∧
  (∀ j n', out' !! j = Some n' → length out ≤ j →
     metadata n' = row_metadata row) ∧
  (∀ key d, row !! key = None → js_or (row_get row key) d = d) ∧
  (∀ s, js_or (VStr s) (VStr "") = VStr s) ∧
  (∀ z, js_or (VNum z) (VNum 0) = VNum z).
Proof.
  unfold processExcelToTreeJSON. rewrite forEach_app.
  destruct (forEach (process_row rnd) rows initial_state) as [st|]; [|done].
  simpl. intros [= <-].
  destruct (process_row rnd st row) as [st'|] eqn:Hrow; [|done].
  simpl. intros [= <-].
  destruct (process_row_appends _ _ _ _ Hrow) as (new & Hcs & Hnew).
  split; [|split; [|split; [|split]]].
  - intros j n Hn.
    assert (Hj : cores st' !! j = Some (core n)).
    { rewrite Hcs. apply lookup_app_l_Some. by apply cores_lookup. }
    destruct (cores_lookup_inv _ _ _ Hj) as (n' & Hn' & Hcore).
    exists n'. split; [done|]. split; [|done].
    by rewrite <-(metadata_core n'), <-Hcore.
  - intros j n' Hn' Hj. apply cores_lookup in Hn'.
    rewrite Hcs, lookup_app_r in Hn' by (by rewrite cores_length).
    rewrite Forall_forall in Hnew.
    rewrite <-(metadata_core n'). apply Hnew.
    by eapply list_elem_of_lookup_2.
  - intros key d Hkey. unfold row_get. by rewrite Hkey.
  - intros s. unfold js_or, truthy. case_bool_decide as E; [by rewrite E|done].
  - intros z. unfold js_or, truthy.
    destruct (Z.eqb_spec z 0) as [->|]; done.
Qed.

Lemma metadata_first_row_wins_witness :
  ∃ a, processExcelToTreeJSON counter (take 1 twice_rows) = Some [a] ∧
       processExcelToTreeJSON counter twice_rows = Some twice_output ∧
       Description a = VStr "first" ∧
  (∀ j n, [a] !! j = Some n →
     ∃ n', twice_output !! j = Some n' ∧ metadata n' = metadata n ∧
           core n' = core n).
Proof.
  eexists. split; [vm_compute; reflexivity|]. split; [exact twice_run|].
  split; [reflexivity|].
  eapply (metadata_first_row_wins counter (take 1 twice_rows));
    [vm_compute; reflexivity|exact twice_run].
Defined.

(** C9 — rows of blanks and totality.  A row whose level cells are all
    absent or empty after trimming leaves the whole build state as it is:
    no node is created and no child list or metadata field changes, so
    the build with the row equals the build without it.  And the build
    fails on no sequence of rows whose level cells are absent or text. *)
Theorem blank_rows_change_nothing (rnd : nat → N) :
  (∀ row st, blank_row row → process_row rnd st row = Some st) ∧
  (∀ rows1 row rows2, blank_row row →
     processExcelToTreeJSON rnd (rows1 ++ row :: rows2) =
     processExcelToTreeJSON rnd (rows1 ++ rows2)) ∧
  (∀ rows, Forall textual_row rows →
     is_Some (processExcelToTreeJSON rnd rows)).
Proof.
  split; [|split].
  - intros row st. apply process_row_blank.
  - intros rows1 row rows2 Hblank. unfold processExcelToTreeJSON.
    rewrite !forEach_app.
    destruct (forEach (process_row rnd) rows1 initial_state) as [st|]; [|done].
    simpl. by rewrite (process_row_blank rnd row st Hblank).
  - intros rows Htext. unfold processExcelToTreeJSON.
    destruct (forEach_total (process_row rnd) rows initial_state)
      as [st ->]; [|by eexists].
    intros st row Hrow. apply process_row_textual.
    rewrite Forall_forall in Htext. by apply Htext.
Qed.

Lemma blank_row_empty : blank_row ∅.
Proof. intros l _. reflexivity. Defined.

Lemma blank_row_spaces : blank_row (row_of [(L1, "  "); (L3, "")]).
Proof.
  intros l Hl%elem_of_hierarchyLevels.
  destruct Hl as [->|[->|[->|[->| ->]]]]; vm_compute; auto.
Defined.

Lemma textual_rows_shared : Forall textual_row shared_rows.
Proof.
  repeat constructor; intros l Hl%elem_of_hierarchyLevels;
    destruct Hl as [->|[->|[->|[->| ->]]]]; exact I.
Defined.

Lemma blank_rows_change_nothing_witness :
  processExcelToTreeJSON counter
    ([row_of [(L1, "A"); (L2, "X")]] ++
     row_of [(L1, "  "); (L3, "")] :: [row_of [(L1, "B"); (L2, "X")]]) =
  processExcelToTreeJSON counter
    ([row_of [(L1, "A"); (L2, "X")]] ++ [row_of [(L1, "B"); (L2, "X")]]) ∧
  process_row counter initial_state ∅ = Some initial_state ∧
  is_Some (processExcelToTreeJSON counter shared_rows).
Proof.
  destruct (blank_rows_change_nothing counter) as (Hstate & Hrun & Htotal).
  split; [exact (Hrun _ _ _ blank_row_spaces)|].
  split; [exact (Hstate _ _ blank_row_empty)|].
  exact (Htotal _ textual_rows_shared).
Defined.

Lemma level_step_populated (rnd : nat → N) (row : Row)
    (c : build_state * option string) (l raw : string) :
  row_get row l = VStr raw → raw ≠ "" → trim raw ≠ "" →
  level_step rnd row c l = Some (visit rnd row l raw c).
Proof.
  intros Hget H1 H2. unfold level_step. rewrite Hget.
  by rewrite !bool_decide_eq_false_2.
Qed.

Lemma visit_new (rnd : nat → N) (row : Row) (l raw : string)
    (st : build_state) (prev : option string) :
  idMap st !! compositeKey l (trim raw) prev = None →
  visit rnd row l raw (st, prev) =
  (create rnd row l (trim raw) prev (compositeKey l (trim raw) prev) st,
   Some (generateObjectId rnd (drawn st))).
Proof.
  intros Hk.
  destruct (visit rnd row l raw (st, prev)) as [st' prev'] eqn:Hv.
  destruct (visit_cases rnd _ _ _ _ _ _ _ Hv)
    as [(x & Hk' & _)|(_ & -> & ->)]; [congruence|done].
Qed.

Lemma forEach_skip_prefix {A S : Type} (f : S → A → option S)
    (gap ls : list A) (s : S) :
  (∀ x, x ∈ gap → f s x = Some s) →
  forEach f (gap ++ ls) s = forEach f ls s.
Proof. intros H. by rewrite forEach_app, (forEach_skip f gap s H). Qed.

(** The run on the row with a gap, whatever the ids drawn. *)
Lemma gap_run_cores (rnd : nat → N) :
  ∃ out, processExcelToTreeJSON rnd gap_rows = Some out ∧
    core <$> out =
    [ new_node (row_of [(L1, "A"); (L3, "Z")]) L1 "A" None
        (generateObjectId rnd 0);
      new_node (row_of [(L1, "A"); (L3, "Z")]) L3 "Z"
        (Some (generateObjectId rnd 0)) (generateObjectId rnd 1) ].
Proof.
  set (row := row_of [(L1, "A"); (L3, "Z")]).
  assert (Hblank : ∀ l, l ∈ [L2; L4; L5] → cell_blank row l).
  { intros l. rewrite !elem_of_cons, elem_of_nil.
    intros [->|[->|[->|[]]]]; vm_compute; reflexivity. }
  set (st1 := create rnd row L1 "A" None (compositeKey L1 "A" None) initial_state).
  set (st2 := create rnd row L3 "Z" (Some (generateObjectId rnd 0))
                (compositeKey L3 "Z" (Some (generateObjectId rnd 0))) st1).
  assert (H1 : level_step rnd row (initial_state, None) L1 =
               Some (st1, Some (generateObjectId rnd 0))).
  { rewrite (level_step_populated rnd row _ L1 "A");
      [|vm_compute; reflexivity|discriminate|vm_compute; discriminate].
    change (trim "A") with "A" in *. by rewrite visit_new. }
  assert (H3 : level_step rnd row (st1, Some (generateObjectId rnd 0)) L3 =
               Some (st2, Some (generateObjectId rnd 1))).
  { rewrite (level_step_populated rnd row _ L3 "Z");
      [|vm_compute; reflexivity|discriminate|vm_compute; discriminate].
    rewrite visit_new; [done|]. change (trim "Z") with "Z".
    unfold st1, create. cbn [idMap].
    rewrite lookup_insert_ne; [done|].
    intros E. apply compositeKey_level in E; [discriminate|..];
      unfold L1, L3, hierarchyLevels; repeat constructor. }
  exists (outputNodes st2). split.
  - unfold processExcelToTreeJSON, gap_rows. fold row. cbn [forEach].
    unfold process_row, hierarchyLevels. fold L1 L2 L3 L4 L5.
    cbn [forEach]. rewrite H1.
    rewrite (level_step_blank rnd row _ L2) by (apply Hblank; set_solver).
    rewrite H3.
    rewrite (level_step_blank rnd row _ L4) by (apply Hblank; set_solver).
    rewrite (level_step_blank rnd row _ L5) by (apply Hblank; set_solver).
    reflexivity.
  - unfold st2. rewrite create_cores. unfold st1 at 1. rewrite create_cores.
    reflexivity.
Qed.

(** C2 — an absent or empty level is skipped without touching
    [previousLevelId].  At such a level the callback returns the state and
    [previousLevelId] it was given, so a run of skipped levels is
    invisible to the levels after it; a node created at the next populated
    level takes the [previousLevelId] it finds as its [_parent]; and the
    row {L1: "A", L3: "Z"} yields exactly two nodes, "A" at L1 without
    parent and "Z" at L3 whose [_parent] is the id of "A". *)
Theorem absent_level_keeps_parent (rnd : nat → N) :
  (∀ row l c, cell_blank row l → level_step rnd row c l = Some c) ∧
  (∀ row gap ls c, (∀ l, l ∈ gap → cell_blank row l) →
     forEach (level_step rnd row) (gap ++ ls) c =
     forEach (level_step rnd row) ls c) ∧
  (∀ row l raw st prev,
     row_get row l = VStr raw → raw ≠ "" → trim raw ≠ "" →
     idMap st !! compositeKey l (trim raw) prev = None →
     ∃ st' n, level_step rnd row (st, prev) l = Some (st', Some (_id n)) ∧
              last (core <$> outputNodes st') = Some n ∧
              title n = trim raw ∧ _parent n = id_or_empty prev) ∧
  (∃ a z, processExcelToTreeJSON rnd gap_rows = Some [a; z] ∧
          title a = "A" ∧ node_level a = Some L1 ∧ _parent a = "" ∧
          title z = "Z" ∧ node_level z = Some L3 ∧ _parent z = _id a).
Proof.
  split; [|split; [|split]].
  - intros row l c. apply level_step_blank.
  - intros row gap ls c Hgap. apply forEach_skip_prefix.
    intros l Hl. apply level_step_blank. by apply Hgap.
  - intros row l raw st prev Hget H1 H2 Hk.
    eexists _, (new_node row l (trim raw) prev (generateObjectId rnd (drawn st))).
    rewrite (level_step_populated rnd row _ l raw) by done.
    rewrite visit_new by done. split; [reflexivity|].
    rewrite create_cores, last_snoc. done.
  - destruct (gap_run_cores rnd) as (out & Hrun & Hcores).
    destruct out as [|a [|z [|? ?]]]; try discriminate Hcores.
    exists a, z. split; [done|].
    cbn [fmap list_fmap] in Hcores.
    apply (inj2 cons) in Hcores as [Ha Hz].
    apply (inj2 cons) in Hz as [Hz _].
    pose proof (f_equal title Ha : title a = _) as Hta.
    pose proof (f_equal title Hz : title z = _) as Htz.
    pose proof (f_equal node_level Ha : node_level a = _) as Hla.
    pose proof (f_equal node_level Hz : node_level z = _) as Hlz.
    pose proof (f_equal _parent Ha : _parent a = _) as Hpa.
    pose proof (f_equal _parent Hz : _parent z = _) as Hpz.
    pose proof (f_equal _id Ha : _id a = _) as Hia.
    rewrite Hta, Htz, Hla, Hlz, Hpa, Hpz, Hia.
    repeat (split; [reflexivity|]).
    cbn [_parent _id new_node]. unfold id_or_empty.
    by rewrite id_truthy_gen.
Qed.

Lemma absent_level_keeps_parent_witness :
  level_step counter (row_of [(L1, "A"); (L3, "Z")]) (initial_state, None) L2 =
    Some (initial_state, None) ∧
  forEach (level_step counter (row_of [(L1, "A"); (L3, "Z")]))
    ([L2] ++ [L3]) (initial_state, None) =
  forEach (level_step counter (row_of [(L1, "A"); (L3, "Z")]))
    [L3] (initial_state, None).
Proof.
  destruct (absent_level_keeps_parent counter) as (Hskip & Hgap & _).
  assert (Hblank : cell_blank (row_of [(L1, "A"); (L3, "Z")]) L2)
    by (vm_compute; reflexivity).
  split; [exact (Hskip _ _ _ Hblank)|].
  apply Hgap. intros l Hl%list_elem_of_singleton. by subst l.
Defined.

(** Whether the build fails depends on the rows only: a cell that is
    neither falsy nor text stops it. *)
Definition cell_ok (row : Row) (l : string) : Prop :=
  match row_get row l with
  | VStr _ => True
  | v => truthy v = false
  end.

Lemma level_step_is_Some (rnd : nat → N) (row : Row)
    (c : build_state * option string) (l : string) :
  is_Some (level_step rnd row c l) ↔ cell_ok row l.
Proof.
  unfold level_step, cell_ok.
  destruct (row_get row l) as [|raw|z|b|ms]; simpl.
  - split; [done|by eexists].
  - split; [done|]. intros _. destruct (_ || _); by eexists.
  - destruct (negb (z =? 0)%Z); split; intros H;
      first [done|by eexists|by destruct H].
  - destruct b; split; intros H; first [done|by eexists|by destruct H].
  - split; intros H; first [done|by destruct H].
Qed.

Lemma forEach_is_Some {A S : Type} (f : S → A → option S) (Q : A → Prop)
    (l : list A) (s : S) :
  (∀ s' x, is_Some (f s' x) ↔ Q x) →
  is_Some (forEach f l s) ↔ Forall Q l.
Proof.
  intros HQ. revert s. induction l as [|x l IH]; intros s; simpl.
  - split; [constructor|by eexists].
  - rewrite Forall_cons, <-(HQ s x).
    destruct (f s x) as [s'|]; [rewrite IH|].
    + split; [intros H; split; [by eexists|done]|by intros [_ ?]].
    + split; [by intros [? ?]|by intros [[? ?] _]].
Qed.

Lemma process_row_is_Some (rnd : nat → N) (st : build_state) (row : Row) :
  is_Some (process_row rnd st row) ↔ Forall (cell_ok row) hierarchyLevels.
Proof.
  unfold process_row.
  rewrite <-(forEach_is_Some (level_step rnd row) (cell_ok row)
               hierarchyLevels (st, None))
    by (intros; apply level_step_is_Some).
  destruct (forEach _ _ _); split; intros [? ?]; try done; by eexists.
Qed.

Lemma build_is_Some (rnd : nat → N) (rows : list Row) :
  is_Some (processExcelToTreeJSON rnd rows) ↔
  Forall (λ row, Forall (cell_ok row) hierarchyLevels) rows.
Proof.
  unfold processExcelToTreeJSON.
  rewrite <-(forEach_is_Some (process_row rnd) _ rows initial_state)
    by (intros; apply process_row_is_Some).
  destruct (forEach _ _ _); split; intros [? ?]; try done; by eexists.
Qed.

(** C8 — two builds of the same rows agree up to the ids.  Both fail or
    both succeed; and when in both the ids are fresh (pairwise distinct,
    not spelt out at the end of a title), the second output is the first
    with every id renamed: one renaming, injective on the ids of the first
    output, applied to [_id], [_parent] and [_child] alike, turns the
    first node sequence into the second, all other fields and the order
    being equal. *)
Theorem two_builds_agree_up_to_ids (rnd1 rnd2 : nat → N) (rows : list Row) :
  (is_Some (processExcelToTreeJSON rnd1 rows) ↔
   is_Some (processExcelToTreeJSON rnd2 rows)) ∧
  (∀ out1 out2,
     processExcelToTreeJSON rnd1 rows = Some out1 →
     processExcelToTreeJSON rnd2 rows = Some out2 →
     distinct_ids out1 → distinct_ids out2 →
     ids_unmentioned rows out1 → ids_unmentioned rows out2 →
     ∃ ρ, out2 = rename_ids ρ <$> out1 ∧
          ∀ n m, n ∈ out1 → m ∈ out1 → ρ (_id n) = ρ (_id m) →
                 _id n = _id m).
Proof.
  split; [by rewrite !build_is_Some|].
  intros out1 out2
    (st1 & <- & Hreach1 & [Hb1 _] & Hch1 & _)%run_final
    (st2 & <- & Hreach2 & [Hb2 _] & Hch2 & _)%run_final
    Hd1 Hd2 Hu1 Hu2.
  pose proof (distinct_ids_fresh _ _ Hb1 Hd1) as F1.
  pose proof (distinct_ids_fresh _ _ Hb2 Hd2) as F2.
  pose proof (ids_unmentioned_sound _ _ _ Hb1 Hu1) as U1.
  pose proof (ids_unmentioned_sound _ _ _ Hb2 Hu2) as U2.
  destruct (sim_run rnd1 rnd2 rows st1 st2 Hreach1 Hreach2) as (_ & _ & Hsim).
  assert (Hcs : sim_cores rnd1 rnd2 (cores st1) (cores st2))
    by (by apply Hsim).
  pose proof Hcs as [Hlen Hnodes]. rewrite !cores_length in Hlen.
  pose proof (bi_drawn _ _ Hb1) as Hdr1. pose proof (bi_drawn _ _ Hb2) as Hdr2.
  set (ρ := renaming (outputNodes st1) (outputNodes st2)).
  assert (Hρ : ∀ j, j < drawn st1 →
                    ρ (generateObjectId rnd1 j) = generateObjectId rnd2 j).
  { intros j Hj. apply renaming_drawn; try done. by rewrite <-Hdr1. }
  exists ρ. split.
  - apply list_eq. intros j. rewrite list_lookup_fmap.
    destruct (outputNodes st1 !! j) as [n1|] eqn:E1; simpl.
    + pose proof (lookup_lt_Some _ _ _ E1) as Hj.
      destruct (lookup_lt_is_Some_2 (outputNodes st2) j) as [n2 E2]; [lia|].
      rewrite E2. f_equal.
      destruct (Hnodes j _ _ (cores_lookup _ _ _ E1) (cores_lookup _ _ _ E2))
        as (Ht & Hlf & Hm & Hpar).
      cbn in Ht, Hlf, Hpar. rewrite !metadata_core in Hm.
      apply node_eq; cbn [rename_ids _id title _parent _child levelFields];
        try done.
      * rewrite (output_id _ _ _ _ Hb1 E1), (output_id _ _ _ _ Hb2 E2).
        rewrite Hρ by lia. done.
      * destruct Hpar as [[P1 P2]|(b & Hb & P1 & P2)]; rewrite P1, P2.
        -- by rewrite bool_decide_eq_true_2.
        -- rewrite bool_decide_eq_false_2
             by apply generateObjectId_nonempty.
           rewrite Hρ by lia. done.
      * rewrite (Hch1 F1 _ _ E1), (Hch2 F2 _ _ E2).
        apply (sim_children rnd1 rnd2 ρ (drawn st1)); try done.
        -- apply (bi_id _ _ Hb1).
        -- apply (bi_id _ _ Hb2).
        -- by rewrite Hdr1, Hlen, <-Hdr2.
        -- rewrite cores_length. lia.
        -- lia.
    + apply lookup_ge_None. apply lookup_ge_None in E1. lia.
  - intros n m [i Hn]%list_elem_of_lookup [j Hm]%list_elem_of_lookup.
    pose proof (lookup_lt_Some _ _ _ Hn) as Hi.
    pose proof (lookup_lt_Some _ _ _ Hm) as Hj.
    rewrite (output_id _ _ _ _ Hb1 Hn), (output_id _ _ _ _ Hb1 Hm).
    rewrite !Hρ by lia. intros E. apply F2 in E; [by subst j|lia|lia].
Qed.

(** Another entropy source: 4096, 4103, 4110, ... *)
Definition strider : nat → N := λ k, N.of_nat (4096 + 7 * k).

Definition shared_output_strider : list node :=
  Eval vm_compute in default [] (processExcelToTreeJSON strider shared_rows).

Example shared_run_strider :
  processExcelToTreeJSON strider shared_rows = Some shared_output_strider.
Proof. vm_compute. reflexivity. Qed.

Lemma distinct_ids_shared_strider : distinct_ids shared_output_strider.
Proof. apply (bool_decide_unpack _). vm_compute. exact I. Defined.

Lemma ids_unmentioned_shared_strider :
  ids_unmentioned shared_rows shared_output_strider.
Proof. apply (bool_decide_unpack _). vm_compute. exact I. Defined.

Lemma two_builds_agree_up_to_ids_witness :
  ∃ ρ, shared_output_strider = rename_ids ρ <$> shared_output ∧
       ∀ n m, n ∈ shared_output → m ∈ shared_output →
              ρ (_id n) = ρ (_id m) → _id n = _id m.
Proof.
  exact (proj2 (two_builds_agree_up_to_ids counter strider shared_rows)
           shared_output shared_output_strider shared_run shared_run_strider
           distinct_ids_shared distinct_ids_shared_strider
           ids_unmentioned_shared ids_unmentioned_shared_strider).
Defined.

(** * Further properties of the program

    The rest of this file covers what the properties above leave aside:
    the format of the ids, the shape of a node, when a run fails, how the
    output grows with the input, and the report that app.js prints after
    the run (lines 144-195). *)

(** ** The format of an id (lines 15-17) *)

Definition is_hex_digit (a : ascii) : bool :=
  match a with
  | "0" | "1" | "2" | "3" | "4" | "5" | "6" | "7" | "8" | "9"
  | "a" | "b" | "c" | "d" | "e" | "f" => true
  | _ => false
  end%char.

Fixpoint string_forallb (P : ascii → bool) (s : string) : bool :=
  match s with
  | "" => true
  | String a s' => P a && string_forallb P s'
  end.

(** Reading the digits back: the number a string of hexadecimal digits
    denotes, [acc] being the number read so far. *)
Definition hex_value (a : ascii) : N :=
  match a with
  | "1" => 1 | "2" => 2 | "3" => 3 | "4" => 4 | "5" => 5 | "6" => 6
  | "7" => 7 | "8" => 8 | "9" => 9 | "a" => 10 | "b" => 11 | "c" => 12
  | "d" => 13 | "e" => 14 | "f" => 15 | _ => 0
  end%char%N.

Fixpoint hex_number (s : string) (acc : N) : N :=
  match s with
  | "" => acc
  | String a s' => hex_number s' (acc * 16 + hex_value a)
  end.

Lemma hex_digit_is_hex (d : N) : is_hex_digit (hex_digit d) = true.
Proof.
  destruct d as [|p]; [reflexivity|].
  do 4 (try (destruct p as [p|p|]; try reflexivity)).
Qed.

Lemma hex_value_digit (d : N) : (d < 16)%N → hex_value (hex_digit d) = d.
Proof.
  destruct d as [|p]; [reflexivity|].
  do 4 (try (destruct p as [p|p|]; try reflexivity)); lia.
Qed.

Lemma to_hex_digits (w : nat) (n : N) (acc : string) :
  string_forallb is_hex_digit acc = true →
  string_forallb is_hex_digit (to_hex w n acc) = true.
Proof.
  revert n acc. induction w as [|w IH]; intros n acc Hacc; simpl; [done|].
  apply IH. simpl. by rewrite hex_digit_is_hex.
Qed.

Lemma hex_number_to_hex (w : nat) (n : N) (s : string) (a : N) :
  hex_number (to_hex w n s) a =
  hex_number s (a * 16 ^ N.of_nat w + n mod 16 ^ N.of_nat w)%N.
Proof.
  revert n s a. induction w as [|w IH]; intros n s a.
  - cbn [to_hex]. f_equal. change (16 ^ N.of_nat 0)%N with 1%N.
    rewrite N.mod_1_r. lia.
  - cbn [to_hex]. rewrite IH. cbn [hex_number]. f_equal.
    rewrite hex_value_digit by (apply N.mod_lt; lia).
    rewrite Nat2N.inj_succ, N.pow_succ_r', N.Div0.mod_mul_r. lia.
Qed.

Lemma to_hex_low_digits (w : nat) (n m : N) (acc : string) :
  (n mod 16 ^ N.of_nat w = m mod 16 ^ N.of_nat w)%N →
  to_hex w n acc = to_hex w m acc.
Proof.
  revert n m acc. induction w as [|w IH]; intros n m acc H; [done|].
  cbn [to_hex].
  rewrite Nat2N.inj_succ, N.pow_succ_r', !N.Div0.mod_mul_r in H.
  assert (n mod 16 < 16)%N as Hn by (apply N.mod_lt; lia).
  assert (m mod 16 < 16)%N as Hm by (apply N.mod_lt; lia).
  assert ((n mod 16 = m mod 16)%N ∧
          ((n / 16) mod 16 ^ N.of_nat w = (m / 16) mod 16 ^ N.of_nat w)%N)
    as [-> Hq].
  { revert H Hn Hm. generalize (n mod 16)%N (m mod 16)%N.
    generalize ((n / 16) mod 16 ^ N.of_nat w)%N.
    generalize ((m / 16) mod 16 ^ N.of_nat w)%N. lia. }
  by apply IH.
Qed.

(** ** String.prototype.trim, again *)

Lemma trimStart_head (s : string) :
  trimStart s = "" ∨ ∃ a t, trimStart s = String a t ∧ is_ws a = false.
Proof.
  induction s as [|a s IH]; [by left|].
  cbn [trimStart]. destruct (is_ws a) eqn:W; [done|]. right. by exists a, s.
Qed.

Lemma trimEnd_head (a : ascii) (t : string) :
  is_ws a = false → ∃ t', trimEnd (String a t) = String a t'.
Proof.
  intros W. cbn [trimEnd]. destruct (trimEnd t) as [|b u].
  - rewrite W. by eexists.
  - by eexists.
Qed.

Lemma trimEnd_idem (s : string) : trimEnd (trimEnd s) = trimEnd s.
Proof.
  induction s as [|a s IH]; [done|].
  cbn [trimEnd]. destruct (trimEnd s) as [|b u] eqn:E.
  - destruct (is_ws a) eqn:W; [done|]. cbn [trimEnd]. by rewrite W.
  - change (trimEnd (String a (String b u))) with
      (match trimEnd (String b u) with
       | "" => if is_ws a then "" else String a ""
       | t => String a t
       end).
    by rewrite IH.
Qed.

Lemma trim_idem (s : string) : trim (trim s) = trim s.
Proof.
  unfold trim.
  destruct (trimStart_head s) as [->|(a & t & -> & W)]; [done|].
  destruct (trimEnd_head a t W) as [t' E].
  rewrite E at 1. cbn [trimStart]. rewrite W, <-E. apply trimEnd_idem.
Qed.

(** ** The shape of a node (lines 77-92) *)

(** [n] is the object literal of lines 77-92, evaluated for a populated
    level cell of one of the [rows]. *)
Definition made_by (rows : list Row) (n : node) : Prop :=
  ∃ row l raw prev nodeId,
    row ∈ rows ∧ l ∈ hierarchyLevels ∧ row_get row l = VStr raw ∧
    trim raw ≠ "" ∧ n = new_node row l (trim raw) prev nodeId.

Section Shape.

Variable rnd : nat → N.

Lemma made_by_level_step (rows : list Row) (row : Row)
    (c c' : build_state * option string) (l : string) :
  row ∈ rows → l ∈ hierarchyLevels →
  level_step rnd row c l = Some c' →
  Forall (made_by rows) (cores c.1) → Forall (made_by rows) (cores c'.1).
Proof.
  intros Hrow Hl Hstep Hall.
  destruct (level_step_cases rnd _ _ _ _ Hstep)
    as [(_ & _ & ->)|(raw & Hraw & _ & Hne & ->)]; [done|].
  destruct c as [s prev].
  destruct (visit rnd row l raw (s, prev)) as [s' prev'] eqn:Hv.
  destruct (visit_cases rnd _ _ _ _ _ _ _ Hv)
    as [(x & _ & -> & _)|(_ & -> & _)]; [done|].
  cbn [fst] in *. unfold cores at 1. rewrite create_cores. fold (cores s).
  apply Forall_app. split; [done|]. constructor; [|done].
  by exists row, l, raw, prev, (generateObjectId rnd (drawn s)).
Qed.

Lemma made_by_process_row (rows : list Row) (row : Row)
    (st st' : build_state) :
  row ∈ rows → process_row rnd st row = Some st' →
  Forall (made_by rows) (cores st) → Forall (made_by rows) (cores st').
Proof.
  intros Hrow. unfold process_row.
  destruct (forEach (level_step rnd row) hierarchyLevels (st, None))
    as [c'|] eqn:Hrun; [|done].
  intros [= <-] Hall. revert Hrun.
  apply (forEach_invariant (level_step rnd row)
           (λ _ c, Forall (made_by rows) (cores c.1))); [|done].
  intros done l post c c1 Hlv Hc Hstep.
  apply (made_by_level_step rows row c c1 l); try done.
  rewrite Hlv. apply elem_of_app. right. constructor.
Qed.

Lemma made_by_run (rows : list Row) (out : list node) :
  processExcelToTreeJSON rnd rows = Some out →
  Forall (made_by rows) (core <$> out).
Proof.
  unfold processExcelToTreeJSON.
  destruct (forEach (process_row rnd) rows initial_state) as [st|] eqn:E;
    [|done].
  intros [= <-]. revert E. fold (cores st).
  apply (forEach_invariant (process_row rnd)
           (λ _ s, Forall (made_by rows) (cores s))); [|constructor].
  intros done row post s s' Hrows Hs Hstep.
  apply (made_by_process_row rows row s s'); try done.
  rewrite Hrows. apply elem_of_app. right. constructor.
Qed.

End Shape.

(** ** Ids *)

(** X1 — the ids of the output are the ids drawn, in order: the j-th node
    carries the result of the j-th call of [generateObjectId]; and every id
    is a string of 24 lowercase hexadecimal digits. *)
Theorem ids_are_drawn_in_order (rnd : nat → N) (rows : list Row)
    (out : list node) :
  processExcelToTreeJSON rnd rows = Some out →
  _id <$> out = generateObjectId rnd <$> seq 0 (length out) ∧
  Forall (λ n, String.length (_id n) = 24 ∧
               string_forallb is_hex_digit (_id n) = true) out.
Proof.
  intros (st & <- & _ & [Hb _] & _)%run_final.
  assert (∀ i n, outputNodes st !! i = Some n →
                 _id n = generateObjectId rnd i) as Hid.
  { intros i n. by apply output_id. }
  split.
  - apply list_eq. intros i. rewrite !list_lookup_fmap.
    destruct (outputNodes st !! i) as [n|] eqn:Hn.
    + rewrite lookup_seq_lt by (by eapply lookup_lt_Some).
      simpl. f_equal. by apply Hid.
    + rewrite lookup_seq_ge; [done|]. by apply lookup_ge_None.
  - apply Forall_forall. intros n [i Hn]%list_elem_of_lookup.
    rewrite (Hid _ _ Hn). split; [apply generateObjectId_length|].
    unfold generateObjectId. by apply to_hex_digits.
Qed.

Lemma ids_are_drawn_in_order_witness :
  _id <$> shared_output =
    generateObjectId counter <$> seq 0 (length shared_output) ∧
  Forall (λ n, String.length (_id n) = 24 ∧
               string_forallb is_hex_digit (_id n) = true) shared_output.
Proof.
  exact (ids_are_drawn_in_order counter shared_rows shared_output shared_run).
Defined.

(** X2 — the id is a faithful rendering of the twelve random bytes: two
    calls of [generateObjectId] return the same string exactly when they
    drew the same twelve bytes. *)
Theorem equal_ids_iff_equal_bytes (rnd : nat → N) (i j : nat) :
  generateObjectId rnd i = generateObjectId rnd j ↔
  (rnd i mod 2 ^ 96 = rnd j mod 2 ^ 96)%N.
Proof.
  unfold generateObjectId.
  change (2 ^ 96)%N with (16 ^ N.of_nat 24)%N. split.
  - intros H. apply (f_equal (λ s, hex_number s 0)) in H.
    rewrite !hex_number_to_hex in H.
    change (hex_number "" ?x) with x in H. lia.
  - apply to_hex_low_digits.
Qed.

(** ** Nodes *)

Lemma node_of_core (n m : node) :
  core n = m →
  title n = title m ∧ levelFields n = levelFields m ∧
  _parent n = _parent m ∧ _id n = _id m.
Proof. by intros <-. Qed.

(** A node as the object literal of lines 77-92 leaves it: a title that is
    not empty and is trimmed, and one level field holding it. *)
Definition well_formed (n : node) : Prop :=
  title n ≠ "" ∧ trim (title n) = title n ∧
  ∃ l, l ∈ hierarchyLevels ∧ node_level n = Some l ∧
       levelFields n =
         (λ l', (l', if bool_decide (l' = l) then title n else ""))
           <$> hierarchyLevels.

Lemma made_by_well_formed (rows : list Row) (n : node) :
  made_by rows (core n) → well_formed n.
Proof.
  intros (row & l & raw & prev & nodeId & _ & Hl & _ & Hne & Hn).
  destruct (node_of_core _ _ Hn) as (Ht & Hf & _ & _).
  cbn [title levelFields new_node] in Ht, Hf. unfold well_formed.
  rewrite Ht. split; [done|]. split; [apply trim_idem|].
  exists l. split; [done|]. split; [|done].
  rewrite <-(node_level_new_node (λ _, 0%N) row l (trim raw) prev nodeId Hl Hne).
  by apply node_level_levelFields.
Qed.

Lemma run_well_formed (rnd : nat → N) (rows : list Row) (out : list node) :
  processExcelToTreeJSON rnd rows = Some out → Forall well_formed out.
Proof.
  intros Hall%made_by_run. rewrite Forall_fmap in Hall.
  eapply Forall_impl; [exact Hall|]. apply made_by_well_formed.
Qed.

(** X3 — every node of the output has a title that is not empty and has
    no white space at either end, and stands at one level: the field of
    that level holds the title, the fields of the other four levels hold
    the empty string, in the order of [hierarchyLevels]. *)
Theorem nodes_are_well_formed (rnd : nat → N) (rows : list Row)
    (out : list node) :
  processExcelToTreeJSON rnd rows = Some out →
  Forall (λ n,
    title n ≠ "" ∧ trim (title n) = title n ∧
    ∃ l, l ∈ hierarchyLevels ∧ node_level n = Some l ∧
         levelFields n =
           (λ l', (l', if bool_decide (l' = l) then title n else ""))
             <$> hierarchyLevels) out.
Proof.
  intros Hrun. apply Forall_forall. intros n Hn.
  apply (made_by_well_formed rows).
  apply made_by_run in Hrun. rewrite Forall_forall in Hrun.
  apply Hrun. by apply list_elem_of_fmap_2.
Qed.

Lemma nodes_are_well_formed_witness :
  Forall (λ n,
    title n ≠ "" ∧ trim (title n) = title n ∧
    ∃ l, l ∈ hierarchyLevels ∧ node_level n = Some l ∧
         levelFields n =
           (λ l', (l', if bool_decide (l' = l) then title n else ""))
             <$> hierarchyLevels) shared_output.
Proof.
  exact (nodes_are_well_formed counter shared_rows shared_output shared_run).
Defined.

(** X4 — no two nodes of the output have the same level, title and
    parent, whatever ids were drawn: a node differs from every other node
    in one of the three. *)
Theorem nodes_differ_in_level_title_or_parent (rnd : nat → N)
    (rows : list Row) (out : list node) :
  processExcelToTreeJSON rnd rows = Some out → NoDup (node_key <$> out).
Proof.
  unfold processExcelToTreeJSON.
  destruct (forEach (process_row rnd) rows initial_state) as [st|] eqn:E;
    [|done].
  intros [= <-]. destruct (registered_run rnd rows st E) as [Hkeys _].
  pose proof (NoDup_first_occurrences
                (occurrence_key <$> occurrences rnd rows)) as Hnd.
  rewrite <-Hkeys, registered_key_cores in Hnd.
  apply (NoDup_fmap_1
           (λ k : dedup_key, compositeKey (default "" k.1.1) k.1.2 k.2)).
  by rewrite <-list_fmap_compose.
Qed.

Lemma nodes_differ_in_level_title_or_parent_witness :
  NoDup (node_key <$> shared_output).
Proof.
  exact (nodes_differ_in_level_title_or_parent counter shared_rows
           shared_output shared_run).
Defined.

(** ** Failure *)

Global Instance cell_ok_dec (row : Row) (l : string) : Decision (cell_ok row l).
Proof. unfold cell_ok. destruct (row_get row l); apply _. Defined.

Lemma not_cell_ok (row : Row) (l : string) :
  ¬ cell_ok row l ↔
  (∃ z, row_get row l = VNum z ∧ z ≠ 0%Z) ∨ row_get row l = VBool true ∨
  ∃ ms, row_get row l = VDate ms.
Proof.
  unfold cell_ok. destruct (row_get row l) as [|s|z|b|ms]; simpl.
  - split; [done|]. by intros [(? & ? & _)|[?|[? ?]]].
  - split; [done|]. by intros [(? & ? & _)|[?|[? ?]]].
  - destruct (Z.eqb_spec z 0) as [->|Hz]; simpl.
    + split; [done|]. intros [(? & [= <-] & ?)|[?|[? ?]]]; done.
    + split; [|done]. intros _. left. by exists z.
  - destruct b; simpl.
    + split; [auto|done].
    + split; [done|]. by intros [(? & ? & _)|[?|[? ?]]].
  - split; [|done]. intros _. right. right. by exists ms.
Qed.

(** X5 — the run fails exactly when a level cell of some row is neither
    falsy nor a string (a number other than 0, [true], or a date): such a
    cell has no [trim].  Nothing else makes it fail: not the metadata
    cells, not the ids, not the order of the rows. *)
Theorem build_fails_iff_bad_cell (rnd : nat → N) (rows : list Row) :
  processExcelToTreeJSON rnd rows = None ↔
  ∃ row l, row ∈ rows ∧ l ∈ hierarchyLevels ∧
    ((∃ z, row_get row l = VNum z ∧ z ≠ 0%Z) ∨
     row_get row l = VBool true ∨ ∃ ms, row_get row l = VDate ms).
Proof.
  rewrite eq_None_not_Some, build_is_Some. split.
  - intros H%not_Forall_Exists; [|apply _].
    apply Exists_exists in H as (row & Hrow & H).
    apply not_Forall_Exists in H; [|apply _].
    apply Exists_exists in H as (l & Hl & H).
    exists row, l. by rewrite <-not_cell_ok.
  - intros (row & l & Hrow & Hl & H%not_cell_ok) Hall.
    rewrite Forall_forall in Hall. specialize (Hall row Hrow).
    rewrite Forall_forall in Hall. by apply H, Hall.
Qed.

(** ** Growth *)

(** [out'] continues [out]: every node of [out] is still there, at its
    position, with the same fields, and its child list has grown at the
    end only. *)
Definition grows (out out' : list node) : Prop :=
  ∀ j n, out !! j = Some n →
    ∃ n', out' !! j = Some n' ∧ core n' = core n ∧
          _child n `prefix_of` _child n'.

Lemma grows_refl (out : list node) : grows out out.
Proof. intros j n Hn. by exists n. Qed.

Lemma grows_trans (o1 o2 o3 : list node) :
  grows o1 o2 → grows o2 o3 → grows o1 o3.
Proof.
  intros H12 H23 j n Hn.
  destruct (H12 _ _ Hn) as (n2 & Hn2 & Hc2 & Hp2).
  destruct (H23 _ _ Hn2) as (n3 & Hn3 & Hc3 & Hp3).
  exists n3. split; [done|]. split; [congruence|]. by etrans.
Qed.

Lemma forEach_preserves {A S : Type} (f : S → A → option S)
    (R : S → S → Prop) :
  (∀ s, R s s) → (∀ s1 s2 s3, R s1 s2 → R s2 s3 → R s1 s3) →
  (∀ s x s', f s x = Some s' → R s s') →
  ∀ l s s', forEach f l s = Some s' → R s s'.
Proof.
  intros Hrefl Htrans Hstep. induction l as [|x l IH]; intros s s'; simpl.
  - by intros [= <-].
  - destruct (f s x) as [s1|] eqn:Hf; [|done].
    intros H. apply (Htrans _ s1); [by eapply Hstep|by apply IH].
Qed.

Section Growth.

Variable rnd : nat → N.

Lemma grows_link_to_parent (prev : option string) (nodeId : string)
    (nodes : list node) (nmap : gmap string nat) :
  grows nodes (link_to_parent prev nodeId nodes nmap).
Proof.
  unfold link_to_parent.
  destruct (id_truthy prev); [|apply grows_refl].
  destruct (nmap !! default "" prev) as [r|]; [|apply grows_refl].
  destruct (nodes !! r) as [p|] eqn:Hr; [|apply grows_refl].
  destruct (bool_decide _); [apply grows_refl|].
  intros j n Hn. destruct (decide (j = r)) as [->|Hj].
  - exists (push_child p nodeId).
    rewrite list_lookup_insert_eq by (by eapply lookup_lt_Some).
    split; [done|]. simplify_eq. split; [done|].
    by apply prefix_app_r.
  - exists n. by rewrite list_lookup_insert_ne.
Qed.

Lemma grows_level_step (row : Row) (c c' : build_state * option string)
    (l : string) :
  level_step rnd row c l = Some c' →
  grows (outputNodes c.1) (outputNodes c'.1).
Proof.
  intros Hstep.
  destruct (level_step_cases rnd _ _ _ _ Hstep)
    as [(_ & _ & ->)|(raw & _ & _ & _ & ->)]; [apply grows_refl|].
  destruct c as [s prev].
  destruct (visit rnd row l raw (s, prev)) as [s' prev'] eqn:Hv.
  destruct (visit_cases rnd _ _ _ _ _ _ _ Hv)
    as [(x & _ & -> & _)|(_ & -> & _)]; [apply grows_refl|].
  cbn [fst]. rewrite create_outputNodes.
  eapply grows_trans; [|apply grows_link_to_parent].
  intros j n Hn. exists n. split; [|done]. by apply lookup_app_l_Some.
Qed.

Lemma grows_process_row (st st' : build_state) (row : Row) :
  process_row rnd st row = Some st' →
  grows (outputNodes st) (outputNodes st').
Proof.
  unfold process_row.
  destruct (forEach (level_step rnd row) hierarchyLevels (st, None))
    as [c'|] eqn:Hrun; [|done].
  intros [= <-]. revert Hrun.
  apply (forEach_preserves (level_step rnd row)
           (λ c1 c2, grows (outputNodes c1.1) (outputNodes c2.1))).
  - intros c. apply grows_refl.
  - intros c1 c2 c3. apply grows_trans.
  - intros c l c1. apply grows_level_step.
Qed.

Lemma grows_rows (rows : list Row) (st st' : build_state) :
  forEach (process_row rnd) rows st = Some st' →
  grows (outputNodes st) (outputNodes st').
Proof.
  apply (forEach_preserves (process_row rnd)
           (λ s1 s2, grows (outputNodes s1) (outputNodes s2))).
  - intros s. apply grows_refl.
  - intros s1 s2 s3. apply grows_trans.
  - intros s row s1. apply grows_process_row.
Qed.

End Growth.

(** X6 — the output grows with the input.  When the run on [rows]
    followed by [more] rows succeeds, so does the run on [rows] alone,
    and the longer run continues the shorter: every node of the shorter
    output is at the same position in the longer one, with the same
    fields, and with a child list that extends the old one at its end. *)
Theorem output_grows_with_input (rnd : nat → N) (rows more : list Row)
    (out' : list node) :
  processExcelToTreeJSON rnd (rows ++ more) = Some out' →
  ∃ out, processExcelToTreeJSON rnd rows = Some out ∧
         length out ≤ length out' ∧
         ∀ j n, out !! j = Some n →
           ∃ n', out' !! j = Some n' ∧ core n' = core n ∧
                 _child n `prefix_of` _child n'.
Proof.
  unfold processExcelToTreeJSON. rewrite forEach_app.
  destruct (forEach (process_row rnd) rows initial_state) as [st|]; [|done].
  simpl.
  destruct (forEach (process_row rnd) more st) as [st'|] eqn:E; [|done].
  intros [= <-]. exists (outputNodes st). split; [done|].
  pose proof (grows_rows rnd more st st' E) as Hg. split; [|exact Hg].
  destruct (decide (length (outputNodes st) = 0)) as [->|Hlen]; [lia|].
  destruct (lookup_lt_is_Some_2 (outputNodes st)
              (pred (length (outputNodes st)))) as [n Hn]; [lia|].
  destruct (Hg _ _ Hn) as (n' & Hn'%lookup_lt_Some & _). lia.
Qed.

Lemma output_grows_with_input_witness :
  ∃ out, processExcelToTreeJSON counter (take 2 shared_rows) = Some out ∧
         length out ≤ length shared_output ∧
         ∀ j n, out !! j = Some n →
           ∃ n', shared_output !! j = Some n' ∧ core n' = core n ∧
                 _child n `prefix_of` _child n'.
Proof.
  exact (output_grows_with_input counter (take 2 shared_rows)
           (drop 2 shared_rows) shared_output shared_run).
Defined.

(** ** White space around a level cell *)

(** The row with its level cells trimmed. *)
Definition trim_cell (v : value) : value :=
  match v with
  | VStr s => VStr (trim s)
  | _ => v
  end.

Definition trim_levels (row : Row) : Row :=
  foldr (λ l r, alter trim_cell l r) row hierarchyLevels.

Lemma lookup_foldr_alter (f : value → value) (ls : list string) (row : Row)
    (k : string) :
  NoDup ls →
  foldr (λ l r, alter f l r) row ls !! k =
  if decide (k ∈ ls) then f <$> row !! k else row !! k.
Proof.
  induction 1 as [|l ls Hl Hnd IH]; [done|]. cbn [foldr].
  destruct (decide (k = l)) as [->|Hk].
  - rewrite lookup_alter_eq, IH.
    rewrite (decide_True (P := l ∈ l :: ls)) by constructor.
    by rewrite decide_False.
  - rewrite lookup_alter_ne, IH by done.
    destruct (decide (k ∈ ls)) as [Hin|Hin].
    + rewrite decide_True; [done|]. by constructor.
    + rewrite decide_False; [done|]. by intros [?|?]%elem_of_cons.
Qed.

Lemma row_get_trim_levels (row : Row) (k : string) :
  row_get (trim_levels row) k =
  if decide (k ∈ hierarchyLevels) then trim_cell (row_get row k)
  else row_get row k.
Proof.
  unfold row_get, trim_levels.
  rewrite lookup_foldr_alter by apply NoDup_hierarchyLevels.
  destruct (decide _); [|done]. by destruct (row !! k).
Qed.

Lemma new_node_trim_levels (row : Row) (l v : string) (prev : option string)
    (nodeId : string) :
  new_node (trim_levels row) l v prev nodeId = new_node row l v prev nodeId.
Proof.
  unfold new_node. rewrite !row_get_trim_levels.
  rewrite !decide_False; [done|..];
    apply (bool_decide_unpack _); vm_compute; exact I.
Qed.

Lemma forEach_ext {A S : Type} (f g : S → A → option S) (l : list A) (s : S) :
  (∀ s' x, x ∈ l → f s' x = g s' x) → forEach f l s = forEach g l s.
Proof.
  revert s. induction l as [|x l IH]; intros s H; simpl; [done|].
  rewrite (H s x) by constructor.
  destruct (g s x); [|done]. apply IH. intros s' y Hy. apply H. by constructor.
Qed.

Lemma forEach_fmap {A B S : Type} (f : S → B → option S) (h : A → B)
    (l : list A) (s : S) :
  forEach f (h <$> l) s = forEach (λ s' x, f s' (h x)) l s.
Proof.
  revert s. induction l as [|x l IH]; intros s; simpl; [done|].
  destruct (f s (h x)); [apply IH|done].
Qed.

Lemma trim_empty_inv (raw : string) : trim raw ≠ "" → raw ≠ "".
Proof. by intros H ->. Qed.

Lemma level_step_trim_levels (rnd : nat → N) (row : Row)
    (c : build_state * option string) (l : string) :
  l ∈ hierarchyLevels →
  level_step rnd (trim_levels row) c l = level_step rnd row c l.
Proof.
  intros Hl. unfold level_step.
  rewrite row_get_trim_levels, decide_True by done.
  destruct (row_get row l) as [|raw|z|b|ms]; try done.
  cbn [trim_cell]. rewrite trim_idem.
  destruct (decide (trim raw = "")) as [E|E].
  - by rewrite E, (bool_decide_eq_true_2 ("" = "")), !orb_true_r.
  - rewrite (bool_decide_eq_false_2 (trim raw = "")) by done.
    rewrite (bool_decide_eq_false_2 (raw = "")) by (by apply trim_empty_inv).
    cbn [orb]. f_equal. destruct c as [st prev]. unfold visit.
    rewrite trim_idem.
    destruct (idMap st !! compositeKey l (trim raw) prev); [done|].
    unfold create. by rewrite new_node_trim_levels.
Qed.

Lemma process_row_trim_levels (rnd : nat → N) (st : build_state) (row : Row) :
  process_row rnd st (trim_levels row) = process_row rnd st row.
Proof.
  unfold process_row. f_equal. apply forEach_ext.
  intros c l Hl. by apply level_step_trim_levels.
Qed.

(** X7 — white space around the text of a level cell is never seen:
    trimming every level cell of every row beforehand changes nothing,
    neither the nodes, nor their order, nor the ids they get, nor whether
    the run fails. *)
Theorem surrounding_white_space_is_ignored (rnd : nat → N)
    (rows : list Row) :
  processExcelToTreeJSON rnd (trim_levels <$> rows) =
  processExcelToTreeJSON rnd rows.
Proof.
  unfold processExcelToTreeJSON. f_equal. rewrite forEach_fmap.
  apply forEach_ext. intros st row _. apply process_row_trim_levels.
Qed.

(** ** The size of the output *)

Section Size.

Variable rnd : nat → N.

(** The titles one row contributes. *)
Definition row_titles (row : Row) (levels : list string) : list string :=
  levels ≫= λ l, option_list (cell_title row l).

Lemma row_titles_snoc (row : Row) (pre : list string) (l : string) :
  length (row_titles row (pre ++ [l])) =
  length (row_titles row pre) + length (option_list (cell_title row l)).
Proof.
  unfold row_titles. rewrite bind_app, length_app. f_equal.
  cbn [mbind list_bind]. by rewrite app_nil_r.
Qed.

Lemma row_titles_length (row : Row) (levels : list string) :
  length (row_titles row levels) ≤ length levels.
Proof.
  induction levels as [|l levels IH]; [done|].
  change (row_titles row (l :: levels)) with
    (option_list (cell_title row l) ++ row_titles row levels).
  rewrite length_app. cbn [length].
  destruct (cell_title row l); cbn [option_list option_rect length]; lia.
Qed.

Lemma titles_snoc (rows : list Row) (row : Row) :
  length (titles (rows ++ [row])) =
  length (titles rows) + length (row_titles row hierarchyLevels).
Proof.
  unfold titles. rewrite bind_app, length_app. f_equal.
  cbn [mbind list_bind]. by rewrite app_nil_r.
Qed.

Lemma size_level_step (row : Row) (c c' : build_state * option string)
    (l : string) :
  level_step rnd row c l = Some c' →
  length (outputNodes c'.1) ≤
  length (outputNodes c.1) + length (option_list (cell_title row l)).
Proof.
  intros Hstep.
  destruct (level_step_cases rnd _ _ _ _ Hstep)
    as [(_ & _ & ->)|(raw & _ & -> & _ & ->)]; [lia|].
  destruct c as [s prev].
  destruct (visit rnd row l raw (s, prev)) as [s' prev'] eqn:Hv.
  destruct (visit_cases rnd _ _ _ _ _ _ _ Hv)
    as [(x & _ & -> & _)|(_ & -> & _)]; cbn [fst]; [lia|].
  rewrite create_length. cbn [option_list option_rect length]. lia.
Qed.

Lemma size_process_row (st st' : build_state) (row : Row) :
  process_row rnd st row = Some st' →
  length (outputNodes st') ≤
  length (outputNodes st) + length (row_titles row hierarchyLevels).
Proof.
  unfold process_row.
  destruct (forEach (level_step rnd row) hierarchyLevels (st, None))
    as [c'|] eqn:Hrun; [|done].
  intros [= <-]. revert Hrun.
  apply (forEach_invariant (level_step rnd row)
           (λ pre c, length (outputNodes c.1) ≤
                     length (outputNodes st) + length (row_titles row pre)));
    [|simpl; lia].
  intros done l post c c1 _ Hc Hstep%size_level_step.
  rewrite row_titles_snoc. lia.
Qed.

Lemma size_run (rows : list Row) (st : build_state) :
  forEach (process_row rnd) rows initial_state = Some st →
  length (outputNodes st) ≤ length (titles rows).
Proof.
  apply (forEach_invariant (process_row rnd)
           (λ done s, length (outputNodes s) ≤ length (titles done)));
    [|simpl; lia].
  intros done row post s s' _ Hs Hstep%size_process_row.
  rewrite titles_snoc. lia.
Qed.

End Size.

(** X8 — the nodes come from the cells: the title of every node is the
    trimmed text of a populated level cell of the input, and the output
    has at most as many nodes as the input has populated level cells (at
    most five for each row). *)
Theorem nodes_come_from_cells (rnd : nat → N) (rows : list Row)
    (out : list node) :
  processExcelToTreeJSON rnd rows = Some out →
  Forall (λ n, title n ∈ titles rows) out ∧
  length out ≤ length (titles rows) ∧
  length (titles rows) ≤ 5 * length rows.
Proof.
  intros Hrun. split; [|split].
  - apply made_by_run in Hrun. rewrite Forall_fmap in Hrun.
    eapply Forall_impl; [exact Hrun|].
    intros n (row & l & raw & prev & nodeId & Hrow & Hl & Hraw & Hne & Hn).
    destruct (node_of_core _ _ Hn) as (-> & _). cbn [title new_node].
    apply (elem_of_titles rows row l); [done..|].
    unfold cell_title. rewrite Hraw.
    rewrite (bool_decide_eq_false_2 (raw = "")) by (by apply trim_empty_inv).
    by rewrite (bool_decide_eq_false_2 (trim raw = "")).
  - revert Hrun. unfold processExcelToTreeJSON.
    destruct (forEach (process_row rnd) rows initial_state) as [st|] eqn:E;
      [|done].
    intros [= <-]. by apply (size_run rnd).
  - clear Hrun. induction rows as [|row rows IH]; [simpl; lia|].
    change (titles (row :: rows)) with
      (row_titles row hierarchyLevels ++ titles rows).
    rewrite length_app. cbn [length].
    pose proof (row_titles_length row hierarchyLevels) as Hle.
    change (length hierarchyLevels) with 5 in Hle. lia.
Qed.

Lemma nodes_come_from_cells_witness :
  Forall (λ n, title n ∈ titles shared_rows) shared_output ∧
  length shared_output ≤ length (titles shared_rows) ∧
  length (titles shared_rows) ≤ 5 * length shared_rows.
Proof.
  exact (nodes_come_from_cells counter shared_rows shared_output shared_run).
Defined.

(** ** Rows that repeat a path *)

(** Walking the levels of a row with look-ups only: the value of
    [previousLevelId] after the levels [ls] when every key met is already
    in [idMap], [None] when some key is not. *)
Fixpoint resolve (m : gmap string string) (row : Row) (ls : list string)
    (previousLevelId : option string) : option (option string) :=
  match ls with
  | [] => Some previousLevelId
  | l :: ls' =>
      match cell_title row l with
      | None => resolve m row ls' previousLevelId
      | Some v =>
          match m !! compositeKey l v previousLevelId with
          | Some x => resolve m row ls' (Some x)
          | None => None
          end
      end
  end.

Lemma resolve_ext (m : gmap string string) (row row' : Row) (ls : list string)
    (prev : option string) :
  Forall (λ l, cell_title row l = cell_title row' l) ls →
  resolve m row ls prev = resolve m row' ls prev.
Proof.
  intros Hall. revert prev.
  induction Hall as [|l ls Hl Hls IH]; intros prev; [done|].
  cbn [resolve]. rewrite Hl. destruct (cell_title row' l) as [v|]; [|done].
  destruct (m !! compositeKey l v prev); [apply IH|done].
Qed.

Section Repeat.

Variable rnd : nat → N.

Lemma idMap_level_step (row : Row) (c c' : build_state * option string)
    (l : string) :
  level_step rnd row c l = Some c' → idMap c.1 ⊆ idMap c'.1.
Proof.
  intros Hstep.
  destruct (level_step_cases rnd _ _ _ _ Hstep)
    as [(_ & _ & ->)|(raw & _ & _ & _ & ->)]; [done|].
  destruct c as [s prev].
  destruct (visit rnd row l raw (s, prev)) as [s' prev'] eqn:Hv.
  destruct (visit_cases rnd _ _ _ _ _ _ _ Hv)
    as [(x & _ & -> & _)|(Hnone & -> & _)]; [done|].
  cbn [fst create idMap]. by apply insert_subseteq.
Qed.

Lemma idMap_levels (row : Row) (ls : list string)
    (c c' : build_state * option string) :
  forEach (level_step rnd row) ls c = Some c' → idMap c.1 ⊆ idMap c'.1.
Proof.
  apply (forEach_preserves (level_step rnd row)
           (λ c1 c2, idMap c1.1 ⊆ idMap c2.1)).
  - done.
  - intros c1 c2 c3 H12 H23. by etrans.
  - intros c1 l c2. apply idMap_level_step.
Qed.

Lemma idMap_process_row (st st' : build_state) (row : Row) :
  process_row rnd st row = Some st' → idMap st ⊆ idMap st'.
Proof.
  unfold process_row.
  destruct (forEach (level_step rnd row) hierarchyLevels (st, None))
    as [c'|] eqn:Hrun; [|done].
  intros [= <-]. by apply idMap_levels in Hrun.
Qed.

Lemma idMap_rows (rows : list Row) (st st' : build_state) :
  forEach (process_row rnd) rows st = Some st' → idMap st ⊆ idMap st'.
Proof.
  apply (forEach_preserves (process_row rnd) (λ s1 s2, idMap s1 ⊆ idMap s2)).
  - done.
  - intros s1 s2 s3 H12 H23. by etrans.
  - intros s1 row s2. apply idMap_process_row.
Qed.

(** After the levels of a row were processed, all its keys are there. *)
Lemma run_resolve (row : Row) (ls : list string) (st st' : build_state)
    (prev prev' : option string) (m : gmap string string) :
  forEach (level_step rnd row) ls (st, prev) = Some (st', prev') →
  idMap st' ⊆ m → resolve m row ls prev = Some prev'.
Proof.
  revert st prev. induction ls as [|l ls IH]; intros st prev Hrun Hm.
  - cbn [forEach] in Hrun. by simplify_eq.
  - cbn [forEach] in Hrun.
    destruct (level_step rnd row (st, prev) l) as [c1|] eqn:Hstep; [|done].
    cbn [resolve].
    destruct (level_step_cases rnd _ _ _ _ Hstep)
      as [(-> & _ & ->)|(raw & _ & -> & _ & ->)]; [by eapply IH|].
    destruct (visit rnd row l raw (st, prev)) as [s1 p1] eqn:Hv.
    assert (idMap s1 !! compositeKey l (trim raw) prev = p1 ∧ is_Some p1)
      as [Hp1 [x Hx]].
    { destruct (visit_cases rnd _ _ _ _ _ _ _ Hv)
        as [(x & Hk & -> & ->)|(Hnone & -> & ->)];
        [by split; [|eexists]|].
      split; [|by eexists]. cbn [create idMap]. by rewrite lookup_insert_eq. }
    subst p1. rewrite Hx in Hrun.
    pose proof (idMap_levels _ _ _ _ Hrun) as Hgrow. cbn [fst] in Hgrow.
    rewrite (lookup_weaken _ m _ _ Hx) by (by etrans).
    by eapply IH.
Qed.

(** When all the keys of a row are there, processing it changes
    nothing. *)
Lemma resolve_run (row : Row) (ls : list string) (st : build_state)
    (prev prev' : option string) :
  Forall (cell_ok row) ls →
  resolve (idMap st) row ls prev = Some prev' →
  forEach (level_step rnd row) ls (st, prev) = Some (st, prev').
Proof.
  intros Hok. revert prev.
  induction Hok as [|l ls Hl Hls IH]; intros prev Hres.
  - cbn [resolve] in Hres. by simplify_eq.
  - cbn [forEach].
    destruct (proj2 (level_step_is_Some rnd row (st, prev) l) Hl)
      as [c1 Hstep].
    rewrite Hstep. cbn [resolve] in Hres.
    destruct (level_step_cases rnd _ _ _ _ Hstep)
      as [(Ht & _ & ->)|(raw & _ & Ht & _ & ->)]; rewrite Ht in Hres;
      [by apply IH|].
    destruct (idMap st !! compositeKey l (trim raw) prev) as [x|] eqn:Hk;
      [|done].
    destruct (visit rnd row l raw (st, prev)) as [s1 p1] eqn:Hv.
    destruct (visit_cases rnd _ _ _ _ _ _ _ Hv)
      as [(y & Hy & -> & ->)|(Hnone & _)]; [|congruence].
    apply IH. congruence.
Qed.

Lemma repeated_row_step (before : list Row) (row row' : Row)
    (st : build_state) :
  row' ∈ before →
  Forall (λ l, cell_title row l = cell_title row' l) hierarchyLevels →
  Forall (cell_ok row) hierarchyLevels →
  forEach (process_row rnd) before initial_state = Some st →
  process_row rnd st row = Some st.
Proof.
  intros (b1 & b2 & ->)%list_elem_of_split Hsame Hok.
  rewrite forEach_app.
  destruct (forEach (process_row rnd) b1 initial_state) as [s0|]; [|done].
  cbn [mbind option_bind forEach].
  destruct (process_row rnd s0 row') as [s1|] eqn:Hrow; [|done].
  intros Hrest%idMap_rows. unfold process_row in Hrow |- *.
  destruct (forEach (level_step rnd row') hierarchyLevels (s0, None))
    as [[s1' p]|] eqn:Hlevels; [|done].
  injection Hrow as ->.
  rewrite (resolve_run row hierarchyLevels st None p Hok); [done|].
  rewrite (resolve_ext _ row row' _ _ Hsame).
  by apply (run_resolve row' hierarchyLevels s0 s1).
Qed.

End Repeat.

(** X9 — a row that repeats a path adds nothing.  When the level cells
    of a row carry the same titles as those of an earlier row, the row can
    be left out: the output is the same, node for node and id for id,
    whatever the metadata of the row are.  (The level cells of the row
    must be cells the run accepts; otherwise the run fails at this
    row.) *)
Theorem repeated_path_adds_nothing (rnd : nat → N)
    (before after : list Row) (row row' : Row) :
  row' ∈ before →
  Forall (λ l, cell_title row l = cell_title row' l) hierarchyLevels →
  Forall (cell_ok row) hierarchyLevels →
  processExcelToTreeJSON rnd (before ++ row :: after) =
  processExcelToTreeJSON rnd (before ++ after).
Proof.
  intros Hin Hsame Hok. unfold processExcelToTreeJSON. f_equal.
  rewrite !forEach_app.
  destruct (forEach (process_row rnd) before initial_state) as [st|] eqn:E;
    [|done].
  cbn [mbind option_bind forEach].
  by rewrite (repeated_row_step rnd before row row' st Hin Hsame Hok E).
Qed.

Definition first_row : Row := row_of [(L1, "A"); ("Description", "first")].
Definition second_row : Row :=
  row_of [(L1, "  A "); ("Description", "second"); ("ID", "7")].

Lemma second_row_same_path :
  Forall (λ l, cell_title second_row l = cell_title first_row l)
    hierarchyLevels.
Proof. apply (bool_decide_unpack _). vm_compute. exact I. Defined.

Lemma second_row_cells_ok : Forall (cell_ok second_row) hierarchyLevels.
Proof. apply (bool_decide_unpack _). vm_compute. exact I. Defined.

Lemma repeated_path_adds_nothing_witness :
  processExcelToTreeJSON counter ([first_row] ++ second_row :: gap_rows) =
  processExcelToTreeJSON counter ([first_row] ++ gap_rows).
Proof.
  apply (repeated_path_adds_nothing counter [first_row] gap_rows
           second_row first_row);
    [constructor|exact second_row_same_path|exact second_row_cells_ok].
Defined.

(** ** The columns that are read *)

(** The metadata columns (lines 85-91). *)
Definition metadataKeys : list string :=
  [ "ID"; "Business Role"; "Fiori app UX recommendations";
    "Insights (Indicative)"; "Business stakeholders"; "Materiality";
    "Description" ].

(** Two rows that agree on the five level columns and on the seven
    metadata columns. *)
Definition same_cells (row row' : Row) : Prop :=
  Forall (λ k, row_get row k = row_get row' k)
    (hierarchyLevels ++ metadataKeys).

Lemma new_node_same_cells (row row' : Row) (l v : string)
    (prev : option string) (nodeId : string) :
  same_cells row row' →
  new_node row l v prev nodeId = new_node row' l v prev nodeId.
Proof.
  intros [_ Hmeta]%Forall_app. unfold metadataKeys in Hmeta.
  rewrite !Forall_cons in Hmeta.
  destruct Hmeta as (H1 & H2 & H3 & H4 & H5 & H6 & H7 & _).
  unfold new_node. by rewrite H1, H2, H3, H4, H5, H6, H7.
Qed.

Lemma level_step_same_cells (rnd : nat → N) (row row' : Row)
    (c : build_state * option string) (l : string) :
  same_cells row row' → l ∈ hierarchyLevels →
  level_step rnd row c l = level_step rnd row' c l.
Proof.
  intros Hsame Hl. pose proof Hsame as [Hlevels _]%Forall_app.
  rewrite Forall_forall in Hlevels. unfold level_step.
  rewrite <-(Hlevels l Hl).
  destruct (row_get row l) as [|raw|z|b|ms]; try done.
  destruct (_ || _); [done|]. f_equal.
  destruct c as [st prev]. unfold visit.
  destruct (idMap st !! compositeKey l (trim raw) prev); [done|].
  unfold create. by rewrite (new_node_same_cells row row').
Qed.

Lemma process_row_same_cells (rnd : nat → N) (row row' : Row)
    (st : build_state) :
  same_cells row row' → process_row rnd st row = process_row rnd st row'.
Proof.
  intros Hsame. unfold process_row. f_equal. apply forEach_ext.
  intros c l Hl. by apply level_step_same_cells.
Qed.

(** X10 — only twelve columns are read: the five level columns and the
    seven metadata columns.  Two sheets whose rows agree on these give
    the same output (or both fail), whatever other columns they have. *)
Theorem other_columns_are_ignored (rnd : nat → N) (rows rows' : list Row) :
  Forall2 same_cells rows rows' →
  processExcelToTreeJSON rnd rows = processExcelToTreeJSON rnd rows'.
Proof.
  intros Hall. unfold processExcelToTreeJSON. f_equal.
  generalize initial_state.
  induction Hall as [|row row' rows rows' Hrow Hrows IH]; intros st; [done|].
  cbn [forEach]. rewrite (process_row_same_cells rnd row row' st Hrow).
  destruct (process_row rnd st row'); [apply IH|done].
Qed.

Definition commented_rows : list Row :=
  [ row_of [(L1, "A"); (L3, "Z"); ("Comment", "to be reviewed")] ].

Lemma commented_rows_same_cells : Forall2 same_cells gap_rows commented_rows.
Proof. apply (bool_decide_unpack _). vm_compute. exact I. Defined.

Lemma other_columns_are_ignored_witness :
  processExcelToTreeJSON counter gap_rows =
  processExcelToTreeJSON counter commented_rows.
Proof.
  exact (other_columns_are_ignored counter gap_rows commented_rows
           commented_rows_same_cells).
Defined.

(** ** The report (lines 144-195)

    After the run, app.js reads the file it has just written and prints
    statistics.  Its input is modelled as the node list itself:
    [JSON.stringify] followed by [JSON.parse] gives back the strings the
    report looks at.  The model computes what the report prints: the count
    at each level, and the titles that several nodes bear, with their
    examples.  An object used as a dictionary ([levelCounts],
    [titleCounts]) is the list of its own properties in the order of their
    creation. *)

(** [node[level]] for the name of a hierarchy level; [None] is
    [undefined]. *)
Definition level_field (n : node) (level : string) : option string :=
  (λ p, p.2.2) <$> list_find (λ p, p.1 = level) (levelFields n).

(** Lines 149-152. *)
Definition levelCounts (output : list node) : list (string * nat) :=
  (λ level,
     (level, length (filter (λ n, level_field n level ≠ Some "") output)))
    <$> hierarchyLevels.

(** The names every object inherits from [Object.prototype]: read on an
    object that has no such property of its own, each of them gives a
    function (or, for [__proto__], the prototype), which is truthy and
    has no [push]. *)
Definition objectPrototypeKeys : list string :=
  [ "constructor"; "__defineGetter__"; "__defineSetter__"; "hasOwnProperty";
    "__lookupGetter__"; "__lookupSetter__"; "isPrototypeOf";
    "propertyIsEnumerable"; "toString"; "valueOf"; "__proto__";
    "toLocaleString" ].

(** The callback of lines 161-166.  A title that [titleCounts] has
    already is extended; a new title gets a fresh array, unless the name
    is inherited: then [!titleCounts[node.title]] is false, nothing is
    assigned, and [push] is not a function (a [TypeError], [None]). *)
Definition count_title (counts : list (string * list string)) (n : node)
  : option (list (string * list string)) :=
  match list_find (λ p, p.1 = title n) counts with
  | Some (i, (t, ids)) => Some (<[i := (t, ids ++ [_id n])]> counts)
  | None =>
      if bool_decide (title n ∈ objectPrototypeKeys) then None
      else Some (counts ++ [(title n, [_id n])])
  end.

(** Lines 160-166. *)
Definition titleCounts (output : list node)
  : option (list (string * list string)) :=
  forEach count_title output [].

(** A property name that is an array index: the decimal numeral, without
    leading zeros, of a number below 2^32 - 1. *)
Definition digit (a : ascii) : option N :=
  let c := N_of_ascii a in
  if (48 <=? c)%N && (c <=? 57)%N then Some (c - 48)%N else None.

Fixpoint decimal (s : string) (acc : N) : option N :=
  match s with
  | "" => Some acc
  | String a s' =>
      match digit a with
      | Some d => decimal s' (acc * 10 + d)%N
      | None => None
      end
  end.

Definition array_index (key : string) : option N :=
  match key with
  | "" => None
  | String a rest =>
      if bool_decide (a = "0"%char) && negb (bool_decide (rest = ""))
      then None
      else
        match decimal key 0 with
        | Some v => if (v <? 4294967295)%N then Some v else None
        | None => None
        end
  end.

(** A stable sort: [x] is put in front of the first element that it may
    precede.  [Array.prototype.sort] is stable, so that for a comparator
    [cmp] it gives [sort_by (λ x y, cmp x y ≤ 0)]. *)
Fixpoint insert_by {A : Type} (before : A → A → bool) (x : A) (l : list A)
  : list A :=
  match l with
  | [] => [x]
  | y :: l' => if before x y then x :: l else y :: insert_by before x l'
  end.

Definition sort_by {A : Type} (before : A → A → bool) (l : list A) : list A :=
  foldr (insert_by before) [] l.

(** [Object.entries]: the array indices first, in ascending order, then
    the other names in the order of their creation. *)
Definition entries {V : Type} (obj : list (string * V)) : list (string * V) :=
  sort_by (λ a b, (default 0 (array_index a.1) <=?
                   default 0 (array_index b.1))%N)
    (filter (λ p, is_Some (array_index p.1)) obj) ++
  filter (λ p, ¬ is_Some (array_index p.1)) obj.

(** Lines 169-171: [(a, b) => b[1].length - a[1].length] is not positive
    when [a] has at least as many ids as [b]. *)
Definition duplicatedItems (counts : list (string * list string))
  : list (string * list string) :=
  sort_by (λ a b, length b.2 <=? length a.2)
    (filter (λ p, 1 < length p.2) (entries counts)).

(** [hierarchyLevels.find(level => node[level] !== '')] (lines 185, 186) *)
Definition find_level (n : node) : option string :=
  snd <$> list_find (λ level, level_field n level ≠ Some "") hierarchyLevels.

(** [output.find(n => n._id === node._parent)] (line 183) *)
Definition find_parent (output : list node) (n : node) : option node :=
  snd <$> list_find (λ m, _id m = _parent n) output.

(** What is printed for one example (lines 183-188), if anything: the
    level and the title of the node, the level and the title of its
    parent. *)
Record example_line : Type := mkLine {
  nodeLevel : option string;
  nodeTitle : string;
  parentLevel : option string;
  parentTitle : string
}.

Definition print_example (output : list node) (n : node)
  : option example_line :=
  match find_parent output n with
  | Some parent =>
      Some (mkLine (find_level n) (title n) (find_level parent) (title parent))
  | None => None
  end.

(** Line 181. *)
Definition examples (output : list node) (t : string) : list node :=
  take 3 (filter (λ n, title n = t) output).

(** What is printed for one duplicated title (lines 177-193): the title,
    the number of its nodes, the lines of its examples, and how many
    instances more there are beyond three. *)
Record item_report : Type := mkItem {
  item_title : string;
  item_count : nat;
  item_examples : list example_line;
  item_more : option nat
}.

Definition report_item (output : list node) (item : string * list string)
  : item_report :=
  let '(t, ids) := item in
  mkItem t (length ids)
    (omap (print_example output) (examples output t))
    (if bool_decide (3 < length ids) then Some (length ids - 3) else None).

(** Lines 160-195: [None] when the analysis throws. *)
Definition report_duplicates (output : list node)
  : option (list item_report) :=
  counts ← titleCounts output;
  Some (report_item output <$> take 5 (duplicatedItems counts)).

(** A sheet whose titles are numerals and a title shared by three nodes. *)
Definition numeral_rows : list Row :=
  [ row_of [(L1, "b"); (L2, "10")];
    row_of [(L1, "a"); (L2, "10"); (L3, "b")];
    row_of [(L1, "7"); (L2, "10"); (L3, "b")];
    row_of [(L1, "07"); (L2, "7")] ].

Definition numeral_output : list node :=
  Eval vm_compute in default [] (processExcelToTreeJSON counter numeral_rows).

Example numeral_run :
  processExcelToTreeJSON counter numeral_rows = Some numeral_output.
Proof. vm_compute. reflexivity. Qed.

Example numeral_entries :
  (λ p, (p.1, length p.2)) <$>
    entries (default [] (titleCounts numeral_output)) =
  [("7", 2); ("10", 3); ("b", 3); ("a", 1); ("07", 1)].
Proof. vm_compute. reflexivity. Qed.

Example numeral_duplicatedItems :
  (λ p, (p.1, length p.2)) <$>
    duplicatedItems (default [] (titleCounts numeral_output)) =
  [("10", 3); ("b", 3); ("7", 2)].
Proof. vm_compute. reflexivity. Qed.

Example numeral_levelCounts :
  levelCounts numeral_output = [(L1, 4); (L2, 4); (L3, 2); (L4, 0); (L5, 0)].
Proof. vm_compute. reflexivity. Qed.

(** A title that is the name of an inherited property stops the analysis. *)
Definition inherited_rows : list Row := [row_of [(L1, "toString")]].

Definition inherited_output : list node :=
  Eval vm_compute in default [] (processExcelToTreeJSON counter inherited_rows).

Example inherited_name_stops_report :
  processExcelToTreeJSON counter inherited_rows = Some inherited_output ∧
  report_duplicates inherited_output = None.
Proof. split; vm_compute; reflexivity. Qed.

(** *** The count at each level *)

Lemma level_field_well_formed (n : node) (l level : string) :
  levelFields n =
    (λ l', (l', if bool_decide (l' = l) then title n else ""))
      <$> hierarchyLevels →
  level ∈ hierarchyLevels →
  level_field n level = Some (if bool_decide (level = l) then title n else "").
Proof.
  intros Hf [i Hi]%list_elem_of_lookup. unfold level_field. rewrite Hf.
  rewrite (proj2 (list_find_Some (λ p : string * string, p.1 = level) _ i
                    (level, if bool_decide (level = l) then title n else "")));
    [done|].
  split; [|split].
  - by rewrite list_lookup_fmap, Hi.
  - done.
  - intros j [l' w]. rewrite list_lookup_fmap.
    destruct (hierarchyLevels !! j) as [l''|] eqn:E; [|done].
    intros [= <- <-] Hlt Heq. cbn [fst] in Heq. subst l''.
    pose proof (NoDup_lookup _ _ _ _ NoDup_hierarchyLevels Hi E). lia.
Qed.

Lemma level_is_set_iff (n : node) (level : string) :
  well_formed n → level ∈ hierarchyLevels →
  level_field n level ≠ Some "" ↔ node_level n = Some level.
Proof.
  intros (Ht & _ & l & Hl & Hnl & Hf) Hlevel.
  rewrite (level_field_well_formed n l level Hf Hlevel), Hnl.
  destruct (decide (level = l)) as [->|Hne].
  - rewrite bool_decide_eq_true_2 by done. split; [done|].
    intros _ [= E]. done.
  - rewrite bool_decide_eq_false_2 by done. split; [done|].
    intros [= E]. by subst.
Qed.

Lemma find_level_well_formed (n : node) :
  well_formed n → find_level n = node_level n.
Proof.
  intros Hwf. pose proof Hwf as (Ht & _ & l & Hl & Hnl & Hf).
  apply list_elem_of_lookup in Hl as [i Hi]. unfold find_level.
  rewrite (proj2 (list_find_Some
                    (λ level, level_field n level ≠ Some "") _ i l));
    [by rewrite Hnl|].
  split; [done|]. split.
  - apply level_is_set_iff; [done| |done]. by eapply list_elem_of_lookup_2.
  - intros j l' Hj Hlt Hset.
    apply level_is_set_iff in Hset; [|done|by eapply list_elem_of_lookup_2].
    rewrite Hnl in Hset. injection Hset as ->.
    pose proof (NoDup_lookup _ _ _ _ NoDup_hierarchyLevels Hi Hj). lia.
Qed.

Lemma filter_ext_Forall {A : Type} (P Q : A → Prop)
    `{∀ x, Decision (P x)} `{∀ x, Decision (Q x)} (l : list A) :
  Forall (λ x, P x ↔ Q x) l → filter P l = filter Q l.
Proof.
  induction 1 as [|x l Hx Hl IH]; [done|].
  rewrite !filter_cons, IH.
  destruct (decide (P x)), (decide (Q x)); tauto.
Qed.

Lemma sum_list_cons (x : nat) (l : list nat) :
  sum_list (x :: l) = x + sum_list l.
Proof. reflexivity. Qed.

Lemma sum_list_fmap_plus {A : Type} (f g : A → nat) (l : list A) :
  sum_list ((λ x, f x + g x) <$> l) = sum_list (f <$> l) + sum_list (g <$> l).
Proof.
  induction l as [|x l IH]; [done|].
  rewrite !fmap_cons, !sum_list_cons, IH. lia.
Qed.

Lemma sum_list_indicator {A : Type} `{EqDecision A} (l : list A) (x : A) :
  NoDup l → x ∈ l →
  sum_list ((λ y, if decide (x = y) then 1 else 0) <$> l) = 1.
Proof.
  induction 1 as [|y l Hy Hnd IH]; [by intros ?%elem_of_nil|].
  intros Hx. rewrite fmap_cons, sum_list_cons.
  destruct (decide (x = y)) as [->|Hne].
  - rewrite (sum_list_fmap_same 0); [lia|].
    apply Forall_forall. intros z Hz. rewrite decide_False; [done|].
    by intros ->.
  - apply elem_of_cons in Hx as [?|Hx]; [done|]. by rewrite IH.
Qed.

Lemma sum_level_counts (out : list node) :
  Forall well_formed out →
  sum_list ((λ level, length (filter (λ n, node_level n = Some level) out))
              <$> hierarchyLevels) = length out.
Proof.
  induction 1 as [|n out Hn Hout IH]; cbn [length].
  - by rewrite (sum_list_fmap_same 0) by (by apply Forall_forall).
  - destruct Hn as (_ & _ & l & Hl & Hnl & _).
    trans (sum_list
             ((λ level, (if decide (l = level) then 1 else 0) +
                        length (filter (λ n, node_level n = Some level) out))
                <$> hierarchyLevels)).
    + f_equal. apply list_fmap_ext. intros _ level _.
      rewrite filter_cons, Hnl.
      destruct (decide (Some l = Some level)) as [[= ->]|Hne].
      * by rewrite decide_True.
      * rewrite decide_False; [done|]. by intros ->.
    + rewrite sum_list_fmap_plus, IH.
      by rewrite (sum_list_indicator hierarchyLevels l NoDup_hierarchyLevels Hl).
Qed.

(** X11 — the counts of the report partition the nodes: the count printed
    for a level is the number of nodes that stand at this level, and the
    five counts add up to the number of nodes. *)
Theorem level_counts_partition_the_nodes (rnd : nat → N) (rows : list Row)
    (out : list node) :
  processExcelToTreeJSON rnd rows = Some out →
  levelCounts out =
    (λ level, (level, length (filter (λ n, node_level n = Some level) out)))
      <$> hierarchyLevels ∧
  sum_list (snd <$> levelCounts out) = length out.
Proof.
  intros Hwf%run_well_formed.
  assert (levelCounts out =
    (λ level, (level, length (filter (λ n, node_level n = Some level) out)))
      <$> hierarchyLevels) as ->.
  { unfold levelCounts. apply list_fmap_ext. intros i level Hi.
    f_equal. f_equal. apply filter_ext_Forall.
    eapply Forall_impl; [exact Hwf|]. intros n Hn.
    apply level_is_set_iff; [done|]. by eapply list_elem_of_lookup_2. }
  split; [done|]. rewrite <-list_fmap_compose. by apply sum_level_counts.
Qed.

Lemma level_counts_partition_the_nodes_witness :
  levelCounts numeral_output =
    (λ level,
       (level, length (filter (λ n, node_level n = Some level) numeral_output)))
      <$> hierarchyLevels ∧
  sum_list (snd <$> levelCounts numeral_output) = length numeral_output.
Proof.
  exact (level_counts_partition_the_nodes counter numeral_rows numeral_output
           numeral_run).
Defined.

(** *** The ids of a title *)

(** The ids of the nodes titled [t], in output order. *)
Definition ids_titled (t : string) (output : list node) : list string :=
  _id <$> filter (λ n, title n = t) output.

(** Every title once, in the order of its first node, with its ids. *)
Definition grouped (output : list node) : list (string * list string) :=
  (λ t, (t, ids_titled t output)) <$> first_occurrences (title <$> output).

Lemma ids_titled_snoc (t : string) (out : list node) (n : node) :
  ids_titled t (out ++ [n]) =
  ids_titled t out ++ (if decide (title n = t) then [_id n] else []).
Proof.
  unfold ids_titled. rewrite filter_app, fmap_app. f_equal.
  rewrite filter_cons. by destruct (decide (title n = t)).
Qed.

Lemma ids_titled_absent (t : string) (out : list node) :
  t ∉ title <$> out → ids_titled t out = [].
Proof.
  intros Ht. unfold ids_titled. rewrite filter_none; [done|].
  intros n Hn <-. apply Ht. by apply list_elem_of_fmap_2.
Qed.

Lemma grouped_titles (out : list node) :
  (grouped out).*1 = first_occurrences (title <$> out).
Proof.
  unfold grouped. rewrite <-list_fmap_compose.
  rewrite <-(list_fmap_id (first_occurrences _)) at 2.
  by apply list_fmap_ext.
Qed.

Lemma list_find_grouped_old (out : list node) (i : nat) (t : string) :
  first_occurrences (title <$> out) !! i = Some t →
  list_find (λ p : string * list string, p.1 = t) (grouped out) =
  Some (i, (t, ids_titled t out)).
Proof.
  intros Hi. apply list_find_Some. split; [|split].
  - unfold grouped. by rewrite list_lookup_fmap, Hi.
  - done.
  - intros j [t' ids]. unfold grouped. rewrite list_lookup_fmap.
    destruct (first_occurrences (title <$> out) !! j) as [t''|] eqn:E; [|done].
    intros [= <- <-] Hlt Heq. cbn [fst] in Heq. subst t''.
    pose proof (NoDup_lookup _ _ _ _
                  (NoDup_first_occurrences (title <$> out)) Hi E). lia.
Qed.

Lemma list_find_grouped_new (out : list node) (t : string) :
  t ∉ title <$> out →
  list_find (λ p : string * list string, p.1 = t) (grouped out) = None.
Proof.
  intros Ht. apply list_find_None, Forall_forall.
  intros [t' ids] Hin Heq. cbn [fst] in Heq. subst t'.
  apply Ht, elem_of_first_occurrences. rewrite <-grouped_titles.
  by apply (list_elem_of_fmap_2 fst) in Hin.
Qed.

Lemma grouped_snoc_old (out : list node) (n : node) (i : nat) :
  first_occurrences (title <$> out) !! i = Some (title n) →
  grouped (out ++ [n]) =
  <[i := (title n, ids_titled (title n) out ++ [_id n])]> (grouped out).
Proof.
  intros Hi. unfold grouped at 1.
  rewrite fmap_app, list_fmap_singleton, first_occurrences_snoc.
  rewrite decide_True by (by eapply list_elem_of_lookup_2).
  apply list_eq. intros j. rewrite list_lookup_fmap.
  destruct (decide (j = i)) as [->|Hj].
  - rewrite Hi, list_lookup_insert_eq.
    + simpl. by rewrite ids_titled_snoc, decide_True.
    + unfold grouped. rewrite length_fmap. by eapply lookup_lt_Some.
  - rewrite list_lookup_insert_ne by done.
    unfold grouped. rewrite list_lookup_fmap.
    destruct (first_occurrences (title <$> out) !! j) as [t|] eqn:E; [|done].
    simpl. rewrite ids_titled_snoc, decide_False, app_nil_r; [done|].
    intros <-.
    pose proof (NoDup_lookup _ _ _ _
                  (NoDup_first_occurrences (title <$> out)) Hi E). lia.
Qed.

Lemma grouped_snoc_new (out : list node) (n : node) :
  title n ∉ title <$> out →
  grouped (out ++ [n]) = grouped out ++ [(title n, [_id n])].
Proof.
  intros Hn. unfold grouped at 1.
  rewrite fmap_app, list_fmap_singleton, first_occurrences_snoc.
  rewrite decide_False by (by rewrite elem_of_first_occurrences).
  rewrite fmap_app, list_fmap_singleton. f_equal.
  - unfold grouped. apply list_fmap_ext. intros i t Hi.
    rewrite ids_titled_snoc, decide_False, app_nil_r; [done|].
    intros <-. apply Hn, elem_of_first_occurrences.
    by eapply list_elem_of_lookup_2.
  - by rewrite ids_titled_snoc, decide_True, ids_titled_absent.
Qed.

Lemma count_title_grouped (out : list node) (n : node) :
  Forall (λ m, title m ∉ objectPrototypeKeys) out →
  count_title (grouped out) n =
  if bool_decide (title n ∈ objectPrototypeKeys) then None
  else Some (grouped (out ++ [n])).
Proof.
  intros Hout. unfold count_title.
  destruct (decide (title n ∈ title <$> out)) as [Hin|Hin].
  - pose proof Hin as Hfo. apply elem_of_first_occurrences in Hfo.
    apply list_elem_of_lookup in Hfo as [i Hi].
    rewrite (list_find_grouped_old out i (title n) Hi).
    rewrite (grouped_snoc_old out n i Hi).
    rewrite bool_decide_eq_false_2; [done|].
    apply list_elem_of_fmap in Hin as (m & Hm & Hmo). rewrite Hm.
    rewrite Forall_forall in Hout. by apply Hout.
  - rewrite (list_find_grouped_new out (title n) Hin).
    by rewrite grouped_snoc_new.
Qed.

(** When the grouping succeeds, no title is an inherited name, and the
    result is the closed form. *)
Lemma titleCounts_Some (out : list node) (counts : list (string * list string)) :
  titleCounts out = Some counts →
  counts = grouped out ∧ Forall (λ n, title n ∉ objectPrototypeKeys) out.
Proof.
  unfold titleCounts. revert counts.
  induction out as [|n out IH] using rev_ind; intros counts.
  - by intros [= <-].
  - rewrite forEach_app.
    destruct (forEach count_title out []) as [c0|]; [|done].
    destruct (IH c0 eq_refl) as [-> Hout].
    cbn [mbind option_bind forEach]. rewrite count_title_grouped by done.
    destruct (decide (title n ∈ objectPrototypeKeys)) as [Hn|Hn].
    + by rewrite (bool_decide_eq_true_2 _ Hn).
    + rewrite (bool_decide_eq_false_2 _ Hn). intros [= <-]. split; [done|].
      apply Forall_app. split; [done|]. by constructor.
Qed.

(** X12 — what the grouping of the report computes.  When a node bears a
    title that is the name of a property inherited from
    [Object.prototype] (such as [constructor] or [toString]), the analysis
    throws.  Otherwise [titleCounts] holds every title once, in the order
    of its first node, with the ids of all the nodes that bear it, in
    output order. *)
Theorem titleCounts_groups_ids_by_title (out : list node) :
  titleCounts out =
  if bool_decide (Exists (λ n, title n ∈ objectPrototypeKeys) out) then None
  else Some ((λ t, (t, _id <$> filter (λ n, title n = t) out))
               <$> first_occurrences (title <$> out)).
Proof.
  change (titleCounts out =
          if bool_decide (Exists (λ n, title n ∈ objectPrototypeKeys) out)
          then None else Some (grouped out)).
  unfold titleCounts. induction out as [|n out IH] using rev_ind.
  - rewrite bool_decide_eq_false_2; [done|]. by intros ?%Exists_nil.
  - rewrite forEach_app, IH.
    destruct (decide (Exists (λ n, title n ∈ objectPrototypeKeys) out))
      as [Hex|Hex].
    + rewrite (bool_decide_eq_true_2 _ Hex).
      rewrite bool_decide_eq_true_2; [done|]. apply Exists_app. by left.
    + rewrite (bool_decide_eq_false_2 _ Hex). cbn [mbind option_bind forEach].
      rewrite count_title_grouped
        by (apply Forall_forall; intros m Hm Hbad; apply Hex;
            apply Exists_exists; eauto).
      destruct (decide (title n ∈ objectPrototypeKeys)) as [Hn|Hn].
      * rewrite (bool_decide_eq_true_2 _ Hn).
        rewrite bool_decide_eq_true_2; [done|].
        apply Exists_app. right. by constructor.
      * rewrite (bool_decide_eq_false_2 _ Hn), bool_decide_eq_false_2; [done|].
        intros [?|[?|?%Exists_nil]%Exists_cons]%Exists_app; done.
Qed.

(** *** Sorting *)

Lemma insert_by_Permutation {A : Type} (before : A → A → bool) (x : A)
    (l : list A) :
  insert_by before x l ≡ₚ x :: l.
Proof.
  induction l as [|y l IH]; [done|]. cbn [insert_by].
  destruct (before x y); [done|]. rewrite IH. apply Permutation_swap.
Qed.

Lemma sort_by_Permutation {A : Type} (before : A → A → bool) (l : list A) :
  sort_by before l ≡ₚ l.
Proof.
  induction l as [|x l IH]; [done|].
  change (sort_by before (x :: l)) with (insert_by before x (sort_by before l)).
  by rewrite insert_by_Permutation, IH.
Qed.

Section Sorted.

Context {A : Type} (before : A → A → bool) (R : A → A → Prop).
Hypothesis before_R : ∀ x y, before x y = true ↔ R x y.
Hypothesis R_total : ∀ x y, R x y ∨ R y x.
Hypothesis R_trans : ∀ x y z, R x y → R y z → R x z.

Lemma insert_by_sorted (x : A) (l : list A) :
  StronglySorted R l → StronglySorted R (insert_by before x l).
Proof.
  induction 1 as [|y l Hl IH Hy]; cbn [insert_by].
  - repeat constructor.
  - destruct (before x y) eqn:E.
    + apply before_R in E. constructor; [by constructor|].
      constructor; [done|]. eapply Forall_impl; [exact Hy|].
      intros z. by apply R_trans.
    + assert (R y x) as Hyx.
      { destruct (R_total x y) as [H%before_R|H]; [congruence|done]. }
      constructor; [done|]. rewrite insert_by_Permutation. by constructor.
Qed.

Lemma sort_by_sorted (l : list A) : StronglySorted R (sort_by before l).
Proof.
  induction l as [|x l IH]; [constructor|].
  change (sort_by before (x :: l)) with (insert_by before x (sort_by before l)).
  by apply insert_by_sorted.
Qed.

End Sorted.

(** The sort is stable: elements that may precede one another keep their
    order. *)
Lemma insert_by_filter {A : Type} (before : A → A → bool) (P : A → Prop)
    `{∀ x, Decision (P x)} (x : A) (l : list A) :
  (∀ y z, P y → P z → before y z = true) →
  filter P (insert_by before x l) = filter P (x :: l).
Proof.
  intros HP. induction l as [|y l IH]; [done|]. cbn [insert_by].
  destruct (before x y) eqn:E; [done|].
  rewrite (filter_cons _ y), IH, !(filter_cons _ x), (filter_cons _ y).
  destruct (decide (P x)) as [Hx|Hx]; [|done].
  destruct (decide (P y)) as [Hy|Hy]; [|done].
  rewrite HP in E by done. done.
Qed.

Lemma sort_by_filter {A : Type} (before : A → A → bool) (P : A → Prop)
    `{∀ x, Decision (P x)} (l : list A) :
  (∀ y z, P y → P z → before y z = true) →
  filter P (sort_by before l) = filter P l.
Proof.
  intros HP. induction l as [|x l IH]; [done|].
  change (sort_by before (x :: l)) with (insert_by before x (sort_by before l)).
  rewrite insert_by_filter by done. by rewrite !filter_cons, IH.
Qed.

Lemma entries_Permutation {V : Type} (obj : list (string * V)) :
  entries obj ≡ₚ obj.
Proof.
  unfold entries. rewrite sort_by_Permutation. apply filter_app_complement.
Qed.

(** *** The titles that several nodes bear *)

Lemma elem_of_grouped (out : list node) (t : string) (ids : list string) :
  (t, ids) ∈ grouped out ↔ t ∈ title <$> out ∧ ids = ids_titled t out.
Proof.
  unfold grouped. rewrite list_elem_of_fmap. split.
  - intros (t' & [= ? ?] & Hin). rewrite elem_of_first_occurrences in Hin.
    by subst.
  - intros [Hin ->]. exists t. split; [done|].
    by apply elem_of_first_occurrences.
Qed.

Lemma ids_titled_present (t : string) (out : list node) :
  ids_titled t out ≠ [] → t ∈ title <$> out.
Proof.
  intros Hne. destruct (decide (t ∈ title <$> out)) as [?|Hn]; [done|].
  by apply ids_titled_absent in Hn.
Qed.

Lemma duplicatedItems_grouped (out : list node) :
  let d := duplicatedItems (grouped out) in
  (∀ t ids, (t, ids) ∈ d ↔ ids = ids_titled t out ∧ 1 < length ids) ∧
  NoDup d.*1 ∧
  StronglySorted (λ a b, length b.2 ≤ length a.2) d ∧
  ∀ k, filter (λ p, length p.2 = k) d =
       filter (λ p, length p.2 = k)
         (filter (λ p, 1 < length p.2) (entries (grouped out))).
Proof.
  intros d. unfold d, duplicatedItems. split; [|split; [|split]].
  - intros t ids.
    rewrite sort_by_Permutation, list_elem_of_filter, entries_Permutation.
    rewrite elem_of_grouped. cbn [snd]. split.
    + by intros (? & _ & ?).
    + intros [-> Hlen]. split; [done|]. split; [|done].
      apply ids_titled_present. intros E. rewrite E in Hlen. simpl in Hlen. lia.
  - rewrite sort_by_Permutation.
    apply (sublist_NoDup _ (entries (grouped out)).*1).
    + rewrite entries_Permutation, grouped_titles.
      apply NoDup_first_occurrences.
    + apply fmap_sublist, sublist_filter.
  - apply (sort_by_sorted (λ a b : string * list string,
                             length b.2 <=? length a.2)).
    + intros x y. apply Nat.leb_le.
    + intros x y. lia.
    + intros x y z. lia.
  - intros k. apply sort_by_filter.
    intros y z Hy Hz. apply Nat.leb_le. lia.
Qed.

(** X13 — the duplicated items of the report.  When the grouping
    succeeds, a title is listed exactly when at least two nodes bear it,
    once, together with the ids of all the nodes that bear it in output
    order; the list is sorted by the number of ids, largest first; and
    titles with the same number of ids stand in the order of
    [Object.entries] (numerals first, then first appearance). *)
Theorem duplicated_items_are_shared_titles (out : list node)
    (counts : list (string * list string)) :
  titleCounts out = Some counts →
  (∀ t ids, (t, ids) ∈ duplicatedItems counts ↔
            ids = _id <$> filter (λ n, title n = t) out ∧ 1 < length ids) ∧
  NoDup (duplicatedItems counts).*1 ∧
  StronglySorted (λ a b, length b.2 ≤ length a.2) (duplicatedItems counts) ∧
  ∀ k, filter (λ p, length p.2 = k) (duplicatedItems counts) =
       filter (λ p, length p.2 = k)
         (filter (λ p, 1 < length p.2) (entries counts)).
Proof.
  intros [-> _]%titleCounts_Some. apply duplicatedItems_grouped.
Qed.

Example numeral_titleCounts :
  titleCounts numeral_output = Some (grouped numeral_output).
Proof. vm_compute. reflexivity. Qed.

Lemma duplicated_items_are_shared_titles_witness :
  (∀ t ids, (t, ids) ∈ duplicatedItems (grouped numeral_output) ↔
            ids = _id <$> filter (λ n, title n = t) numeral_output ∧
            1 < length ids) ∧
  NoDup (duplicatedItems (grouped numeral_output)).*1 ∧
  StronglySorted (λ a b, length b.2 ≤ length a.2)
    (duplicatedItems (grouped numeral_output)) ∧
  ∀ k, filter (λ p, length p.2 = k) (duplicatedItems (grouped numeral_output)) =
       filter (λ p, length p.2 = k)
         (filter (λ p, 1 < length p.2) (entries (grouped numeral_output))).
Proof.
  exact (duplicated_items_are_shared_titles numeral_output
           (grouped numeral_output) numeral_titleCounts).
Defined.

(** *** The examples *)

Lemma run_ids (rnd : nat → N) (rows : list Row) (out : list node)
    (i : nat) (n : node) :
  processExcelToTreeJSON rnd rows = Some out → out !! i = Some n →
  _id n = generateObjectId rnd i.
Proof.
  intros (st & <- & _ & [Hb _] & _)%run_final Hn. by eapply output_id.
Qed.

Lemma find_parent_found (out : list node) (n p : node) (i : nat) :
  distinct_ids out → out !! i = Some p → _id p = _parent n →
  find_parent out n = Some p.
Proof.
  intros Hnd Hp Hid. unfold find_parent.
  rewrite (proj2 (list_find_Some (λ m, _id m = _parent n) out i p)); [done|].
  split; [done|]. split; [done|].
  intros j m Hm Hlt Hmid.
  assert (j = i); [|lia].
  apply (NoDup_lookup (_id <$> out) j i (_parent n) Hnd).
  - by rewrite list_lookup_fmap, Hm, <-Hmid.
  - by rewrite list_lookup_fmap, Hp, <-Hid.
Qed.

Lemma find_parent_none (rnd : nat → N) (rows : list Row) (out : list node)
    (n : node) :
  processExcelToTreeJSON rnd rows = Some out → _parent n = "" →
  find_parent out n = None.
Proof.
  intros Hrun Hpar. unfold find_parent.
  rewrite (proj2 (list_find_None (λ m, _id m = _parent n) out)); [done|].
  apply Forall_forall. intros m [i Hm]%list_elem_of_lookup.
  rewrite Hpar, (run_ids _ _ _ _ _ Hrun Hm).
  apply generateObjectId_nonempty.
Qed.

(** X14 — the example lines of the report.  In a run with pairwise
    distinct ids, nothing is printed for a node without a parent; for a
    node with a parent, the line names the level and the title of the
    node and the level and the title of its parent, which is an earlier
    node of the output, at a lower rank. *)
Theorem example_line_names_the_parent (rnd : nat → N) (rows : list Row)
    (out : list node) (j : nat) (n : node) :
  processExcelToTreeJSON rnd rows = Some out → distinct_ids out →
  out !! j = Some n →
  match print_example out n with
  | None => _parent n = ""
  | Some line =>
      _parent n ≠ "" ∧
      ∃ i p, i < j ∧ out !! i = Some p ∧ _id p = _parent n ∧
             node_rank p < node_rank n ∧
             line = mkLine (node_level n) (title n) (node_level p) (title p)
  end.
Proof.
  intros Hrun Hnd Hn.
  pose proof (run_well_formed _ _ _ Hrun) as Hwf. rewrite Forall_forall in Hwf.
  destruct (provenance_out _ _ _ _ _ Hrun Hn)
    as (row & pre & l & post & _ & Hlv & Hl & _ & _ & Hlink).
  unfold print_example.
  destruct (last_populated row pre) as [l'|] eqn:Hlast.
  - destruct Hlink as (Hne & i & p & Hi & Hp & Hid & Hpl).
    rewrite (find_parent_found out n p i Hnd Hp Hid).
    split; [done|]. exists i, p. repeat (split; [done|]).
    rewrite !find_level_well_formed
      by (apply Hwf; by eapply list_elem_of_lookup_2).
    split; [|done].
    destruct (last_populated_Some _ _ _ Hlast) as [Hin _].
    pose proof (level_rank_below _ _ _ _ Hlv Hin) as Hbelow.
    pose proof (level_rank_split _ _ _ Hlv) as Hrank.
    unfold node_rank. rewrite Hl, Hpl, Hrank. lia.
  - by rewrite (find_parent_none rnd rows out n Hrun Hlink).
Qed.

Lemma distinct_ids_numeral : distinct_ids numeral_output.
Proof. apply (bool_decide_unpack _). vm_compute. exact I. Defined.

Lemma example_line_names_the_parent_witness :
  ∃ z, numeral_output !! 1 = Some z ∧
    match print_example numeral_output z with
    | None => _parent z = ""
    | Some line =>
        _parent z ≠ "" ∧
        ∃ i p, i < 1 ∧ numeral_output !! i = Some p ∧ _id p = _parent z ∧
               node_rank p < node_rank z ∧
               line = mkLine (node_level z) (title z) (node_level p) (title p)
    end.
Proof.
  eexists. split; [reflexivity|].
  apply (example_line_names_the_parent counter numeral_rows numeral_output 1);
    [exact numeral_run|exact distinct_ids_numeral|reflexivity].
Defined.

(** * Parents, and the row that creates a node *)

(** Node [j] of the output appears while row [r] is processed: the run on
    the first [r] rows gives at most [j] nodes, the run on the first
    [r + 1] rows gives more. *)
Definition created_in (rnd : nat → N) (rows : list Row) (r j : nat) : Prop :=
  match processExcelToTreeJSON rnd (take r rows),
        processExcelToTreeJSON rnd (take (S r) rows) with
  | Some out0, Some out1 => length out0 ≤ j < length out1
  | _, _ => False
  end.

(** The deduplication index read off the output: the key under which
    each node is registered, with the id of the node. *)
Definition key_index (out : list node) : gmap string string :=
  list_to_map ((λ n, (registered_key n, _id n)) <$> out).

(** The node of the output that has the deduplication key [k]. *)
Definition node_with_key (out : list node) (k : dedup_key) : option node :=
  snd <$> list_find (λ n, node_key n = k) out.

(** Walking the levels [ls] of a row through the output by deduplication
    key: at every level the row populates, the node with this level, the
    title of the cell and the parent reached so far; the result is the id
    of the last node reached ([None] inside when the row populates none
    of [ls], [None] outside when some key has no node). *)
Fixpoint follow (out : list node) (row : Row) (ls : list string)
    (parentId : option string) : option (option string) :=
  match ls with
  | [] => Some parentId
  | l :: ls' =>
      match cell_title row l with
      | None => follow out row ls' parentId
      | Some v =>
          match node_with_key out (Some l, v, parentId) with
          | Some p => follow out row ls' (Some (_id p))
          | None => None
          end
      end
  end.

Lemma resolve_app (m : gmap string string) (row : Row) (l1 l2 : list string)
    (prev : option string) :
  resolve m row (l1 ++ l2) prev = resolve m row l1 prev ≫= resolve m row l2.
Proof.
  revert prev. induction l1 as [|l l1 IH]; intros prev; [done|].
  cbn [app resolve]. destruct (cell_title row l) as [v|]; [|apply IH].
  destruct (m !! compositeKey l v prev); [apply IH|done].
Qed.

(** The last look-up of a walk. *)
Lemma resolve_last (m : gmap string string) (row : Row) (pre : list string)
    (res : option string) :
  resolve m row pre None = Some res →
  match last_populated row pre with
  | None => res = None
  | Some l' =>
      ∃ pre' mid v q x,
        pre = pre' ++ l' :: mid ∧ cell_title row l' = Some v ∧
        resolve m row pre' None = Some q ∧
        m !! compositeKey l' v q = Some x ∧ res = Some x
  end.
Proof.
  revert res. induction pre as [|l pre IH] using rev_ind; intros res.
  - cbn [resolve]. by intros [= <-].
  - rewrite resolve_app, last_populated_snoc.
    destruct (resolve m row pre None) as [q|] eqn:Hq; [|done].
    cbn [mbind option_bind resolve].
    destruct (cell_title row l) as [v|] eqn:Hv.
    + destruct (m !! compositeKey l v q) as [x|] eqn:Hx; [|done].
      intros [= <-]. by exists pre, [], v, q, x.
    + intros [= <-]. specialize (IH q eq_refl).
      destruct (last_populated row pre) as [l'|]; [|done].
      destruct IH as (pre' & mid & v & q' & x & -> & ? & ? & ? & ?).
      exists pre', (mid ++ [l]), v, q', x. by rewrite <-app_assoc.
Qed.

(** What a walk ends with is what it started with or a value of the
    index. *)
Lemma resolve_value (m : gmap string string) (row : Row) (ls : list string)
    (prev res : option string) :
  resolve m row ls prev = Some res →
  res = prev ∨ ∃ k x, m !! k = Some x ∧ res = Some x.
Proof.
  revert prev. induction ls as [|l ls IH]; intros prev; cbn [resolve].
  - intros [= <-]. by left.
  - destruct (cell_title row l) as [v|]; [|apply IH].
    destruct (m !! compositeKey l v prev) as [x|] eqn:Hx; [|done].
    intros [->|H]%IH; [|by right]. right. by exists (compositeKey l v prev), x.
Qed.

Lemma registered_key_core (n : node) : registered_key (core n) = registered_key n.
Proof. reflexivity. Qed.

Lemma node_key_core (n : node) : node_key (core n) = node_key n.
Proof. reflexivity. Qed.

Section Creation.

Variable rnd : nat → N.
Local Abbreviation gen := (generateObjectId rnd).

Lemma NoDup_registered_run (rows : list Row) (st : build_state) :
  forEach (process_row rnd) rows initial_state = Some st →
  NoDup (registered_key <$> outputNodes st).
Proof.
  intros [Hkeys _]%registered_run.
  rewrite <-registered_key_cores, Hkeys. apply NoDup_first_occurrences.
Qed.

Lemma NoDup_node_key_run (rows : list Row) (st : build_state) :
  forEach (process_row rnd) rows initial_state = Some st →
  NoDup (node_key <$> outputNodes st).
Proof.
  intros Hnd%NoDup_registered_run.
  apply (NoDup_fmap_1
           (λ k : dedup_key, compositeKey (default "" k.1.1) k.1.2 k.2)).
  by rewrite <-list_fmap_compose.
Qed.

(** [idMap] is the index of the output. *)
Lemma key_index_run (rows : list Row) (st : build_state) :
  forEach (process_row rnd) rows initial_state = Some st →
  idMap st = key_index (outputNodes st).
Proof.
  intros Hrun. pose proof (NoDup_registered_run _ _ Hrun) as Hnd.
  destruct (full_row_inv_run rnd _ _ Hrun) as (_ & [Hb _] & _).
  assert (NoDup ((λ n, (registered_key n, _id n)) <$> outputNodes st).*1)
    as Hnd' by (by rewrite <-list_fmap_compose).
  apply map_eq. intros k. apply option_eq. intros x.
  unfold key_index. rewrite <-(elem_of_list_to_map _ _ _ Hnd').
  rewrite list_elem_of_fmap. split.
  - intros (i & n & l & Hn & -> & Hl & ->)%(bi_idMap_sound _ _ Hb).
    destruct (cores_lookup_inv _ _ _ Hn) as (n' & Hn' & ->).
    exists n'. split; [|by eapply list_elem_of_lookup_2].
    rewrite <-(registered_key_core n'), (registered_key_node _ l Hl).
    by rewrite (output_id rnd st i n' Hb Hn').
  - intros (n & [= -> ->] & [i Hn]%list_elem_of_lookup).
    pose proof (cores_lookup _ _ _ Hn) as Hc.
    destruct (bi_level _ _ Hb _ _ Hc) as (_ & l & _ & Hl).
    rewrite <-(registered_key_core n), (registered_key_node _ l Hl).
    rewrite (output_id rnd st i n Hb Hn).
    by apply (bi_idMap_complete _ _ Hb).
Qed.

(** The run, cut at one row. *)
Lemma run_split (rows : list Row) (st : build_state) (r : nat) (row : Row) :
  forEach (process_row rnd) rows initial_state = Some st →
  rows !! r = Some row →
  ∃ s0 s1,
    forEach (process_row rnd) (take r rows) initial_state = Some s0 ∧
    process_row rnd s0 row = Some s1 ∧
    forEach (process_row rnd) (drop (S r) rows) s1 = Some st.
Proof.
  intros Hrun Hr. rewrite <-(take_drop_middle rows r row Hr) in Hrun.
  rewrite forEach_app in Hrun.
  destruct (forEach (process_row rnd) (take r rows) initial_state)
    as [s0|]; [|done].
  cbn [mbind option_bind forEach] in Hrun.
  destruct (process_row rnd s0 row) as [s1|] eqn:Hrow; [|done].
  by exists s0, s1.
Qed.

Lemma created_in_split (rows : list Row) (r j : nat) (row : Row)
    (s0 s1 : build_state) :
  rows !! r = Some row →
  forEach (process_row rnd) (take r rows) initial_state = Some s0 →
  process_row rnd s0 row = Some s1 →
  created_in rnd rows r j ↔
  length (outputNodes s0) ≤ j < length (outputNodes s1).
Proof.
  intros Hr H0 H1. unfold created_in, processExcelToTreeJSON.
  rewrite (take_S_r _ _ _ Hr), forEach_app, H0.
  cbn [mbind option_bind forEach]. by rewrite H1.
Qed.

(** Every node appears while some row is processed. *)
Lemma creating_row (rows : list Row) (st : build_state) (j : nat) :
  forEach (process_row rnd) rows initial_state = Some st →
  j < length (outputNodes st) →
  ∃ r row, rows !! r = Some row ∧ created_in rnd rows r j.
Proof.
  revert st. induction rows as [|row rows IH] using rev_ind; intros st.
  - intros [= <-]. cbn. lia.
  - rewrite forEach_app.
    destruct (forEach (process_row rnd) rows initial_state) as [s|] eqn:Hs;
      [|done].
    cbn [mbind option_bind forEach].
    destruct (process_row rnd s row) as [s1|] eqn:Hrow; [|done].
    intros [= <-] Hj.
    destruct (decide (j < length (outputNodes s))) as [Hlt|Hge].
    + destruct (IH s eq_refl Hlt) as (r & row0 & Hr & Hc).
      exists r, row0. split; [by apply lookup_app_l_Some|].
      pose proof (lookup_lt_Some _ _ _ Hr) as Hlen.
      unfold created_in in *.
      by rewrite !take_app_le by lia.
    + exists (length rows), row. split; [by apply list_lookup_middle|].
      apply (created_in_split _ _ _ row s s1).
      * by apply list_lookup_middle.
      * by rewrite take_app_length.
      * done.
      * lia.
Qed.

Lemma grows_levels (row : Row) (ls : list string)
    (c c' : build_state * option string) :
  forEach (level_step rnd row) ls c = Some c' →
  grows (outputNodes c.1) (outputNodes c'.1).
Proof.
  apply (forEach_preserves (level_step rnd row)
           (λ c1 c2, grows (outputNodes c1.1) (outputNodes c2.1))).
  - intros c0. apply grows_refl.
  - intros c1 c2 c3. apply grows_trans.
  - intros c0 l c1. apply grows_level_step.
Qed.

(** Inside the creating row: the level at which node [j] is created. *)
Lemma creating_level (rows0 : list Row) (st0 : build_state) (row : Row)
    (j : nat) (c' : build_state * option string) :
  ∀ post pre c,
    hierarchyLevels = pre ++ post →
    full_level_inv rnd rows0 st0 row pre c →
    length (outputNodes c.1) ≤ j →
    forEach (level_step rnd row) post c = Some c' →
    j < length (outputNodes c'.1) →
    ∃ pre1 l post1 c1 c2 raw,
      hierarchyLevels = pre1 ++ l :: post1 ∧
      full_level_inv rnd rows0 st0 row pre1 c1 ∧
      length (outputNodes c1.1) = j ∧
      row_get row l = VStr raw ∧ trim raw ≠ "" ∧
      cell_title row l = Some (trim raw) ∧
      idMap c1.1 !! compositeKey l (trim raw) c1.2 = None ∧
      level_step rnd row c1 l = Some c2 ∧
      c2.1 = create rnd row l (trim raw) c1.2
               (compositeKey l (trim raw) c1.2) c1.1 ∧
      forEach (level_step rnd row) post1 c2 = Some c'.
Proof.
  induction post as [|l post IH]; intros pre c Hlv Hinv Hle Hrun Hj.
  - cbn [forEach] in Hrun. injection Hrun as <-. lia.
  - cbn [forEach] in Hrun.
    destruct (level_step rnd row c l) as [c1|] eqn:Hstep; [|done].
    pose proof (full_level_inv_step rnd _ _ _ _ _ post _ _ Hlv Hinv Hstep)
      as Hinv1.
    assert (hierarchyLevels = (pre ++ [l]) ++ post) as Hlv1
      by (by rewrite <-app_assoc).
    destruct (level_step_cases rnd _ _ _ _ Hstep)
      as [(_ & _ & ->)|(raw & Hraw & Ht & Hne & Hc1)];
      [by apply (IH (pre ++ [l]) c)|].
    destruct c as [s prev].
    destruct (visit rnd row l raw (s, prev)) as [s' prev'] eqn:Hv.
    destruct (visit_cases rnd _ _ _ _ _ _ _ Hv)
      as [(x & _ & -> & ->)|(Hnone & -> & ->)].
    + subst c1. by apply (IH (pre ++ [l]) (s, Some x)).
    + cbn [fst snd] in *.
      destruct (decide (length (outputNodes s) = j)) as [Heq|Hneq].
      * exists pre, l, post, (s, prev), c1, raw. subst c1.
        by repeat (split; [done|]).
      * subst c1. apply (IH (pre ++ [l]) _ Hlv1 Hinv1); [|done|done].
        cbn [fst]. rewrite create_length. lia.
Qed.

End Creation.

Section CreationFacts.

Variable rnd : nat → N.
Local Abbreviation gen := (generateObjectId rnd).

Lemma full_level_inv_initial (rows : list Row) (st : build_state) (row : Row) :
  full_row_inv rnd rows st → full_level_inv rnd rows st row [] (st, None).
Proof.
  intros (Hreach & [Hb Hprov] & Hch & Hkeys).
  split; [done|]. split; [|split; [done|]].
  - split; [done|]. split; [by apply provenance_mono|done].
  - intros Hun. simpl. rewrite app_nil_r. apply Hkeys.
    by apply (unmentioned_mono rnd rows [row] _ (drawn st)).
Qed.

(** Node [j] of the output: the row and the level that created it, the
    cursor [c] (state and [previousLevelId]) at that moment. *)
Lemma creation (rows : list Row) (st : build_state) (j : nat) (n : node) :
  forEach (process_row rnd) rows initial_state = Some st →
  outputNodes st !! j = Some n →
  ∃ r row pre l post c raw st0,
    rows !! r = Some row ∧ created_in rnd rows r j ∧
    hierarchyLevels = pre ++ l :: post ∧
    forEach (process_row rnd) (take r rows) initial_state = Some st0 ∧
    full_level_inv rnd (take r rows) st0 row pre c ∧
    length (outputNodes c.1) = j ∧
    cell_title row l = Some (trim raw) ∧ trim raw ≠ "" ∧
    idMap c.1 !! compositeKey l (trim raw) c.2 = None ∧
    core n = new_node row l (trim raw) c.2 (gen (drawn c.1)) ∧
    grows (outputNodes c.1) (outputNodes st) ∧
    idMap c.1 ⊆ idMap st.
Proof.
  intros Hrun Hn. pose proof (lookup_lt_Some _ _ _ Hn) as Hj.
  destruct (creating_row rnd rows st j Hrun Hj) as (r & row & Hr & Hc).
  destruct (run_split rnd rows st r row Hrun Hr) as (s0 & s1 & H0 & H1 & Hrest).
  pose proof (proj1 (created_in_split rnd rows r j row s0 s1 Hr H0 H1) Hc)
    as [Hle Hlt].
  pose proof (full_row_inv_run rnd _ _ H0) as Hfull0.
  unfold process_row in H1.
  destruct (forEach (level_step rnd row) hierarchyLevels (s0, None))
    as [c'|] eqn:Hlevels; [|done].
  injection H1 as <-.
  destruct (creating_level rnd (take r rows) s0 row j c' hierarchyLevels []
              (s0, None) eq_refl (full_level_inv_initial _ _ row Hfull0)
              Hle Hlevels Hlt)
    as (pre & l & post & c1 & c2 & raw & Hlv & Hinv & Hlen & _ & Hne & Ht &
        Hnone & Hstep & Hc2 & Hpost).
  exists r, row, pre, l, post, c1, raw, s0.
  repeat (split; [done|]).
  assert (grows (outputNodes c2.1) (outputNodes st)) as Hg2.
  { eapply grows_trans; [by eapply grows_levels|]. by eapply grows_rows. }
  split; [|split].
  - pose proof (create_cores rnd row l (trim raw) c1.2
                  (compositeKey l (trim raw) c1.2) c1.1) as Hcs.
    rewrite <-Hc2 in Hcs. fold (cores c2.1) (cores c1.1) in Hcs.
    assert (cores c2.1 !! j =
            Some (new_node row l (trim raw) c1.2 (gen (drawn c1.1)))) as Hnew.
    { rewrite Hcs. apply lookup_snoc_Some. right.
      by rewrite cores_length. }
    destruct (cores_lookup_inv _ _ _ Hnew) as (nj & Hnj & Hcore).
    destruct (Hg2 _ _ Hnj) as (n' & Hn' & Hcore' & _).
    rewrite Hn in Hn'. injection Hn' as <-. by rewrite Hcore', <-Hcore.
  - eapply grows_trans; [|exact Hg2]. by eapply grows_level_step.
  - etrans; [by eapply idMap_level_step|].
    etrans; [by eapply idMap_levels|]. by eapply idMap_rows.
Qed.

(** A row processed earlier has left its keys in [idMap]. *)
Lemma earlier_row_key (rows0 : list Row) (s0 : build_state) (r' : nat)
    (row' : Row) (pre : list string) (l : string) (post : list string)
    (v : string) (m : gmap string string) (q : option string) :
  forEach (process_row rnd) rows0 initial_state = Some s0 →
  rows0 !! r' = Some row' →
  hierarchyLevels = pre ++ l :: post →
  cell_title row' l = Some v →
  idMap s0 ⊆ m → resolve m row' pre None = Some q →
  is_Some (idMap s0 !! compositeKey l v q).
Proof.
  intros Hrun Hr Hlv Hv Hm Hres.
  destruct (run_split rnd rows0 s0 r' row' Hrun Hr)
    as (sa & sb & _ & Hrow & Hrest%idMap_rows).
  unfold process_row in Hrow.
  destruct (forEach (level_step rnd row') hierarchyLevels (sa, None))
    as [c'|] eqn:Hlevels; [|done].
  injection Hrow as <-. rewrite Hlv, forEach_app in Hlevels.
  destruct (forEach (level_step rnd row') pre (sa, None)) as [[s1 p1]|] eqn:Hpre;
    [|done].
  cbn [mbind option_bind forEach] in Hlevels.
  destruct (level_step rnd row' (s1, p1) l) as [c2|] eqn:Hstep; [|done].
  pose proof (idMap_level_step rnd _ _ _ _ Hstep) as H12.
  pose proof (idMap_levels rnd _ _ _ _ Hlevels) as H2'.
  cbn [fst] in H12.
  assert (idMap c2.1 ⊆ idMap s0) as H20 by (by etrans).
  assert (resolve m row' pre None = Some p1) as Hp1.
  { apply (run_resolve rnd row' pre sa s1 None p1 m Hpre).
    etrans; [exact H12|]. by etrans. }
  assert (q = p1) as -> by congruence.
  destruct (level_step_cases rnd _ _ _ _ Hstep)
    as [(Hnone & _)|(raw & _ & Ht & _ & ->)]; [congruence|].
  assert (v = trim raw) as -> by congruence.
  destruct (visit rnd row' l raw (s1, p1)) as [s2 p2] eqn:Hvisit.
  cbn [fst] in H20.
  destruct (visit_cases rnd _ _ _ _ _ _ _ Hvisit)
    as [(x & Hk & -> & _)|(_ & -> & _)].
  - exists x. by apply (lookup_weaken _ _ _ _ Hk).
  - exists (gen (drawn s1)).
    apply (lookup_weaken
             (idMap (create rnd row' l (trim raw) p1
                       (compositeKey l (trim raw) p1) s1))); [|done].
    cbn [create idMap]. by rewrite lookup_insert_eq.
Qed.

(** A key of the index, decoded (when no title imitates the parent part
    of a key). *)
Lemma key_decode (rows : list Row) (st : build_state) (row : Row)
    (l v : string) (prev : option string) (i : nat) (n : node) (l0 : string) :
  basic_inv rnd st → provenance rows st →
  unmentioned rnd rows (drawn st) →
  row ∈ rows → l ∈ hierarchyLevels → cell_title row l = Some v →
  (prev = None ∨ ∃ a, a < drawn st ∧ prev = Some (gen a)) →
  cores st !! i = Some n → node_level n = Some l0 →
  compositeKey l v prev = compositeKey l0 (title n) (parent_of n) →
  node_key n = (Some l, v, prev).
Proof.
  intros Hb Hprov Hun Hrow Hl Hv Hprev Hn Hl0 Hkey.
  destruct (bi_level _ _ Hb _ _ Hn) as (_ & l1 & Hl1 & Hl1').
  assert (l1 = l0) as -> by congruence.
  destruct (Hprov _ _ Hn) as (r & Hr & pre' & l2 & post' & _ & Hl2 & Ht & _).
  assert (l2 = l0) as -> by congruence.
  pose proof (bi_drawn _ _ Hb) as Hd.
  pose proof (lookup_lt_Some _ _ _ Hn) as Hi. rewrite cores_length in Hi.
  apply (compositeKey_inj rnd) in Hkey as (-> & -> & ->); try done.
  - unfold node_key. by rewrite Hl0.
  - destruct Hprev as [Hp|(a & Ha & Hp)]; [by left|].
    right. exists a. split; [done|]. intros w.
    by apply (Hun r l0 (title n) a w).
  - destruct (parent_of_cases rnd _ _ _ Hb Hn) as [E|(b & Hlt & E)];
      [by left|].
    right. exists b. split; [done|]. intros w.
    apply (Hun row l v b w); [done|done|done|lia].
Qed.

Lemma key_found (rows : list Row) (st : build_state) (row : Row)
    (l v : string) (prev : option string) (x : string) :
  basic_inv rnd st → provenance rows st →
  unmentioned rnd rows (drawn st) →
  row ∈ rows → l ∈ hierarchyLevels → cell_title row l = Some v →
  (prev = None ∨ ∃ a, a < drawn st ∧ prev = Some (gen a)) →
  idMap st !! compositeKey l v prev = Some x →
  ∃ i n, cores st !! i = Some n ∧ x = gen i ∧ node_key n = (Some l, v, prev).
Proof.
  intros Hb Hprov Hun Hrow Hl Hv Hprev Hk.
  destruct (bi_idMap_sound _ _ Hb _ _ Hk)
    as (i & n & l0 & Hn & -> & Hl0 & Hkey).
  exists i, n. split; [done|]. split; [done|].
  by apply (key_decode rows st row l v prev i n l0).
Qed.

(** The values of [idMap] are ids that were drawn. *)
Lemma resolve_drawn (st : build_state) (row : Row) (ls : list string)
    (q : option string) :
  basic_inv rnd st → resolve (idMap st) row ls None = Some q →
  q = None ∨ ∃ a, a < drawn st ∧ q = Some (gen a).
Proof.
  intros Hb [->|(k & x & Hk & ->)]%resolve_value; [by left|]. right.
  destruct (bi_idMap_sound _ _ Hb _ _ Hk) as (i & n & _ & Hn & -> & _).
  exists i. split; [|done].
  rewrite (bi_drawn _ _ Hb), <-cores_length. by eapply lookup_lt_Some.
Qed.

(** With fresh ids, walking by the keys of the index is walking by
    deduplication key. *)
Lemma follow_resolve (rows : list Row) (st : build_state) (row : Row)
    (ls : list string) (prev res : option string) :
  basic_inv rnd st → provenance rows st →
  NoDup (node_key <$> outputNodes st) →
  unmentioned rnd rows (drawn st) →
  row ∈ rows → Forall (λ l, l ∈ hierarchyLevels) ls →
  (prev = None ∨ ∃ a, a < drawn st ∧ prev = Some (gen a)) →
  resolve (idMap st) row ls prev = Some res →
  follow (outputNodes st) row ls prev = Some res.
Proof.
  intros Hb Hprov Hnd Hun Hrow Hls. revert prev.
  induction Hls as [|l ls Hl Hls IH]; intros prev Hprev; [done|].
  cbn [resolve follow].
  destruct (cell_title row l) as [v|] eqn:Hv; [|by apply IH].
  destruct (idMap st !! compositeKey l v prev) as [x|] eqn:Hk; [|done].
  destruct (key_found rows st row l v prev x Hb Hprov Hun Hrow Hl Hv Hprev Hk)
    as (i & n0 & Hn0 & -> & Hkey).
  destruct (cores_lookup_inv _ _ _ Hn0) as (n1 & Hn1 & ->).
  rewrite node_key_core in Hkey.
  assert (node_with_key (outputNodes st) (Some l, v, prev) = Some n1) as ->.
  { unfold node_with_key.
    rewrite (proj2 (list_find_Some (λ n, node_key n = (Some l, v, prev))
                      (outputNodes st) i n1)); [done|].
    split; [done|]. split; [done|]. intros j' y Hy Hlt Hykey.
    assert (j' = i); [|lia].
    apply (NoDup_lookup _ j' i (Some l, v, prev) Hnd).
    - by rewrite list_lookup_fmap, Hy, <-Hykey.
    - by rewrite list_lookup_fmap, Hn1, <-Hkey. }
  rewrite (output_id rnd st i n1 Hb Hn1).
  apply IH. right. exists i. split; [|done].
  rewrite (bi_drawn _ _ Hb). by eapply lookup_lt_Some.
Qed.

(** Where a node of the output comes from: the row during which it
    appears, the level, the walk of this row to the parent. *)
Lemma creation_out (rows : list Row) (out : list node) (j : nat) (n : node) :
  processExcelToTreeJSON rnd rows = Some out → out !! j = Some n →
  ∃ r row pre l post,
    rows !! r = Some row ∧ created_in rnd rows r j ∧
    hierarchyLevels = pre ++ l :: post ∧
    node_level n = Some l ∧ cell_title row l = Some (title n) ∧
    (∀ r' row', r' < r → rows !! r' = Some row' →
       cell_title row' l = Some (title n) →
       resolve (key_index out) row' pre None ≠ Some (parent_of n)) ∧
    resolve (key_index out) row pre None = Some (parent_of n) ∧
    (ids_unmentioned rows out → follow out row pre None = Some (parent_of n)) ∧
    match last_populated row pre with
    | None => _parent n = ""
    | Some l' =>
        _parent n ≠ "" ∧
        ∃ i p, i < j ∧ out !! i = Some p ∧ _id p = _parent n ∧
               node_level p = Some l' ∧
               (ids_unmentioned rows out → cell_title row l' = Some (title p))
    end.
Proof.
  unfold processExcelToTreeJSON.
  destruct (forEach (process_row rnd) rows initial_state) as [st|] eqn:Hrun;
    [|done].
  intros [= <-] Hn.
  destruct (creation rows st j n Hrun Hn)
    as (r & row & pre & l & post & [sc pc] & raw & st0 & Hr & Hc & Hlv & H0 &
        (Hreach & (Hb & Hprov & Hcur) & _) & Hlen & Ht & Hne & Hnone & Hcore &
        Hgrow & Hsub).
  cbn [fst snd] in *.
  destruct (full_row_inv_run rnd _ _ Hrun) as (_ & [Hbst Hprovst] & _).
  pose proof (cursor_level_ok rnd _ _ _ Hcur) as Hok.
  pose proof (normal_parent_cursor rnd _ Hok) as Hnp. cbn [snd] in Hnp.
  destruct (node_of_core _ _ Hcore) as (Htitle & Hfields & Hpar & _).
  cbn [title new_node] in Htitle.
  assert (Hl : l ∈ hierarchyLevels).
  { rewrite Hlv. apply elem_of_app. right. constructor. }
  assert (Hpre : Forall (λ l0, l0 ∈ hierarchyLevels) pre).
  { apply Forall_forall. intros l0 Hl0. rewrite Hlv. apply elem_of_app.
    by left. }
  assert (Hrow : row ∈ rows) by (by eapply list_elem_of_lookup_2).
  assert (Hpn : parent_of n = pc).
  { trans (parent_of (new_node row l (trim raw) pc (gen (drawn sc)))).
    - unfold parent_of. by rewrite Hpar.
    - by rewrite parent_of_new_node. }
  assert (Hres : ∀ m, idMap sc ⊆ m → resolve m row pre None = Some pc).
  { intros m Hm. by apply (run_resolve rnd row pre st0 sc None pc m). }
  rewrite <-(key_index_run rnd rows st Hrun), Hpn, Htitle.
  exists r, row, pre, l, post. repeat (split; [done|]).
  split; [|split; [|split; [|split; [|split]]]].
  - rewrite <-(node_level_new_node rnd row l (trim raw) pc (gen (drawn sc)) Hl Hne).
    by apply node_level_levelFields.
  - done.
  - intros r' row' Hlt Hr' Ht' Hres'.
    assert (take r rows !! r' = Some row') as Hr''
      by (by rewrite lookup_take_lt).
    assert (idMap st0 ⊆ idMap sc) as H0c.
    { by apply (idMap_levels rnd row pre (st0, None) (sc, pc)). }
    destruct (earlier_row_key (take r rows) st0 r' row' pre l post (trim raw)
                (idMap st) pc H0 Hr'' Hlv Ht') as [x Hx]; [by etrans|done|].
    apply (lookup_weaken _ (idMap sc)) in Hx; [|done]. congruence.
  - by apply Hres.
  - intros Hun.
    apply (follow_resolve rows st row pre None pc); try done.
    + by apply (NoDup_node_key_run rnd rows).
    + by apply ids_unmentioned_sound.
    + by left.
    + by apply Hres.
  - pose proof (resolve_last _ _ _ _ (Hres (idMap sc) (reflexivity _))) as Hlast.
    destruct (last_populated row pre) as [l'|] eqn:Hlp.
    + destruct Hlast as (pre' & mid & v & q & x & Hpre' & Hv & Hq & Hx & ->).
      destruct (bi_idMap_sound _ _ Hb _ _ Hx)
        as (i & p0 & l0 & Hp0 & -> & Hl0 & Hkey).
      destruct (bi_level _ _ Hb _ _ Hp0) as (_ & l1 & Hl1 & Hl1').
      assert (l1 = l0) as -> by congruence.
      assert (Hl' : l' ∈ hierarchyLevels).
      { rewrite Hlv, Hpre'. apply elem_of_app. left. apply elem_of_app.
        right. constructor. }
      assert (l0 = l') as -> by (symmetry; by eapply compositeKey_level).
      destruct (cores_lookup_inv _ _ _ Hp0) as (p1 & Hp1 & ->).
      destruct (Hgrow _ _ Hp1) as (p & Hp & Hpc & _).
      destruct (node_of_core _ _ Hpc) as (Hpt & Hpf & _ & Hpid).
      cbn [title levelFields _id core] in Hpt, Hpf, Hpid.
      assert (Hi : i < j).
      { rewrite <-Hlen. by eapply lookup_lt_Some. }
      assert (Hparent : _parent n = gen i).
      { rewrite Hpar. cbn [_parent new_node]. unfold id_or_empty.
        by rewrite id_truthy_gen. }
      split; [rewrite Hparent; apply generateObjectId_nonempty|].
      exists i, p. split; [done|]. split; [done|]. split; [|split].
      * by rewrite Hpid, (output_id rnd sc i p1 Hb Hp1).
      * rewrite <-Hl0. by apply node_level_levelFields.
      * intros Hun. rewrite Hv, Hpt. f_equal.
        pose proof (ids_unmentioned_sound rnd rows st Hbst Hun) as Hunst.
        assert (node_key (core p1) = (Some l', v, q)) as Hk.
        { apply (key_decode (take r rows ++ [row]) sc row l' v q i (core p1) l');
            try done.
          - intros r0 l0 t a w Hr0 Hl00 Ht0 Ha.
            apply (Hunst r0 l0 t a w); try done.
            + apply elem_of_app in Hr0 as [Hr0|Hr0%list_elem_of_singleton].
              * apply elem_of_take in Hr0 as (i0 & Hi0 & _).
                by eapply list_elem_of_lookup_2.
              * by subst.
            + rewrite (bi_drawn _ _ Hb), Hlen in Ha.
              rewrite (bi_drawn _ _ Hbst).
              pose proof (lookup_lt_Some _ _ _ Hn). lia.
          - apply elem_of_app. right. constructor.
          - by apply (resolve_drawn sc row pre'). }
        apply (f_equal (λ k : dedup_key, k.1.2)) in Hk.
        unfold node_key in Hk. cbn [fst snd] in Hk. by rewrite <-Hk.
    + rewrite Hlast in Hpar. exact Hpar.
Qed.

End CreationFacts.

(** C6, as the code has it — a parent stands at a strictly lower rank, not
    always one rank below.  A node with a parent appears in the output
    while one row of the input is processed; this creating row is the
    first row that meets the key of the node: it populates the level [l]
    of the node with the node's title and, walked through the levels below
    [l], it ends at the node's parent, which no earlier row with this
    title at [l] does.  The parent is the node resolved at [l'], the
    nearest level below [l] that the creating row populates: the node the
    index of the output gives for the key that the row forms at [l'] (with
    fresh ids: the node that has level [l'], the title of the row's cell
    at [l'] and the parent the row reached before).  It stands earlier in
    the output, so its rank is lower than the node's; it is exactly one
    lower when the creating row populates the level directly below
    [l]. *)
Theorem parent_is_nearest_populated_level (rnd : nat → N) (rows : list Row)
    (out : list node) (j : nat) (n : node) :
  processExcelToTreeJSON rnd rows = Some out →
  out !! j = Some n → _parent n ≠ "" →
  ∃ r row pre l post l' i p,
    rows !! r = Some row ∧ created_in rnd rows r j ∧
    hierarchyLevels = pre ++ l :: post ∧
    node_level n = Some l ∧ cell_title row l = Some (title n) ∧
    (∀ r' row', r' < r → rows !! r' = Some row' →
       cell_title row' l = Some (title n) →
       resolve (key_index out) row' pre None ≠ Some (Some (_parent n))) ∧
    last_populated row pre = Some l' ∧
    i < j ∧ out !! i = Some p ∧ _id p = _parent n ∧
    node_level p = Some l' ∧
    resolve (key_index out) row pre None = Some (Some (_id p)) ∧
    (ids_unmentioned rows out →
       cell_title row l' = Some (title p) ∧
       follow out row pre None = Some (Some (_id p))) ∧
    node_rank p < node_rank n ∧
    (∀ l0, last pre = Some l0 → is_Some (cell_title row l0) →
           node_rank n = S (node_rank p)).
Proof.
  intros Hrun Hn Hpar.
  destruct (creation_out rnd _ _ _ _ Hrun Hn)
    as (r & row & pre & l & post & Hr & Hc & Hlv & Hl & Ht & Hfirst & Hres &
        Hfollow & Hlink).
  assert (parent_of n = Some (_parent n)) as Hpn.
  { unfold parent_of. by rewrite bool_decide_eq_false_2. }
  rewrite Hpn in Hfirst, Hres, Hfollow.
  destruct (last_populated row pre) as [l'|] eqn:Hlast; [|done].
  destruct Hlink as (_ & i & p & Hi & Hp & Hid & Hpl & Htitle).
  exists r, row, pre, l, post, l', i, p. rewrite Hid.
  repeat (split; [done|]).
  split; [by intros Hun; split; [apply Htitle|apply Hfollow]|].
  destruct (last_populated_Some _ _ _ Hlast) as [Hin _].
  pose proof (level_rank_below _ _ _ _ Hlv Hin) as Hbelow.
  pose proof (level_rank_split _ _ _ Hlv) as Hrank.
  unfold node_rank. rewrite Hl, Hpl, Hrank. split; [lia|].
  intros l0 Hl0 Hpop.
  rewrite (last_populated_last _ _ _ Hl0 Hpop) in Hlast.
  injection Hlast as ->. apply last_Some in Hl0 as (pre' & ->).
  rewrite <-app_assoc in Hlv. simpl in Hlv.
  rewrite (level_rank_split _ _ _ Hlv), length_app. simpl. lia.
Qed.

Lemma parent_is_nearest_populated_level_witness :
  ∃ z, gap_output !! 1 = Some z ∧ _parent z ≠ "" ∧
  ∃ r row pre l post l' i p,
    gap_rows !! r = Some row ∧ created_in counter gap_rows r 1 ∧
    hierarchyLevels = pre ++ l :: post ∧
    node_level z = Some l ∧ cell_title row l = Some (title z) ∧
    (∀ r' row', r' < r → gap_rows !! r' = Some row' →
       cell_title row' l = Some (title z) →
       resolve (key_index gap_output) row' pre None ≠ Some (Some (_parent z))) ∧
    last_populated row pre = Some l' ∧
    i < 1 ∧ gap_output !! i = Some p ∧ _id p = _parent z ∧
    node_level p = Some l' ∧
    resolve (key_index gap_output) row pre None = Some (Some (_id p)) ∧
    (ids_unmentioned gap_rows gap_output →
       cell_title row l' = Some (title p) ∧
       follow gap_output row pre None = Some (Some (_id p))) ∧
    node_rank p < node_rank z ∧
    (∀ l0, last pre = Some l0 → is_Some (cell_title row l0) →
           node_rank z = S (node_rank p)).
Proof.
  eexists. split; [reflexivity|]. split; [discriminate|].
  apply (parent_is_nearest_populated_level counter gap_rows gap_output 1);
    [exact gap_run|reflexivity|discriminate].
Defined.

(** C7, as the code has it — [_parent] is empty for every node of rank 1,
    and more generally exactly when the row that created the node
    populates no level below the node's level.  The creating row is the
    row during which the node appears in the output, the first row that
    meets the key of the node; walked through the levels below the node's
    level, it ends at the node's parent (none, or the id in [_parent]),
    which is the owning node: a non-empty [_parent] is the id of an
    earlier node of the output. *)
Theorem parent_empty_iff_no_level_below (rnd : nat → N) (rows : list Row)
    (out : list node) (j : nat) (n : node) :
  processExcelToTreeJSON rnd rows = Some out → out !! j = Some n →
  (node_rank n = 1 → _parent n = "") ∧
  (∃ r row pre l post,
     rows !! r = Some row ∧ created_in rnd rows r j ∧
     hierarchyLevels = pre ++ l :: post ∧
     node_level n = Some l ∧ cell_title row l = Some (title n) ∧
     (∀ r' row', r' < r → rows !! r' = Some row' →
        cell_title row' l = Some (title n) →
        resolve (key_index out) row' pre None ≠ Some (parent_of n)) ∧
     (_parent n = "" ↔ last_populated row pre = None) ∧
     resolve (key_index out) row pre None = Some (parent_of n) ∧
     (ids_unmentioned rows out →
        follow out row pre None = Some (parent_of n))) ∧
  (_parent n ≠ "" → ∃ i p, i < j ∧ out !! i = Some p ∧ _id p = _parent n).
Proof.
  intros Hrun Hn.
  destruct (creation_out rnd _ _ _ _ Hrun Hn)
    as (r & row & pre & l & post & Hr & Hc & Hlv & Hl & Ht & Hfirst & Hres &
        Hfollow & Hlink).
  split; [|split].
  - unfold node_rank. rewrite Hl, (level_rank_split _ _ _ Hlv).
    intros Hone. destruct pre; [done|]. simpl in Hone. lia.
  - exists r, row, pre, l, post. repeat (split; [done|]).
    split; [|done].
    destruct (last_populated row pre); [|done].
    destruct Hlink as [Hne _]. split; [done|discriminate].
  - intros Hpar. destruct (last_populated row pre); [|done].
    destruct Hlink as (_ & i & p & Hi & Hp & Hid & _). by exists i, p.
Qed.

Lemma parent_empty_iff_no_level_below_witness :
  ∃ x, orphan_output !! 0 = Some x ∧
  (node_rank x = 1 → _parent x = "") ∧
  (∃ r row pre l post,
     orphan_rows !! r = Some row ∧ created_in counter orphan_rows r 0 ∧
     hierarchyLevels = pre ++ l :: post ∧
     node_level x = Some l ∧ cell_title row l = Some (title x) ∧
     (∀ r' row', r' < r → orphan_rows !! r' = Some row' →
        cell_title row' l = Some (title x) →
        resolve (key_index orphan_output) row' pre None ≠ Some (parent_of x)) ∧
     (_parent x = "" ↔ last_populated row pre = None) ∧
     resolve (key_index orphan_output) row pre None = Some (parent_of x) ∧
     (ids_unmentioned orphan_rows orphan_output →
        follow orphan_output row pre None = Some (parent_of x))) ∧
  (_parent x ≠ "" →
   ∃ i p, i < 0 ∧ orphan_output !! i = Some p ∧ _id p = _parent x).
Proof.
  eexists. split; [reflexivity|].
  apply (parent_empty_iff_no_level_below counter orphan_rows orphan_output 0);
    [exact orphan_run|reflexivity].
Defined.

(** On the sample with a shared title: "Y", the last node, appears while
    the third row is processed; this row, walked through L1 and L2, ends
    at "X" under "A" (the second node), the second row at "X" under "B"
    (the fourth node). *)
Example shared_creating_row :
  created_in counter shared_rows 2 4 ∧
  ¬ created_in counter shared_rows 1 4 ∧
  resolve (key_index shared_output)
    (row_of [(L1, "A"); (L2, "X"); (L3, "Y")]) [L1; L2] None =
    Some (Some "000000000000000000000001") ∧
  follow shared_output
    (row_of [(L1, "A"); (L2, "X"); (L3, "Y")]) [L1; L2] None =
    Some (Some "000000000000000000000001") ∧
  follow shared_output (row_of [(L1, "B"); (L2, "X")]) [L1; L2] None =
    Some (Some "000000000000000000000003").
Proof.
  split; [vm_compute; lia|]. split; [vm_compute; lia|].
  split; [vm_compute; reflexivity|]. split; vm_compute; reflexivity.
Qed.
